(** * protoactor-cpp: mailbox scheduling, process registry and contexts

    A shallow embedding of [include/protoactor/types.hpp],
    [include/protoactor/mailbox.hpp] and [include/protoactor/protoactor.hpp].

    Conventions.
    - The program is single threaded here: the only dispatcher of the source
      is [SynchronousDispatcher], whose [schedule] calls the runner inline.
      Atomics are plain fields and the registry mutex is not modelled.
    - A C++ call that may throw returns a [Result]; state changes made before
      the throw are kept, as stack unwinding keeps them.
    - [None] as the outcome of an operation means that the model has no result
      for it: a null [dispatcher_] / [invoker_] was dereferenced, or the
      nesting of inline [run] calls exceeded the given fuel.
    - Every operation also returns the list of [Event]s it performed, oldest
      first.  The events are observations only; no decision of the code
      depends on them. *)

From Stdlib Require Import ZArith Lia List Bool String.
From stdpp Require Import base gmap strings list pretty.
Import ListNotations.
Local Open Scope string_scope.
Local Open Scope Z_scope.
Local Open Scope list_scope.

(* ===================================================================== *)
(** ** types.hpp / mailbox.hpp: messages *)
(* ===================================================================== *)

(** The dynamic class of a message object, as far as [dynamic_cast] in the
    source can tell classes apart. *)
Inductive MessageClass :=
| StartedMessage
| StopMessage
| ResumeMailboxMessage
| SuspendMailboxMessage
| OtherSystemMessage (name : string)     (* any other class derived from SystemMessage *)
| UserMessage (name payload : string).   (* a class derived from Message, such as Hello *)

Record Message := {
  class_of : MessageClass;
  do_not_delete_ : bool;
}.

Global Instance MessageClass_eq_dec : EqDecision MessageClass.
Proof. solve_decision. Defined.
Global Instance Message_eq_dec : EqDecision Message.
Proof. solve_decision. Defined.

(** [StartedMessage() : SystemMessage{true}] and
    [instance() { static StartedMessage _instance; return UPtr{&_instance}; }] *)
Definition StartedMessage_instance : Message :=
  {| class_of := StartedMessage; do_not_delete_ := true |}.

(** [StopMessage() : SystemMessage{true}] and its [instance()]. *)
Definition StopMessage_instance : Message :=
  {| class_of := StopMessage; do_not_delete_ := true |}.

(** [class SuspendMailboxMessage : public SystemMessage {}]: the implicit
    constructor runs [SystemMessage(bool do_not_delete = false)]. *)
Definition new_SuspendMailboxMessage : Message :=
  {| class_of := SuspendMailboxMessage; do_not_delete_ := false |}.

(** [class ResumeMailboxMessage : public SystemMessage {}]. *)
Definition new_ResumeMailboxMessage : Message :=
  {| class_of := ResumeMailboxMessage; do_not_delete_ := false |}.

(** [class Hello : public Message] of the example: [Message(false)]. *)
Definition new_Hello (who : string) : Message :=
  {| class_of := UserMessage "Hello" who; do_not_delete_ := false |}.

(** [dynamic_cast<StartedMessage *>(message.get())] and its siblings. *)
Definition is_StartedMessage (m : Message) : bool :=
  match class_of m with StartedMessage => true | _ => false end.
Definition is_SuspendMailboxMessage (m : Message) : bool :=
  match class_of m with SuspendMailboxMessage => true | _ => false end.
Definition is_ResumeMailboxMessage (m : Message) : bool :=
  match class_of m with ResumeMailboxMessage => true | _ => false end.

(* ===================================================================== *)
(** ** Exceptions *)
(* ===================================================================== *)

(** What a C++ [throw] can raise in this program.  The last constructor
    stands for a thrown object whose type does not derive from
    [std::exception] (as in [throw 42;]). *)
Inductive Exception :=
| ProcessNameExistException (name : string)   (* : std::invalid_argument *)
| std_exception (what : string)
| non_std_throw (what : string).

Definition is_std_exception (e : Exception) : bool :=
  match e with non_std_throw _ => false | _ => true end.

Global Instance Exception_eq_dec : EqDecision Exception.
Proof. solve_decision. Defined.

(** The result of a call: it returned a value, or it threw. *)
Inductive Result (A : Type) :=
| Returned (a : A)
| Threw (e : Exception).
Arguments Returned {A} a.
Arguments Threw {A} e.

(* ===================================================================== *)
(** ** Observations *)
(* ===================================================================== *)

Inductive Event :=
| EvMessagePosted (stat : nat) (m : Message)     (* stat->message_posted(m) *)
| EvMessageReceived (stat : nat) (m : Message)   (* stat->message_received(m) *)
| EvMailboxStarted (stat : nat)                  (* stat->mailbox_started() *)
| EvMailboxEmpty (stat : nat)                    (* stat->mailbox_empty() *)
| EvPushSystem (m : Message)                     (* system_messages_->push *)
| EvPushUser (m : Message)                       (* user_mailbox_->push *)
| EvPopSystem (r : option Message)               (* system_messages_->pop() *)
| EvPopUser (r : option Message)                 (* user_mailbox_->pop() *)
| EvInvokeSystem (m : Message)                   (* invoker_->invoke_system_message *)
| EvInvokeUser (m : Message)                     (* invoker_->invoke_user_message *)
| EvThrow (e : Exception)                        (* the invoker call just made threw e *)
| EvEscalateFailure (e : Exception) (m : option Message)
| EvSchedule (cas : bool)                        (* schedule(), with the result of the CAS *)
| EvRun                                          (* run() entered *)
| EvIdle                                         (* status_.store(Idle) *)
| EvRegisterHandlers
| EvStart.

Global Instance Event_eq_dec : EqDecision Event.
Proof. solve_decision. Defined.

(* ===================================================================== *)
(** ** mailbox.hpp: interfaces *)
(* ===================================================================== *)

(** [IDispatcher].  [schedule] of every dispatcher modelled here runs the
    runner inline, as [SynchronousDispatcher::schedule] does; [throughput]
    is the [int] that the virtual [throughput()] returns. *)
Record IDispatcher := {
  throughput : Z;
}.

Definition SynchronousDispatcher : IDispatcher := {| throughput := 300 |}.

(** [Dispatchers::default_dispatcher()] *)
Definition default_dispatcher : IDispatcher := SynchronousDispatcher.

(** [IMessageInvoker] over the state [I] of the implementing object.  The two
    invoke methods may throw.  [escalate_failure] is called from a handler
    and is taken not to throw; an invoker acts on its own state only (it
    does not post to the mailbox that is invoking it). *)
Class IMessageInvoker (I : Type) := {
  escalate_failure : Exception -> option Message -> I -> I;
  invoke_system_message : Message -> I -> Result unit * I;
  invoke_user_message : Message -> I -> Result unit * I;
}.

Inductive MailboxStatus := Idle | Busy.

Global Instance MailboxStatus_eq_dec : EqDecision MailboxStatus.
Proof. solve_decision. Defined.

(* ===================================================================== *)
(** ** mailbox.hpp: UnboundedMailboxQueue *)
(* ===================================================================== *)

(** The lock-free FIFO, oldest message first. *)
Definition UnboundedMailboxQueue := list Message.

Definition has_messages (q : UnboundedMailboxQueue) : bool :=
  match q with [] => false | _ :: _ => true end.

(** [pop()]: the oldest message, or a null pointer when the queue is empty. *)
Definition pop (q : UnboundedMailboxQueue) : option Message * UnboundedMailboxQueue :=
  match q with
  | [] => (None, [])
  | m :: q' => (Some m, q')
  end.

Definition push (m : Message) (q : UnboundedMailboxQueue) : UnboundedMailboxQueue :=
  q ++ [m].

(* ===================================================================== *)
(** ** mailbox.hpp: DefaultMailbox *)
(* ===================================================================== *)

(** The statistics observers in [stats_] are represented by their names;
    each call made on one of them is an [Event].  Observers do not throw. *)
Record DefaultMailbox (I : Type) := {
  dispatcher_ : option IDispatcher;       (* nullptr until register_handlers *)
  invoker_ : option I;                    (* empty until register_handlers *)
  stats_ : list nat;
  status_ : MailboxStatus;
  suspended_ : bool;
  system_messages_ : UnboundedMailboxQueue;
  user_mailbox_ : UnboundedMailboxQueue;
}.
Arguments dispatcher_ {I} _.
Arguments invoker_ {I} _.
Arguments stats_ {I} _.
Arguments status_ {I} _.
Arguments suspended_ {I} _.
Arguments system_messages_ {I} _.
Arguments user_mailbox_ {I} _.

Section MailboxOps.
Context {I : Type}.

Definition set_dispatcher (d : option IDispatcher) (mb : DefaultMailbox I) :=
  {| dispatcher_ := d; invoker_ := invoker_ mb; stats_ := stats_ mb;
     status_ := status_ mb; suspended_ := suspended_ mb;
     system_messages_ := system_messages_ mb; user_mailbox_ := user_mailbox_ mb |}.
Definition set_invoker (i : option I) (mb : DefaultMailbox I) :=
  {| dispatcher_ := dispatcher_ mb; invoker_ := i; stats_ := stats_ mb;
     status_ := status_ mb; suspended_ := suspended_ mb;
     system_messages_ := system_messages_ mb; user_mailbox_ := user_mailbox_ mb |}.
Definition set_status (s : MailboxStatus) (mb : DefaultMailbox I) :=
  {| dispatcher_ := dispatcher_ mb; invoker_ := invoker_ mb; stats_ := stats_ mb;
     status_ := s; suspended_ := suspended_ mb;
     system_messages_ := system_messages_ mb; user_mailbox_ := user_mailbox_ mb |}.
Definition set_suspended (b : bool) (mb : DefaultMailbox I) :=
  {| dispatcher_ := dispatcher_ mb; invoker_ := invoker_ mb; stats_ := stats_ mb;
     status_ := status_ mb; suspended_ := b;
     system_messages_ := system_messages_ mb; user_mailbox_ := user_mailbox_ mb |}.
Definition set_system_messages (q : UnboundedMailboxQueue) (mb : DefaultMailbox I) :=
  {| dispatcher_ := dispatcher_ mb; invoker_ := invoker_ mb; stats_ := stats_ mb;
     status_ := status_ mb; suspended_ := suspended_ mb;
     system_messages_ := q; user_mailbox_ := user_mailbox_ mb |}.
Definition set_user_mailbox (q : UnboundedMailboxQueue) (mb : DefaultMailbox I) :=
  {| dispatcher_ := dispatcher_ mb; invoker_ := invoker_ mb; stats_ := stats_ mb;
     status_ := status_ mb; suspended_ := suspended_ mb;
     system_messages_ := system_messages_ mb; user_mailbox_ := q |}.

(** [DefaultMailbox(system_messages, user_mailbox, stats...)] as
    [UnboundedMailbox::create(stats...)] calls it, with two empty queues. *)
Definition UnboundedMailbox_create (stats : list nat) : DefaultMailbox I :=
  {| dispatcher_ := None; invoker_ := None; stats_ := stats;
     status_ := Idle; suspended_ := false;
     system_messages_ := []; user_mailbox_ := [] |}.

Context `{!IMessageInvoker I}.

(** The outcome of a mailbox operation. *)
Definition Outcome (A : Type) : Type :=
  option (Result A * DefaultMailbox I * list Event).

(** How one pass through the body of the [for] loop leaves it. *)
Inductive LoopExit :=
| Continue                 (* [continue], or the end of the body *)
| Break                    (* [break] *)
| Unwind (e : Exception).  (* an exception leaves the [try] block *)

(** The [suspended_] flag after the two [dynamic_cast] tests on a system
    message. *)
Definition suspended_after_system (m : Message) (suspended : bool) : bool :=
  if is_SuspendMailboxMessage m then true
  else if is_ResumeMailboxMessage m then false
  else suspended.

(** One pass through the body of the [for] loop of [process_messages].
    The second component is the local variable [message] afterwards. *)
Definition iteration (mb : DefaultMailbox I)
  : option (LoopExit * option Message * DefaultMailbox I * list Event) :=
  let '(message, sysq) := pop (system_messages_ mb) in
  let mb := set_system_messages sysq mb in
  match message with
  | Some m =>
      let mb := set_suspended (suspended_after_system m (suspended_ mb)) mb in
      match invoker_ mb with
      | None => None
      | Some inv =>
          let '(r, inv') := invoke_system_message m inv in
          let mb := set_invoker (Some inv') mb in
          match r with
          | Threw e =>
              Some (Unwind e, message, mb,
                    [EvPopSystem message; EvInvokeSystem m; EvThrow e])
          | Returned _ =>
              Some (Continue, message, mb,
                    [EvPopSystem message; EvInvokeSystem m]
                    ++ map (fun stat => EvMessageReceived stat m) (stats_ mb))
          end
      end
  | None =>
      if suspended_ mb then Some (Break, message, mb, [EvPopSystem None])
      else
        let '(message, userq) := pop (user_mailbox_ mb) in
        let mb := set_user_mailbox userq mb in
        match message with
        | Some m =>
            match invoker_ mb with
            | None => None
            | Some inv =>
                let '(r, inv') := invoke_user_message m inv in
                let mb := set_invoker (Some inv') mb in
                match r with
                | Threw e =>
                    Some (Unwind e, message, mb,
                          [EvPopSystem None; EvPopUser message; EvInvokeUser m; EvThrow e])
                | Returned _ =>
                    Some (Continue, message, mb,
                          [EvPopSystem None; EvPopUser message; EvInvokeUser m]
                          ++ map (fun stat => EvMessageReceived stat m) (stats_ mb))
                end
            end
        | None =>
            Some (Break, message, mb, [EvPopSystem None; EvPopUser None])
        end
  end.

(** [for (auto i = 0; i < dispatcher_->throughput(); ++i) { ... }] with [n]
    passes left.  The first component is the exception that left the loop,
    if any; the second is [message]. *)
Fixpoint for_loop (n : nat) (message : option Message) (mb : DefaultMailbox I)
  : option (option Exception * option Message * DefaultMailbox I * list Event) :=
  match n with
  | O => Some (None, message, mb, [])
  | S n' =>
      match iteration mb with
      | None => None
      | Some (Continue, message', mb', evs) =>
          match for_loop n' message' mb' with
          | None => None
          | Some (r, message'', mb'', evs') => Some (r, message'', mb'', evs ++ evs')
          end
      | Some (Break, message', mb', evs) => Some (None, message', mb', evs)
      | Some (Unwind e, message', mb', evs) => Some (Some e, message', mb', evs)
      end
  end.

(** [bool process_messages()].  [catch (const std::exception &e)] handles
    the exceptions derived from [std::exception]; any other thrown object
    leaves the function. *)
Definition process_messages (mb : DefaultMailbox I) : Outcome bool :=
  match dispatcher_ mb with
  | None => None
  | Some d =>
      match for_loop (Z.to_nat (throughput d)) None mb with
      | None => None
      | Some (None, _, mb', evs) => Some (Returned true, mb', evs)
      | Some (Some e, message, mb', evs) =>
          if is_std_exception e then
            match invoker_ mb' with
            | None => None
            | Some inv =>
                Some (Returned true,
                      set_invoker (Some (escalate_failure e message inv)) mb',
                      evs ++ [EvEscalateFailure e message])
            end
          else Some (Threw e, mb', evs)
      end
  end.

(** The condition of the [if] in [run]. *)
Definition work_pending (mb : DefaultMailbox I) : bool :=
  has_messages (system_messages_ mb)
  || (negb (suspended_ mb) && has_messages (user_mailbox_ mb)).

(** [schedule()], given what running the closure [[this]() { run(); }] does.
    The dispatcher calls the closure inline. *)
Definition schedule_with (runner : DefaultMailbox I -> Outcome unit)
    (mb : DefaultMailbox I) : Outcome unit :=
  match status_ mb with
  | Busy => Some (Returned tt, mb, [EvSchedule false])
  | Idle =>
      let mb := set_status Busy mb in
      match dispatcher_ mb with
      | None => None
      | Some _ =>
          match runner mb with
          | None => None
          | Some (r, mb', evs) => Some (r, mb', EvSchedule true :: evs)
          end
      end
  end.

(** [run()]; [fuel] bounds the nesting of inline runs. *)
Fixpoint run (fuel : nat) (mb : DefaultMailbox I) : Outcome unit :=
  match fuel with
  | O => None
  | S fuel' =>
      match process_messages mb with
      | None => None
      | Some (Threw e, mb, evs) => Some (Threw e, mb, EvRun :: evs)
      | Some (Returned done, mb, evs) =>
          if negb done then Some (Returned tt, mb, EvRun :: evs)
          else
            let mb := set_status Idle mb in
            if work_pending mb then
              match schedule_with (run fuel') mb with
              | None => None
              | Some (r, mb', evs') => Some (r, mb', EvRun :: evs ++ EvIdle :: evs')
              end
            else
              Some (Returned tt, mb,
                    EvRun :: evs ++ EvIdle :: map EvMailboxEmpty (stats_ mb))
      end
  end.

Definition schedule (fuel : nat) : DefaultMailbox I -> Outcome unit :=
  schedule_with (run fuel).

Definition post_system_message (fuel : nat) (message : Message)
    (mb : DefaultMailbox I) : Outcome unit :=
  let evs := map (fun stat => EvMessagePosted stat message) (stats_ mb) in
  let mb := set_system_messages (push message (system_messages_ mb)) mb in
  match schedule fuel mb with
  | None => None
  | Some (r, mb', evs') => Some (r, mb', evs ++ EvPushSystem message :: evs')
  end.

Definition post_user_message (fuel : nat) (message : Message)
    (mb : DefaultMailbox I) : Outcome unit :=
  let evs := map (fun stat => EvMessagePosted stat message) (stats_ mb) in
  let mb := set_user_mailbox (push message (user_mailbox_ mb)) mb in
  match schedule fuel mb with
  | None => None
  | Some (r, mb', evs') => Some (r, mb', evs ++ EvPushUser message :: evs')
  end.

Definition register_handlers (invoker : I) (dispatcher : IDispatcher)
    (mb : DefaultMailbox I) : DefaultMailbox I * list Event :=
  (set_dispatcher (Some dispatcher) (set_invoker (Some invoker) mb),
   [EvRegisterHandlers]).

Definition start (mb : DefaultMailbox I) : DefaultMailbox I * list Event :=
  (mb, EvStart :: map EvMailboxStarted (stats_ mb)).

End MailboxOps.

(* ===================================================================== *)
(** ** protoactor.hpp: actors and contexts *)
(* ===================================================================== *)

Module ContextState.
Inductive t := None | Alive | Restarting | Stopping.
End ContextState.

(** [IActor] over the state [A] of the implementing object.  The argument of
    [receive] is what [context.message()] returns during the call, which is
    all that [const IContext &] gives access to. *)
Class IActor (A : Type) := {
  receive : option Message -> A -> Result unit * A;
}.

(** [using Producer = std::function<std::unique_ptr<IActor> ()>]: a call
    makes a new actor, or throws.  A producer that returns is taken to
    return an actor, not a null pointer. *)
Definition Producer (A : Type) : Type := unit -> Result A.

(** What the call of an empty [std::function] throws; the class derives
    from [std::exception]. *)
Definition bad_function_call : Exception := std_exception "bad_function_call".

(** A default-constructed [Producer]: it holds no callable. *)
Definition Producer_empty {A : Type} : Producer A :=
  fun _ => Threw bad_function_call.

(** [std::string address_; std::string id_; Process *process_{nullptr};]
    A [Process *] is either the address of [DeadLetterProcess::instance()] or
    the address of the process that the registry owns under a key. *)
Inductive ProcessPtr :=
| DeadLetterProcess_instance
| registered (key : string).

Record PID := {
  pid_address_ : string;
  pid_id_ : string;
  process_ : option ProcessPtr;
}.

Definition set_process (p : option ProcessPtr) (pid : PID) : PID :=
  {| pid_address_ := pid_address_ pid; pid_id_ := pid_id_ pid; process_ := p |}.

(** [LocalContext].  The record is the object once its constructor has
    returned.  [receive_calls_] is an observation: the calls made to
    [actor_->receive], each with the value of [message_] at the call. *)
Record LocalContext (A : Type) := {
  actor_ : A;
  message_ : option Message;
  parent_ : option PID;
  producer_ : Producer A;
  state_ : ContextState.t;
  receive_calls_ : list (option Message);
}.
Arguments actor_ {A} _.
Arguments message_ {A} _.
Arguments parent_ {A} _.
Arguments producer_ {A} _.
Arguments state_ {A} _.
Arguments receive_calls_ {A} _.

Section LocalContextOps.
Context {A : Type} `{!IActor A}.

(** The object that the constructor leaves behind when [producer_()] has
    returned [actor]: [parent_{parent}, producer_{producer}], and
    [incarnate_actor] has stored [ContextState::Alive] in [state_]
    (initialised to [None]) and the actor in [actor_] (initialised to
    null). *)
Definition LocalContext_incarnated (producer : Producer A) (parent : option PID)
    (actor : A) : LocalContext A :=
  {| actor_ := actor; message_ := None; parent_ := parent;
     producer_ := producer; state_ := ContextState.Alive;
     receive_calls_ := [] |}.

(** [LocalContext(producer, parent) : parent_{parent}, producer_{producer}
    { incarnate_actor(); }] with [incarnate_actor() { state_ =
    ContextState::Alive; actor_ = producer_(); }].  What [producer_()]
    throws leaves the constructor, and no object is made. *)
Definition LocalContext_ctor (producer : Producer A) (parent : option PID)
  : Result (LocalContext A) :=
  match producer tt with
  | Returned actor => Returned (LocalContext_incarnated producer parent actor)
  | Threw e => Threw e
  end.

(** [message()] *)
Definition LocalContext_message (ctx : LocalContext A) : option Message :=
  message_ ctx.

(** [process_message]: [message_ = message; default_receive( *this);
    message_.reset();] where [default_receive] calls
    [lc.actor_->receive(context)].  When [receive] throws, the [reset] is
    not reached. *)
Definition process_message (message : Message) (ctx : LocalContext A)
  : Result unit * LocalContext A :=
  let slot := Some message in
  let '(r, actor') := receive slot (actor_ ctx) in
  let ctx' (slot' : option Message) :=
    {| actor_ := actor'; message_ := slot'; parent_ := parent_ ctx;
       producer_ := producer_ ctx; state_ := state_ ctx;
       receive_calls_ := receive_calls_ ctx ++ [slot] |} in
  match r with
  | Returned _ => (Returned tt, ctx' None)
  | Threw e => (Threw e, ctx' slot)
  end.

Definition LocalContext_invoke_user_message (message : Message)
    (ctx : LocalContext A) : Result unit * LocalContext A :=
  process_message message ctx.

Definition LocalContext_invoke_system_message (message : Message)
    (ctx : LocalContext A) : Result unit * LocalContext A :=
  if is_StartedMessage message
  then LocalContext_invoke_user_message message ctx
  else (Returned tt, ctx).

(** The body of [escalate_failure] is empty. *)
Definition LocalContext_escalate_failure (reason : Exception)
    (message : option Message) (ctx : LocalContext A) : LocalContext A :=
  ctx.

Global Instance LocalContext_invoker : IMessageInvoker (LocalContext A) := {
  escalate_failure := LocalContext_escalate_failure;
  invoke_system_message := LocalContext_invoke_system_message;
  invoke_user_message := LocalContext_invoke_user_message;
}.
End LocalContextOps.

(* ===================================================================== *)
(** ** protoactor.hpp: processes, the registry, PIDs, Props *)
(* ===================================================================== *)

(** A process object: the dead-letter sink, or a [LocalProcess] with the
    address of the mailbox it shares and its [is_dead_] flag. *)
Inductive Process :=
| DeadLetterProcess
| LocalProcess (mailbox_ : nat) (is_dead_ : bool).

(** [dynamic_cast<LocalProcess *>(p)] non-null and [lp->is_dead()]. *)
Definition is_dead_LocalProcess (p : Process) : bool :=
  match p with
  | LocalProcess _ dead => dead
  | DeadLetterProcess => false
  end.

(** [dynamic_cast<DeadLetterProcess *>(p)] non-null. *)
Definition is_DeadLetterProcess (p : Process) : bool :=
  match p with
  | DeadLetterProcess => true
  | LocalProcess _ _ => false
  end.

Record ProcessRegistry := {
  address_ : string;
  local_actor_refs_ : gmap string Process;
  sequence_id_ : Z;
}.

(** [ProcessRegistry::instance()] when first used. *)
Definition ProcessRegistry_initial : ProcessRegistry :=
  {| address_ := "nonhost"; local_actor_refs_ := ∅; sequence_id_ := 0 |}.

(** [Process &ProcessRegistry::get(const PID &pid) const] *)
Definition ProcessRegistry_get (reg : ProcessRegistry) (pid : PID) : ProcessPtr :=
  match local_actor_refs_ reg !! pid_id_ pid with
  | None => DeadLetterProcess_instance
  | Some _ => registered (pid_id_ pid)
  end.

(** [std::unordered_map::emplace]: inserts unless the key is present; the
    boolean tells whether the insertion took place. *)
Definition emplace (id : string) (process : Process) (m : gmap string Process)
  : gmap string Process * bool :=
  match m !! id with
  | Some _ => (m, false)
  | None => (<[id := process]> m, true)
  end.

(** [std::unique_ptr<PID> ProcessRegistry::try_add(id, process)] *)
Definition ProcessRegistry_try_add (id : string) (process : Process)
    (reg : ProcessRegistry) : Result PID * ProcessRegistry :=
  let pid := {| pid_address_ := address_ reg; pid_id_ := id; process_ := None |} in
  let '(refs, inserted) := emplace id process (local_actor_refs_ reg) in
  let reg' := {| address_ := address_ reg; local_actor_refs_ := refs;
                 sequence_id_ := sequence_id_ reg |} in
  if negb inserted then (Threw (ProcessNameExistException id), reg')
  else (Returned pid, reg').

(** [Props]: [dispatcher_], [mailbox_producer_], [producer_].  [spawner_] is
    always [&Props::default_spawner]; the class has no way to replace it. *)
Record Props (A : Type) := {
  props_dispatcher_ : IDispatcher;
  props_mailbox_producer_ : unit -> DefaultMailbox (LocalContext A);
  props_producer_ : Producer A;
}.
Arguments props_dispatcher_ {A} _.
Arguments props_mailbox_producer_ {A} _.
Arguments props_producer_ {A} _.

(** The process-wide state: the registry singleton and the mailboxes that
    live on the heap, shared between a [LocalProcess] and whoever else holds
    the [shared_ptr].  A mailbox address is an index into [mailboxes]. *)
Record System (A : Type) := {
  registry : ProcessRegistry;
  mailboxes : list (DefaultMailbox (LocalContext A));
}.
Arguments registry {A} _.
Arguments mailboxes {A} _.

Section SystemOps.
Context {A : Type} `{!IActor A}.

Definition System_initial : System A :=
  {| registry := ProcessRegistry_initial; mailboxes := [] |}.

Definition set_registry (reg : ProcessRegistry) (sys : System A) : System A :=
  {| registry := reg; mailboxes := mailboxes sys |}.
Definition set_mailbox (addr : nat) (mb : DefaultMailbox (LocalContext A))
    (sys : System A) : System A :=
  {| registry := registry sys; mailboxes := <[addr := mb]> (mailboxes sys) |}.

(** The object behind a [Process *]. *)
Definition deref (sys : System A) (p : ProcessPtr) : option Process :=
  match p with
  | DeadLetterProcess_instance => Some DeadLetterProcess
  | registered key => local_actor_refs_ (registry sys) !! key
  end.

(** A default-constructed [Props]: the default dispatcher,
    [produce_default_mailbox] (which is [UnboundedMailbox::create()]) and an
    empty [producer_]. *)
Definition Props_ctor : Props A :=
  {| props_dispatcher_ := default_dispatcher;
     props_mailbox_producer_ := fun _ => UnboundedMailbox_create [];
     props_producer_ := Producer_empty |}.

(** [with_producer(producer)] *)
Definition Props_with_producer (producer : Producer A) (props : Props A) : Props A :=
  {| props_dispatcher_ := props_dispatcher_ props;
     props_mailbox_producer_ := props_mailbox_producer_ props;
     props_producer_ := producer |}.

(** [Actor::from_producer]: a default-constructed [Props] with the
    producer set. *)
Definition Actor_from_producer (producer : Producer A) : Props A :=
  Props_with_producer producer Props_ctor.

(** [Process *PID::ref()] *)
Definition PID_ref (pid : PID) (sys : System A) : option (option ProcessPtr * PID) :=
  match process_ pid with
  | Some p =>
      match deref sys p with
      | None => None
      | Some proc =>
          let pid := if is_dead_LocalProcess proc then set_process None pid else pid in
          Some (process_ pid, pid)
      end
  | None =>
      let reff := ProcessRegistry_get (registry sys) pid in
      match deref sys reff with
      | None => None
      | Some proc =>
          let pid := if negb (is_DeadLetterProcess proc)
                     then set_process (Some reff) pid else pid in
          Some (process_ pid, pid)
      end
  end.

(** The outcome of an operation on the system that touches at most one
    mailbox, whose events are returned. *)
Definition SysOutcome (B : Type) : Type :=
  option (Result B * System A * list Event).

(** The virtual call [reff.send_user_message(pid, message)]. *)
Definition Process_send_user_message (fuel : nat) (reff : ProcessPtr)
    (message : Message) (sys : System A) : SysOutcome unit :=
  match deref sys reff with
  | None => None
  | Some DeadLetterProcess => Some (Returned tt, sys, [])
  | Some (LocalProcess addr _) =>
      match mailboxes sys !! addr with
      | None => None
      | Some mb =>
          match post_user_message fuel message mb with
          | None => None
          | Some (r, mb', evs) => Some (r, set_mailbox addr mb' sys, evs)
          end
      end
  end.

(** The virtual call [reff.send_system_message(pid, message)]. *)
Definition Process_send_system_message (fuel : nat) (reff : ProcessPtr)
    (message : Message) (sys : System A) : SysOutcome unit :=
  match deref sys reff with
  | None => None
  | Some DeadLetterProcess => Some (Returned tt, sys, [])
  | Some (LocalProcess addr _) =>
      match mailboxes sys !! addr with
      | None => None
      | Some mb =>
          match post_system_message fuel message mb with
          | None => None
          | Some (r, mb', evs) => Some (r, set_mailbox addr mb' sys, evs)
          end
      end
  end.

(** The virtual call [reff.stop(pid)].  [Process::stop] sends
    [StopMessage::instance()] as a system message; [LocalProcess::stop]
    calls it and then stores [true] in [is_dead_]. *)
Definition Process_stop (fuel : nat) (reff : ProcessPtr) (sys : System A)
  : SysOutcome unit :=
  match Process_send_system_message fuel reff StopMessage_instance sys with
  | None => None
  | Some (Threw e, sys', evs) => Some (Threw e, sys', evs)
  | Some (Returned _, sys', evs) =>
      match reff, deref sys' reff with
      | registered key, Some (LocalProcess addr _) =>
          let reg := registry sys' in
          let reg' := {| address_ := address_ reg;
                         local_actor_refs_ :=
                           <[key := LocalProcess addr true]> (local_actor_refs_ reg);
                         sequence_id_ := sequence_id_ reg |} in
          Some (Returned tt, set_registry reg' sys', evs)
      | _, _ => Some (Returned tt, sys', evs)
      end
  end.

(** [void PID::tell(Message::UPtr message)] *)
Definition PID_tell (fuel : nat) (message : Message) (pid : PID) (sys : System A)
  : option (Result unit * PID * System A * list Event) :=
  match PID_ref pid sys with
  | None => None
  | Some (p, pid') =>
      let reff := match p with
                  | Some p => p
                  | None => ProcessRegistry_get (registry sys) pid'
                  end in
      match Process_send_user_message fuel reff message sys with
      | None => None
      | Some (r, sys', evs) => Some (r, pid', sys', evs)
      end
  end.

(** [Props::default_spawner(name, props, parent)].  The new mailbox stays
    on the heap once the registry has accepted the process, which shares
    it; when [try_add] throws, the only [shared_ptr] to it is destroyed with
    the frame.  When the constructor of the context throws, the process is
    registered already and its mailbox has no handlers. *)
Definition Props_default_spawner (fuel : nat) (name : string) (props : Props A)
    (parent : option PID) (sys : System A) : SysOutcome PID :=
  let mailbox := props_mailbox_producer_ props tt in
  let addr := length (mailboxes sys) in
  match ProcessRegistry_try_add name (LocalProcess addr false) (registry sys) with
  | (Threw e, reg') => Some (Threw e, set_registry reg' sys, [])
  | (Returned pid, reg') =>
      let store mb := {| registry := reg'; mailboxes := mailboxes sys ++ [mb] |} in
      match LocalContext_ctor (props_producer_ props) parent with
      | Threw e => Some (Threw e, store mailbox, [])
      | Returned ctx =>
          let dispatcher := props_dispatcher_ props in
          let '(mailbox, evs1) := register_handlers ctx dispatcher mailbox in
          match post_system_message fuel StartedMessage_instance mailbox with
          | None => None
          | Some (Threw e, mailbox, evs2) => Some (Threw e, store mailbox, evs1 ++ evs2)
          | Some (Returned _, mailbox, evs2) =>
              let '(mailbox, evs3) := start mailbox in
              Some (Returned pid, store mailbox, evs1 ++ evs2 ++ evs3)
          end
      end
  end.

(** [Props::spawn(name, parent)]: [spawner_(name, *this, parent)]. *)
Definition Props_spawn (fuel : nat) (props : Props A) (name : string)
    (parent : option PID) (sys : System A) : SysOutcome PID :=
  Props_default_spawner fuel name props parent sys.

(** [Actor::spawn_named(props, name)] *)
Definition Actor_spawn_named (fuel : nat) (props : Props A) (name : string)
    (sys : System A) : SysOutcome PID :=
  Props_spawn fuel props name None sys.

End SystemOps.

(* ===================================================================== *)
(** ** types.hpp: Message::Deleter *)
(* ===================================================================== *)

(** [Message::Deleter::operator()], on the list of the message objects that
    have been destroyed so far (newest first):
    [if (message && !message->do_not_delete_) delete message;] *)
Definition Deleter (message : option Message) (destroyed : list Message)
  : list Message :=
  match message with
  | Some m => if negb (do_not_delete_ m) then m :: destroyed else destroyed
  | None => destroyed
  end.

(** Destroying owning pointers one after the other.  A [Message::UPtr] runs
    the deleter in its destructor; a [Message::SPtr] made from one runs the
    same deleter when its last owner goes away. *)
Definition destroy_owners (owners : list (option Message)) (destroyed : list Message)
  : list Message :=
  fold_left (fun d p => Deleter p d) owners destroyed.

(* ===================================================================== *)
(** ** Reading event lists *)
(* ===================================================================== *)

Definition is_invoke (e : Event) : bool :=
  match e with EvInvokeSystem _ | EvInvokeUser _ => true | _ => false end.

(** A pop of, or an invocation with, a user message. *)
Definition is_user_delivery (e : Event) : bool :=
  match e with EvPopUser _ | EvInvokeUser _ => true | _ => false end.

Definition is_run (e : Event) : bool :=
  match e with EvRun => true | _ => false end.

(** Neither a throw nor an escalation. *)
Definition quiet (e : Event) : bool :=
  match e with EvThrow _ | EvEscalateFailure _ _ => false | _ => true end.

(** The messages handed to the invoker, in order. *)
Fixpoint invoked (evs : list Event) : list Message :=
  match evs with
  | [] => []
  | EvInvokeSystem m :: evs' | EvInvokeUser m :: evs' => m :: invoked evs'
  | _ :: evs' => invoked evs'
  end.

Fixpoint invoked_user (evs : list Event) : list Message :=
  match evs with
  | [] => []
  | EvInvokeUser m :: evs' => m :: invoked_user evs'
  | _ :: evs' => invoked_user evs'
  end.

Fixpoint invoked_system (evs : list Event) : list Message :=
  match evs with
  | [] => []
  | EvInvokeSystem m :: evs' => m :: invoked_system evs'
  | _ :: evs' => invoked_system evs'
  end.

(** The events before the first [EvRun], and then the events of each run:
    a run extends from its [EvRun] to the next one. *)
Fixpoint split_runs (evs : list Event) : list Event * list (list Event) :=
  match evs with
  | [] => ([], [])
  | e :: evs' =>
      let '(pre, rs) := split_runs evs' in
      if is_run e then ([], pre :: rs) else (e :: pre, rs)
  end.

Definition runs (evs : list Event) : list (list Event) := snd (split_runs evs).

(** The value of [suspended_] that the events account for: it follows the
    system messages popped. *)
Fixpoint suspended_through (suspended : bool) (evs : list Event) : bool :=
  match evs with
  | [] => suspended
  | EvPopSystem (Some m) :: evs' =>
      suspended_through (suspended_after_system m suspended) evs'
  | _ :: evs' => suspended_through suspended evs'
  end.

(** No user message is popped or invoked while the flag is set. *)
Fixpoint suspension_respected (suspended : bool) (evs : list Event) : bool :=
  match evs with
  | [] => true
  | EvPopSystem (Some m) :: evs' =>
      suspension_respected (suspended_after_system m suspended) evs'
  | e :: evs' =>
      (negb (is_user_delivery e) || negb suspended)
      && suspension_respected suspended evs'
  end.

(** The events that only the drain makes: nothing is pushed and no handler
    is registered or started by [run]. *)
Definition is_drain_event (e : Event) : bool :=
  match e with
  | EvMessagePosted _ _ | EvMailboxStarted _ | EvPushSystem _ | EvPushUser _
  | EvRegisterHandlers | EvStart => false
  | _ => true
  end.

(** The steps of a mailbox's life that a spawn goes through. *)
Definition is_lifecycle_event (e : Event) : bool :=
  match e with
  | EvRegisterHandlers | EvPushSystem _ | EvPushUser _ | EvStart => true
  | _ => false
  end.

Definition lifecycle (evs : list Event) : list Event :=
  filter (fun e => is_lifecycle_event e = true) evs.

(** The owning pointers that the drain makes: one for each pop (a null one
    when the queue was empty).  Each is destroyed when the drain and the
    invoker have let go of it. *)
Fixpoint popped (evs : list Event) : list (option Message) :=
  match evs with
  | [] => []
  | EvPopSystem p :: evs' | EvPopUser p :: evs' => p :: popped evs'
  | _ :: evs' => popped evs'
  end.

(** After a [SuspendMailboxMessage] has been popped from the system queue,
    a user message is popped or invoked only after a [ResumeMailboxMessage]
    has been popped. *)
Definition no_user_delivery_while_suspended (evs : list Event) : Prop :=
  forall pre sm mid u post,
    evs = pre ++ EvPopSystem (Some sm) :: mid ++ u :: post ->
    is_SuspendMailboxMessage sm = true ->
    is_user_delivery u = true ->
    exists rm, In (EvPopSystem (Some rm)) mid /\ is_ResumeMailboxMessage rm = true.

(** The invoker bound to a mailbox satisfies [P]. *)
Definition invoker_satisfies {I : Type} (P : I -> Prop) (mb : DefaultMailbox I) : Prop :=
  exists i, invoker_ mb = Some i /\ P i.

(** The events of an operation (none when it has no result). *)
Definition events_of {S B : Type} (o : option (Result B * S * list Event))
  : list Event :=
  match o with
  | Some (_, _, evs) => evs
  | None => []
  end.


(** The mailbox that an operation leaves behind (the given one when the
    operation has no result). *)
Definition mailbox_after {I B : Type} (mb : DefaultMailbox I)
    (o : option (Result B * DefaultMailbox I * list Event)) : DefaultMailbox I :=
  match o with
  | Some (_, mb', _) => mb'
  | None => mb
  end.

(* ===================================================================== *)
(** ** Clients used in the scenarios *)
(* ===================================================================== *)

(** A call of [post_system_message] or [post_user_message]. *)
Inductive Post :=
| PostSystem (m : Message)
| PostUser (m : Message).

Section Clients.
Context {I : Type} `{!IMessageInvoker I}.

Definition post (fuel : nat) (p : Post) (mb : DefaultMailbox I) : Outcome unit :=
  match p with
  | PostSystem m => post_system_message fuel m mb
  | PostUser m => post_user_message fuel m mb
  end.

(** A caller that makes the posts one after the other and stops at the
    first exception. *)
Fixpoint post_all (fuel : nat) (posts : list Post) (mb : DefaultMailbox I)
  : Outcome unit :=
  match posts with
  | [] => Some (Returned tt, mb, [])
  | p :: posts' =>
      match post fuel p mb with
      | None => None
      | Some (Threw e, mb', evs) => Some (Threw e, mb', evs)
      | Some (Returned _, mb', evs) =>
          match post_all fuel posts' mb' with
          | None => None
          | Some (r, mb'', evs') => Some (r, mb'', evs ++ evs')
          end
      end
  end.
End Clients.

(** An actor in the manner of [HelloActor] of the example: it keeps what it
    was sent.  A user message of class ["Fail"] makes it throw a
    [std::runtime_error], one of class ["ThrowInt"] makes it [throw 42;]. *)
Definition Recorder := list Message.

Definition Recorder_receive (slot : option Message) (seen : Recorder)
  : Result unit * Recorder :=
  match slot with
  | None => (Returned tt, seen)
  | Some m =>
      match class_of m with
      | UserMessage "Fail" what => (Threw (std_exception what), seen ++ [m])
      | UserMessage "ThrowInt" what => (Threw (non_std_throw what), seen ++ [m])
      | _ => (Returned tt, seen ++ [m])
      end
  end.

Global Instance Recorder_actor : IActor Recorder := {
  receive := Recorder_receive;
}.

(** A user message on which a [Recorder] throws a [std::runtime_error]. *)
Definition new_Fail : Message :=
  {| class_of := UserMessage "Fail" "failed"; do_not_delete_ := false |}.

(** A user message on which a [Recorder] throws an [int]. *)
Definition new_ThrowInt : Message :=
  {| class_of := UserMessage "ThrowInt" "42"; do_not_delete_ := false |}.

(** A user message that carries a number. *)
Definition numbered (n : nat) : Message :=
  {| class_of := UserMessage "Number" (pretty n); do_not_delete_ := false |}.

(** A producer in the manner of [[]() { return std::make_unique<HelloActor>(); }]
    of the example. *)
Definition Recorder_producer : Producer Recorder := fun _ => Returned [].

(** A dispatcher that runs inline, with throughput 3. *)
Definition dispatcher3 : IDispatcher := {| throughput := 3 |}.

(** A mailbox made by [UnboundedMailbox::create(stats...)] and bound to a
    new context for a [Recorder] and to a dispatcher. *)
Definition recorder_mailbox (stats : list nat) (dispatcher : IDispatcher)
  : DefaultMailbox (LocalContext Recorder) :=
  fst (register_handlers (LocalContext_incarnated Recorder_producer None []) dispatcher
         (UnboundedMailbox_create stats)).


(** An idle mailbox on [dispatcher3] with the user messages 0..9 queued. *)
Definition ten_queued : DefaultMailbox (LocalContext Recorder) :=
  set_user_mailbox (map numbered (seq 0 10)) (recorder_mailbox [] dispatcher3).

(** A mailbox on [dispatcher3] that has been sent a [SuspendMailboxMessage]
    and has handled it. *)
Definition suspended_mailbox : DefaultMailbox (LocalContext Recorder) :=
  mailbox_after (recorder_mailbox [] dispatcher3)
    (post_system_message 2 new_SuspendMailboxMessage (recorder_mailbox [] dispatcher3)).

(** [Actor::from_producer] with a producer of [Recorder]s, as [main] of the
    example does with [HelloActor]. *)
Definition recorder_props : Props Recorder :=
  Actor_from_producer Recorder_producer.

(** The system that an operation leaves behind (the initial one when the
    operation has no result). *)
Definition system_after {B : Type} (o : option (Result B * System Recorder * list Event))
  : System Recorder :=
  match o with
  | Some (_, sys, _) => sys
  | None => System_initial
  end.

(** A program that spawns an actor named ["a"], sends it a first message
    (which makes the PID cache its process), stops its process through the
    registry, and sends a second message.  The result is the PID before the
    second [tell], what [ref()] and the registry then resolve it to, the
    events of the second [tell], and what the actor has received. *)
Definition tell_after_stop
  : option (PID * option ProcessPtr * ProcessPtr * option Process
            * list Event * list Message) :=
  match Actor_spawn_named 2 recorder_props "a" System_initial with
  | Some (Returned pid, sys1, _) =>
      match PID_tell 2 (new_Hello "first") pid sys1 with
      | Some (Returned _, pid1, sys2, _) =>
          match Process_stop 2 (ProcessRegistry_get (registry sys2) pid1) sys2 with
          | Some (Returned _, sys3, _) =>
              match PID_ref pid1 sys3, PID_tell 2 (new_Hello "second") pid1 sys3 with
              | Some (p, pid2), Some (Returned _, _, sys4, evs) =>
                  let reff := ProcessRegistry_get (registry sys3) pid2 in
                  Some (pid1, p, reff, deref sys3 reff, evs,
                        match mailboxes sys4 !! 0%nat with
                        | Some mb => match invoker_ mb with
                                     | Some ctx => actor_ ctx
                                     | None => []
                                     end
                        | None => []
                        end)
              | _, _ => None
              end
          | _ => None
          end
      | _ => None
      end
  | _ => None
  end.

(* ===================================================================== *)
(** ** mailbox.hpp: the destructor of UnboundedMailboxQueue *)
(* ===================================================================== *)

(** [~UnboundedMailboxQueue() { while (!messages_.empty()) { pop(); } }]:
    each pass pops the oldest message into a temporary [Message::UPtr],
    which is destroyed at the end of the statement.  [destroyed] is the
    list of the [Deleter], newest first. *)
Fixpoint UnboundedMailboxQueue_dtor (q : UnboundedMailboxQueue)
    (destroyed : list Message) : list Message :=
  match q with
  | [] => destroyed
  | m :: q' => UnboundedMailboxQueue_dtor q' (Deleter (Some m) destroyed)
  end.

(** The messages that the [Deleter] destroys. *)
Definition deletable (m : Message) : bool := negb (do_not_delete_ m).

(* ===================================================================== *)
(** ** protoactor.hpp: PID, next_id and Actor::spawn *)
(* ===================================================================== *)

(** [PID(address, id)]: [process_] starts as [nullptr]. *)
Definition PID_ctor (address id : string) : PID :=
  {| pid_address_ := address; pid_id_ := id; process_ := None |}.

(** An [int]: the value of [z] in 32-bit two's complement. *)
Definition wrap_int (z : Z) : Z :=
  (z + 2147483648) mod 4294967296 - 2147483648.

(** [std::string next_id()]: [int id = ++sequence_id_;
    return '$' + std::to_string(id);] on the [std::atomic_int], whose
    increment wraps around. *)
Definition ProcessRegistry_next_id (reg : ProcessRegistry) : string * ProcessRegistry :=
  let id := wrap_int (sequence_id_ reg + 1) in
  ("$" +:+ pretty id,
   {| address_ := address_ reg; local_actor_refs_ := local_actor_refs_ reg;
      sequence_id_ := id |}).

Section SpawnOps.
Context {A : Type} `{!IActor A}.

(** [Actor::spawn(props)]: [spawn_named(props, next_id())]. *)
Definition Actor_spawn (fuel : nat) (props : Props A) (sys : System A)
  : SysOutcome PID :=
  let '(name, reg) := ProcessRegistry_next_id (registry sys) in
  Actor_spawn_named fuel props name (set_registry reg sys).

(** A caller that sends the messages one after the other through the same
    PID and stops at the first exception. *)
Fixpoint tell_all (fuel : nat) (messages : list Message) (pid : PID) (sys : System A)
  : option (Result unit * PID * System A * list Event) :=
  match messages with
  | [] => Some (Returned tt, pid, sys, [])
  | m :: messages' =>
      match PID_tell fuel m pid sys with
      | None => None
      | Some (Threw e, pid', sys', evs) => Some (Threw e, pid', sys', evs)
      | Some (Returned _, pid', sys', evs) =>
          match tell_all fuel messages' pid' sys' with
          | None => None
          | Some (r, pid'', sys'', evs') => Some (r, pid'', sys'', evs ++ evs')
          end
      end
  end.

(** Every [LocalProcess] in the registry holds a mailbox that exists, and no
    two of them hold the same mailbox. *)
Definition mailboxes_owned (sys : System A) : Prop :=
  (forall key addr dead,
      local_actor_refs_ (registry sys) !! key = Some (LocalProcess addr dead) ->
      (addr < length (mailboxes sys))%nat)
  /\ (forall key1 key2 addr dead1 dead2,
        local_actor_refs_ (registry sys) !! key1 = Some (LocalProcess addr dead1) ->
        local_actor_refs_ (registry sys) !! key2 = Some (LocalProcess addr dead2) ->
        key1 = key2).

End SpawnOps.

(** From [sys] to [sys'] no mailbox has gone, and every registered process
    is still registered under its name, with its mailbox; a process that was
    dead is still dead. *)
Definition processes_kept {A : Type} (sys sys' : System A) : Prop :=
  (length (mailboxes sys) <= length (mailboxes sys'))%nat
  /\ forall key,
       match local_actor_refs_ (registry sys) !! key with
       | None => True
       | Some DeadLetterProcess =>
           local_actor_refs_ (registry sys') !! key = Some DeadLetterProcess
       | Some (LocalProcess addr dead) =>
           exists dead',
             local_actor_refs_ (registry sys') !! key = Some (LocalProcess addr dead')
             /\ (dead = true -> dead' = true)
       end.

(** No process is registered under a name that [next_id] has yet to
    generate: the counter is not negative, and a registered name ["$k"] has
    [0 < k <= sequence_id_]. *)
Definition generated_ids_fresh (reg : ProcessRegistry) : Prop :=
  0 <= sequence_id_ reg
  /\ forall k, is_Some (local_actor_refs_ reg !! ("$" +:+ pretty k)) ->
               0 < k <= sequence_id_ reg.

(* ===================================================================== *)
(** ** Reading event lists: queues, the flag and the invoker *)
(* ===================================================================== *)

(** The messages pushed to the system queue, in order. *)
Fixpoint pushed_system (evs : list Event) : list Message :=
  match evs with
  | [] => []
  | EvPushSystem m :: evs' => m :: pushed_system evs'
  | _ :: evs' => pushed_system evs'
  end.

(** The messages pushed to the user queue, in order. *)
Fixpoint pushed_user (evs : list Event) : list Message :=
  match evs with
  | [] => []
  | EvPushUser m :: evs' => m :: pushed_user evs'
  | _ :: evs' => pushed_user evs'
  end.

(** The system messages, and the user messages, that a list of posts asks to
    deliver. *)
Definition system_posts (posts : list Post) : list Message :=
  flat_map (fun p => match p with PostSystem m => [m] | PostUser _ => [] end) posts.
Definition user_posts (posts : list Post) : list Message :=
  flat_map (fun p => match p with PostUser m => [m] | PostSystem _ => [] end) posts.

(** The mailbox with the message of a post in its queue, before [schedule]
    is called. *)
Definition enqueue {I : Type} (p : Post) (mb : DefaultMailbox I) : DefaultMailbox I :=
  match p with
  | PostSystem m => set_system_messages (push m (system_messages_ mb)) mb
  | PostUser m => set_user_mailbox (push m (user_mailbox_ mb)) mb
  end.

(** [suspended_] after the drain has popped the system messages [ms]. *)
Definition suspended_after_all (ms : list Message) (suspended : bool) : bool :=
  fold_left (fun b m => suspended_after_system m b) ms suspended.

(** What the events [evs] of a drain say about the queues and the flag, from
    the mailbox [mb] to the mailbox [mb']: the invoked messages have left the
    heads of the two queues, the flag follows the system messages, and the
    user messages were invoked after the system messages, with the system
    queue empty and the mailbox not suspended. *)
Definition drains {I : Type} (mb : DefaultMailbox I) (evs : list Event)
    (mb' : DefaultMailbox I) : Prop :=
  system_messages_ mb = invoked_system evs ++ system_messages_ mb'
  /\ user_mailbox_ mb = invoked_user evs ++ user_mailbox_ mb'
  /\ suspended_ mb' = suspended_after_all (invoked_system evs) (suspended_ mb)
  /\ invoked evs = invoked_system evs ++ invoked_user evs
  /\ (invoked_user evs <> [] -> system_messages_ mb' = [] /\ suspended_ mb' = false).

(** A mailbox at rest: idle, with empty queues and not suspended. *)
Definition settled {I : Type} (mb : DefaultMailbox I) : Prop :=
  status_ mb = Idle /\ system_messages_ mb = [] /\ user_mailbox_ mb = []
  /\ suspended_ mb = false.

(** The invoker after the calls that the events record. *)
Definition replay_event {I : Type} `{!IMessageInvoker I} (i : I) (e : Event) : I :=
  match e with
  | EvInvokeSystem m => snd (invoke_system_message m i)
  | EvInvokeUser m => snd (invoke_user_message m i)
  | EvEscalateFailure reason m => escalate_failure reason m i
  | _ => i
  end.

Definition replay {I : Type} `{!IMessageInvoker I} (evs : list Event) (i : I) : I :=
  fold_left replay_event evs i.

(** The messages with which a [LocalContext] calls [receive]: the user
    messages it is handed, and the [StartedMessage]s among the system
    messages. *)
Fixpoint received_by_actor (evs : list Event) : list Message :=
  match evs with
  | [] => []
  | EvInvokeUser m :: evs' => m :: received_by_actor evs'
  | EvInvokeSystem m :: evs' =>
      if is_StartedMessage m then m :: received_by_actor evs'
      else received_by_actor evs'
  | _ :: evs' => received_by_actor evs'
  end.

(** The actor after [receive] has been called with each of the messages. *)
Definition receive_all {A : Type} `{!IActor A} (messages : list Message) (actor : A) : A :=
  fold_left (fun a m => snd (receive (Some m) a)) messages actor.

(** The exception that a call threw, if it threw. *)
Definition thrown {B : Type} (r : Result B) : option Exception :=
  match r with
  | Threw e => Some e
  | Returned _ => None
  end.

(** The exception that [catch (const std::exception &e)] lets through, if
    the call threw one: a thrown object that is not a [std::exception]. *)
Definition uncaught {B : Type} (r : Result B) : option Exception :=
  match r with
  | Threw e => if is_std_exception e then None else Some e
  | Returned _ => None
  end.

(** How a pass through the loop body goes on after the call of the
    invoker: at the end of the body when the call returned, out of the
    [try] block when it threw. *)
Definition exit_after (r : Result unit) : LoopExit :=
  match r with
  | Returned _ => Continue
  | Threw e => Unwind e
  end.

(** The result of the call that an event records, made on the invoker [i]. *)
Definition call_of_event {I : Type} `{!IMessageInvoker I} (i : I) (e : Event)
  : Result unit :=
  match e with
  | EvInvokeSystem m => fst (invoke_system_message m i)
  | EvInvokeUser m => fst (invoke_user_message m i)
  | _ => Returned tt
  end.

(** The exception that leaves the drain when the invoker [i] is called as
    the events record: the first that a call throws and that the handler
    of [process_messages] does not catch. *)
Fixpoint escaping {I : Type} `{!IMessageInvoker I} (i : I) (evs : list Event)
  : option Exception :=
  match evs with
  | [] => None
  | e :: evs' =>
      match uncaught (call_of_event i e) with
      | Some x => Some x
      | None => escaping (replay_event i e) evs'
      end
  end.

(** Handing messages to an actor one after the other, as long as [receive]
    throws nothing but [std::exception]s: the messages that the actor is
    handed, the last of them being the first on which it throws something
    else, if there is one. *)
Fixpoint delivered_to {A : Type} `{!IActor A} (messages : list Message) (actor : A)
  : list Message :=
  match messages with
  | [] => []
  | m :: messages' =>
      match uncaught (fst (receive (Some m) actor)) with
      | Some _ => [m]
      | None => m :: delivered_to messages' (snd (receive (Some m) actor))
      end
  end.

(** What the actor throws on that message. *)
Fixpoint escape_of {A : Type} `{!IActor A} (messages : list Message) (actor : A)
  : option Exception :=
  match messages with
  | [] => None
  | m :: messages' =>
      match uncaught (fst (receive (Some m) actor)) with
      | Some e => Some e
      | None => escape_of messages' (snd (receive (Some m) actor))
      end
  end.

(** The events that [process_messages] makes. *)
Definition is_pass_event (e : Event) : bool :=
  match e with
  | EvPopSystem _ | EvPopUser _ | EvInvokeSystem _ | EvInvokeUser _
  | EvThrow _ | EvEscalateFailure _ _ | EvMessageReceived _ _ => true
  | _ => false
  end.

(** The [mailbox_empty] notifications, by observer. *)
Fixpoint mailbox_empty_calls (evs : list Event) : list nat :=
  match evs with
  | [] => []
  | EvMailboxEmpty stat :: evs' => stat :: mailbox_empty_calls evs'
  | _ :: evs' => mailbox_empty_calls evs'
  end.

(** The [message_received] notifications, in order: the observer and the
    message. *)
Fixpoint message_received_calls (evs : list Event) : list (nat * Message) :=
  match evs with
  | [] => []
  | EvMessageReceived stat m :: evs' => (stat, m) :: message_received_calls evs'
  | _ :: evs' => message_received_calls evs'
  end.

(** The messages whose invocation returned, in order.  The events of an
    invocation that throws are the invocation and then the throw. *)
Fixpoint completed (evs : list Event) : list Message :=
  match evs with
  | [] => []
  | EvInvokeSystem m :: evs' | EvInvokeUser m :: evs' =>
      match evs' with
      | EvThrow _ :: _ => completed evs'
      | _ => m :: completed evs'
      end
  | _ :: evs' => completed evs'
  end.

Definition starts_with_throw (evs : list Event) : bool :=
  match evs with EvThrow _ :: _ => true | _ => false end.

(** One notification of each of the observers for each of the messages. *)
Definition notifications (stats : list nat) (messages : list Message)
  : list (nat * Message) :=
  flat_map (fun m => map (fun stat => (stat, m)) stats) messages.

(** The events have the shape of those of the drain, and the notifications
    of [message_received] among them are those of the completed
    invocations. *)
Definition receipts_follow (stats : list nat) (evs : list Event) : Prop :=
  starts_with_throw evs = false
  /\ message_received_calls evs = notifications stats (completed evs).

(* ===================================================================== *)
(** ** examples/hello_world/main.cpp *)
(* ===================================================================== *)

(** [HelloActor]: the state is what it has written to [std::cout], a line
    for each [std::endl].  [dynamic_cast<Hello *>] succeeds on a [Hello]. *)
Definition HelloActor := list string.

Definition HelloActor_receive (slot : option Message) (out : HelloActor)
  : Result unit * HelloActor :=
  match slot with
  | Some {| class_of := UserMessage "Hello" who |} =>
      (Returned tt, out ++ ["Hello " +:+ who])
  | _ => (Returned tt, out)
  end.

Global Instance HelloActor_actor : IActor HelloActor := {
  receive := HelloActor_receive;
}.

(** The producer that [main] gives to [Actor::from_producer]:
    [[]() { return std::make_unique<HelloActor>(); }]. *)
Definition HelloActor_producer : Producer HelloActor := fun _ => Returned [].

(** What the actor spawned by a program has written: the state of the actor
    behind the first mailbox. *)
Definition written (sys : System HelloActor) : list string :=
  match mailboxes sys !! 0%nat with
  | Some mb => match invoker_ mb with
               | Some ctx => actor_ ctx
               | None => []
               end
  | None => []
  end.

(** [main], up to [std::cin.get()].  An exception that leaves [spawn] or
    [tell] leaves [main]. *)
Definition main (fuel : nat) : option (Result unit * System HelloActor) :=
  let props := Actor_from_producer HelloActor_producer in
  match Actor_spawn fuel props System_initial with
  | None => None
  | Some (Threw e, sys, _) => Some (Threw e, sys)
  | Some (Returned pid, sys, _) =>
      match PID_tell fuel (new_Hello "ProtoActor") pid sys with
      | None => None
      | Some (r, _, sys', _) => Some (r, sys')
      end
  end.

(* ===================================================================== *)
(** ** More scenarios *)
(* ===================================================================== *)

(** A dispatcher whose [throughput()] is zero. *)
Definition dispatcher0 : IDispatcher := {| throughput := 0 |}.

(** A busy mailbox on [dispatcher3] with a suspend and a resume on the
    system queue and two user messages queued. *)
Definition mixed_queued : DefaultMailbox (LocalContext Recorder) :=
  set_status Busy
    (set_system_messages [new_SuspendMailboxMessage; new_ResumeMailboxMessage]
       (set_user_mailbox [new_Hello "a"; new_Hello "b"]
          (recorder_mailbox [] dispatcher3))).

(** A busy, suspended mailbox with two observers and a user message
    queued. *)
Definition observed_suspended : DefaultMailbox (LocalContext Recorder) :=
  set_status Busy
    (set_suspended true
       (set_user_mailbox [new_Hello "a"] (recorder_mailbox [7; 8]%nat dispatcher3))).

(** Posts to a new mailbox with two observers: [Started], a message on
    which the actor throws, a suspend, and a user message that is held
    back. *)
Definition some_posts : list Post :=
  [PostSystem StartedMessage_instance; PostUser new_Fail;
   PostSystem new_SuspendMailboxMessage; PostUser (new_Hello "a")].

(** The system of a program that has spawned a [HelloActor] named ["a"]. *)
Definition hello_system : System HelloActor :=
  match Actor_spawn_named 2 (Actor_from_producer HelloActor_producer) "a"
          System_initial with
  | Some (_, sys, _) => sys
  | None => System_initial
  end.

(* ===================================================================== *)
(** ** Lemmas on event lists *)
(* ===================================================================== *)

Lemma invoked_app a b : invoked (a ++ b) = invoked a ++ invoked b.
Proof.
  induction a as [|e a IH]; [reflexivity|].
  destruct e; simpl; rewrite ?IH; reflexivity.
Qed.

Lemma invoked_user_app a b : invoked_user (a ++ b) = invoked_user a ++ invoked_user b.
Proof.
  induction a as [|e a IH]; [reflexivity|].
  destruct e; simpl; rewrite ?IH; reflexivity.
Qed.

Lemma invoked_system_app a b :
  invoked_system (a ++ b) = invoked_system a ++ invoked_system b.
Proof.
  induction a as [|e a IH]; [reflexivity|].
  destruct e; simpl; rewrite ?IH; reflexivity.
Qed.

Lemma invoked_map_stat (f : nat -> Event) stats :
  (forall s, is_invoke (f s) = false) -> invoked (map f stats) = [].
Proof.
  intros Hf. induction stats as [|s stats IH]; [reflexivity|].
  simpl. specialize (Hf s). destruct (f s); simpl in *; try discriminate; exact IH.
Qed.

Lemma invoked_user_map_stat (f : nat -> Event) stats :
  (forall s, is_invoke (f s) = false) -> invoked_user (map f stats) = [].
Proof.
  intros Hf. induction stats as [|s stats IH]; [reflexivity|].
  simpl. specialize (Hf s). destruct (f s); simpl in *; try discriminate; exact IH.
Qed.

Lemma invoked_system_map_stat (f : nat -> Event) stats :
  (forall s, is_invoke (f s) = false) -> invoked_system (map f stats) = [].
Proof.
  intros Hf. induction stats as [|s stats IH]; [reflexivity|].
  simpl. specialize (Hf s). destruct (f s); simpl in *; try discriminate; exact IH.
Qed.

Lemma split_runs_no_run a b :
  forallb (fun e => negb (is_run e)) a = true ->
  split_runs (a ++ b) = (a ++ fst (split_runs b), snd (split_runs b)).
Proof.
  induction a as [|e a IH]; simpl; intros Ha.
  - destruct (split_runs b); reflexivity.
  - apply andb_prop in Ha as [He Ha]. rewrite (IH Ha).
    destruct (is_run e); [discriminate|reflexivity].
Qed.

Lemma runs_no_run a :
  forallb (fun e => negb (is_run e)) a = true -> split_runs a = (a, []).
Proof.
  intros Ha. rewrite <- (app_nil_r a) at 1.
  rewrite (split_runs_no_run a [] Ha). simpl. rewrite app_nil_r. reflexivity.
Qed.

Lemma suspended_through_app s a b :
  suspended_through s (a ++ b) = suspended_through (suspended_through s a) b.
Proof.
  revert s. induction a as [|e a IH]; intros s; [reflexivity|].
  destruct e as [| | | | | |[m|]| | | | | | | | | |]; simpl; apply IH.
Qed.

Lemma suspension_respected_app s a b :
  suspension_respected s (a ++ b)
  = suspension_respected s a && suspension_respected (suspended_through s a) b.
Proof.
  revert s. induction a as [|e a IH]; intros s; [reflexivity|].
  destruct e as [| | | | | |[m|]| | | | | | | | | |]; simpl;
    rewrite IH, ?andb_assoc; reflexivity.
Qed.

Lemma suspension_respected_map_stat s (f : nat -> Event) stats :
  (forall x, is_user_delivery (f x) = false) ->
  (forall x r, f x <> EvPopSystem r) ->
  suspension_respected s (map f stats) = true
  /\ suspended_through s (map f stats) = s.
Proof.
  intros Hu Hp. induction stats as [|x stats [IH1 IH2]]; [split; reflexivity|].
  simpl. specialize (Hu x). specialize (Hp x).
  destruct (f x) as [| | | | | |r| | | | | | | | | |]; simpl in *;
    try discriminate; try (split; [exact IH1|exact IH2]).
  exfalso. exact (Hp r eq_refl).
Qed.

(* ===================================================================== *)
(** ** The drain loop *)
(* ===================================================================== *)

(** Case analysis of an [iteration] that has a result. *)
Ltac iteration_cases H :=
  unfold iteration in H;
  match type of H with
  | context [pop (system_messages_ ?mb)] =>
      let Hsys := fresh "Hsys" in
      destruct (system_messages_ mb) as [|?m ?q] eqn:Hsys; simpl in H;
      [ let Hsusp := fresh "Hsusp" in
        destruct (suspended_ mb) eqn:Hsusp;
        [ | let Husr := fresh "Husr" in
            destruct (user_mailbox_ mb) as [|?m ?q] eqn:Husr; simpl in H;
            [ | let Hinv := fresh "Hinv" in
                destruct (invoker_ mb) as [?inv|] eqn:Hinv; [|discriminate H];
                let Hcall := fresh "Hcall" in
                destruct (invoke_user_message _ _) as [[[]|?e] ?inv'] eqn:Hcall ] ]
      | let Hinv := fresh "Hinv" in
        destruct (invoker_ mb) as [?inv|] eqn:Hinv; [|discriminate H];
        let Hcall := fresh "Hcall" in
        destruct (invoke_system_message _ _) as [[[]|?e] ?inv'] eqn:Hcall ]
  end;
  inversion H; subst; clear H.

(** One pass of [for_loop] that has a result. *)
Ltac for_loop_step H :=
  simpl in H;
  let Hit := fresh "Hit" in
  destruct (iteration _) as [[[[[| |?e] ?message'] ?mb1] ?evs1]|] eqn:Hit;
  [ let Hrec := fresh "Hrec" in
    destruct (for_loop _ _ _) as [[[[?r' ?message''] ?mb2] ?evs2]|] eqn:Hrec;
    [|discriminate H]
  | | | discriminate H ];
  inversion H; subst; clear H.

(** Case analysis of a [process_messages] that has a result. *)
Ltac pm_cases H :=
  unfold process_messages in H;
  let Hd := fresh "Hd" in
  destruct (dispatcher_ _) as [?d|] eqn:Hd; [|discriminate H];
  let Hloop := fresh "Hloop" in
  destruct (for_loop _ _ _) as [[[[[?e|] ?message'] ?mb1] ?evs1]|] eqn:Hloop;
  [ let Hstd := fresh "Hstd" in
    destruct (is_std_exception _) eqn:Hstd;
    [ let Hinv := fresh "Hinv" in
      destruct (invoker_ _) as [?inv|] eqn:Hinv; [|discriminate H] | ]
  | | discriminate H ];
  inversion H; subst; clear H.

Section MailboxFacts.
Context {I : Type} `{!IMessageInvoker I}.
Implicit Types (mb : DefaultMailbox I) (evs : list Event).


Lemma map_stat_no_run (f : nat -> Event) stats :
  (forall s, is_run (f s) = false) ->
  forallb (fun e => negb (is_run e)) (map f stats) = true.
Proof.
  intros Hf. induction stats as [|s stats IH]; [reflexivity|].
  simpl. rewrite Hf, IH. reflexivity.
Qed.

Lemma iteration_frame mb x message mb' evs :
  iteration mb = Some (x, message, mb', evs) ->
  dispatcher_ mb' = dispatcher_ mb /\ stats_ mb' = stats_ mb
  /\ status_ mb' = status_ mb
  /\ (is_Some (invoker_ mb) -> is_Some (invoker_ mb'))
  /\ forallb (fun e => negb (is_run e)) evs = true.
Proof.
  intros H. iteration_cases H; simpl; repeat split; eauto;
    try (apply map_stat_no_run; reflexivity).
Qed.

Lemma iteration_invoked mb x message mb' evs :
  iteration mb = Some (x, message, mb', evs) ->
  (length (invoked evs) <= 1)%nat
  /\ system_messages_ mb = invoked_system evs ++ system_messages_ mb'
  /\ user_mailbox_ mb = invoked_user evs ++ user_mailbox_ mb'.
Proof.
  intros H. iteration_cases H; simpl;
    rewrite ?invoked_map_stat, ?invoked_system_map_stat, ?invoked_user_map_stat
      by reflexivity; simpl; auto.
Qed.

Lemma iteration_suspension mb x message mb' evs :
  iteration mb = Some (x, message, mb', evs) ->
  suspension_respected (suspended_ mb) evs = true
  /\ suspended_through (suspended_ mb) evs = suspended_ mb'.
Proof.
  intros H. iteration_cases H; simpl; rewrite ?Hsusp; simpl; auto;
    apply suspension_respected_map_stat; intros; (reflexivity || discriminate).
Qed.

(** A pass that ends by [break] consumed nothing and leaves nothing that
    can be delivered; any other pass consumed one message. *)
Lemma iteration_progress mb x message mb' evs :
  iteration mb = Some (x, message, mb', evs) ->
  match x with
  | Break =>
      system_messages_ mb' = system_messages_ mb
      /\ user_mailbox_ mb' = user_mailbox_ mb
      /\ suspended_ mb' = suspended_ mb
      /\ work_pending mb' = false
  | _ =>
      (length (system_messages_ mb') + length (user_mailbox_ mb') + 1
       = length (system_messages_ mb) + length (user_mailbox_ mb))%nat
  end.
Proof.
  intros H. iteration_cases H; simpl; unfold work_pending; simpl;
    rewrite ?Hsys, ?Husr, ?Hsusp; simpl; auto; lia.
Qed.

(** What the local [message] holds when an exception leaves the body: the
    message that was being invoked. *)
Lemma iteration_unwind mb e message mb' evs :
  iteration mb = Some (Unwind e, message, mb', evs) ->
  exists m pre,
    message = Some m
    /\ (evs = pre ++ [EvInvokeSystem m; EvThrow e]
        \/ evs = pre ++ [EvInvokeUser m; EvThrow e])
    /\ forallb quiet pre = true.
Proof.
  intros H. iteration_cases H.
  - exists m, [EvPopSystem None; EvPopUser (Some m)]. auto.
  - exists m, [EvPopSystem (Some m)]. auto.
Qed.

Lemma iteration_no_throw mb x message mb' evs :
  iteration mb = Some (x, message, mb', evs) ->
  match x with Unwind _ => True | _ => forallb quiet evs = true end.
Proof.
  intros H. iteration_cases H; simpl; auto;
    induction (stats_ mb); simpl; auto.
Qed.


Lemma for_loop_frame n message mb r message' mb' evs :
  for_loop n message mb = Some (r, message', mb', evs) ->
  dispatcher_ mb' = dispatcher_ mb /\ stats_ mb' = stats_ mb
  /\ status_ mb' = status_ mb
  /\ (is_Some (invoker_ mb) -> is_Some (invoker_ mb'))
  /\ forallb (fun e => negb (is_run e)) evs = true.
Proof.
  revert message mb r message' mb' evs.
  induction n as [|n IH]; intros message mb r message' mb' evs H.
  - inversion H; subst. auto.
  - for_loop_step H.
    + apply IH in Hrec as (-> & -> & -> & Hi' & Hr').
      apply iteration_frame in Hit as (-> & -> & -> & Hi & Hr).
      rewrite forallb_app, Hr, Hr'. repeat split; auto.
    + apply iteration_frame in Hit. exact Hit.
    + apply iteration_frame in Hit. exact Hit.
Qed.

Lemma for_loop_invoked n message mb r message' mb' evs :
  for_loop n message mb = Some (r, message', mb', evs) ->
  (length (invoked evs) <= n)%nat
  /\ system_messages_ mb = invoked_system evs ++ system_messages_ mb'
  /\ user_mailbox_ mb = invoked_user evs ++ user_mailbox_ mb'.
Proof.
  revert message mb r message' mb' evs.
  induction n as [|n IH]; intros message mb r message' mb' evs H.
  - inversion H; subst. simpl. auto.
  - for_loop_step H.
    + apply iteration_invoked in Hit as (Hl & -> & ->).
      apply IH in Hrec as (Hl' & -> & ->).
      rewrite invoked_app, invoked_system_app, invoked_user_app, length_app,
        <- !app_assoc.
      split; [lia|auto].
    + apply iteration_invoked in Hit as (Hl & -> & ->). split; [lia|auto].
    + apply iteration_invoked in Hit as (Hl & -> & ->). split; [lia|auto].
Qed.

Lemma for_loop_suspension n message mb r message' mb' evs :
  for_loop n message mb = Some (r, message', mb', evs) ->
  suspension_respected (suspended_ mb) evs = true
  /\ suspended_through (suspended_ mb) evs = suspended_ mb'.
Proof.
  revert message mb r message' mb' evs.
  induction n as [|n IH]; intros message mb r message' mb' evs H.
  - inversion H; subst. simpl. auto.
  - for_loop_step H.
    + apply iteration_suspension in Hit as (Hr & Ht).
      apply IH in Hrec as (Hr' & Ht').
      rewrite suspension_respected_app, suspended_through_app, Hr, Ht, Hr', Ht'.
      auto.
    + apply iteration_suspension in Hit. exact Hit.
    + apply iteration_suspension in Hit. exact Hit.
Qed.

(** With at least one pass allowed, the loop either consumes a message or
    finds nothing that can be delivered. *)
Lemma for_loop_progress n message mb r message' mb' evs :
  for_loop n message mb = Some (r, message', mb', evs) ->
  (length (system_messages_ mb') + length (user_mailbox_ mb')
   <= length (system_messages_ mb) + length (user_mailbox_ mb))%nat
  /\ ((0 < n)%nat ->
      (length (system_messages_ mb') + length (user_mailbox_ mb')
       < length (system_messages_ mb) + length (user_mailbox_ mb))%nat
      \/ work_pending mb' = false).
Proof.
  revert message mb r message' mb' evs.
  induction n as [|n IH]; intros message mb r message' mb' evs H.
  - inversion H; subst. split; [lia|intros; lia].
  - for_loop_step H.
    + apply iteration_progress in Hit. simpl in Hit.
      apply IH in Hrec as (Hle & _). split; [lia|intros _; left; lia].
    + apply iteration_progress in Hit as (-> & -> & _ & Hw).
      split; [lia|intros _; right; exact Hw].
    + apply iteration_progress in Hit. simpl in Hit.
      split; [lia|intros _; left; lia].
Qed.

(** An exception leaves the loop from an invoker call, with the invoked
    message in [message]; otherwise no invoker call threw. *)
Lemma for_loop_throw n message mb r message' mb' evs :
  for_loop n message mb = Some (r, message', mb', evs) ->
  match r with
  | Some e =>
      exists m pre,
        message' = Some m
        /\ (evs = pre ++ [EvInvokeSystem m; EvThrow e]
            \/ evs = pre ++ [EvInvokeUser m; EvThrow e])
        /\ forallb quiet pre = true
  | None => forallb quiet evs = true
  end.
Proof.
  revert message mb r message' mb' evs.
  induction n as [|n IH]; intros message mb r message' mb' evs H.
  - inversion H; subst. reflexivity.
  - for_loop_step H.
    + apply iteration_no_throw in Hit. simpl in Hit.
      apply IH in Hrec. destruct r as [e|].
      * destruct Hrec as (m & pre & -> & Hev & Hq).
        exists m, (evs1 ++ pre). split; [reflexivity|].
        split; [destruct Hev as [-> | ->]; [left|right]; apply app_assoc|].
        rewrite forallb_app, Hit, Hq. reflexivity.
      * rewrite forallb_app, Hit, Hrec. reflexivity.
    + apply iteration_no_throw in Hit. exact Hit.
    + apply iteration_unwind in Hit as (m & pre & -> & Hev & Hq).
      exists m, pre. auto.
Qed.

(** *** [process_messages] *)


Lemma process_messages_done mb (done : bool) mb' evs :
  process_messages mb = Some (Returned done, mb', evs) -> done = true.
Proof. intros H. pm_cases H; reflexivity. Qed.

Lemma process_messages_frame mb r mb' evs :
  process_messages mb = Some (r, mb', evs) ->
  dispatcher_ mb' = dispatcher_ mb /\ stats_ mb' = stats_ mb
  /\ status_ mb' = status_ mb
  /\ (is_Some (invoker_ mb) -> is_Some (invoker_ mb'))
  /\ forallb (fun e => negb (is_run e)) evs = true.
Proof.
  intros H. pm_cases H; apply for_loop_frame in Hloop as (? & ? & ? & ? & Hr);
    simpl; repeat split; eauto; try congruence.
  rewrite forallb_app, Hr. reflexivity.
Qed.

Lemma process_messages_invoked mb d r mb' evs :
  dispatcher_ mb = Some d ->
  process_messages mb = Some (r, mb', evs) ->
  (length (invoked evs) <= Z.to_nat (throughput d))%nat
  /\ system_messages_ mb = invoked_system evs ++ system_messages_ mb'
  /\ user_mailbox_ mb = invoked_user evs ++ user_mailbox_ mb'.
Proof.
  intros Hdisp H. pm_cases H; simplify_eq;
    apply for_loop_invoked in Hloop as (Hl & Hs & Hu); simpl;
    rewrite ?invoked_app, ?invoked_system_app, ?invoked_user_app; simpl;
    rewrite ?app_nil_r; auto.
Qed.

Lemma process_messages_suspension mb r mb' evs :
  process_messages mb = Some (r, mb', evs) ->
  suspension_respected (suspended_ mb) evs = true
  /\ suspended_through (suspended_ mb) evs = suspended_ mb'.
Proof.
  intros H. pm_cases H; apply for_loop_suspension in Hloop as (Hr & Ht);
    simpl; auto.
  rewrite suspension_respected_app, suspended_through_app, Hr, Ht. auto.
Qed.

Lemma process_messages_progress mb d r mb' evs :
  dispatcher_ mb = Some d -> 0 < throughput d ->
  process_messages mb = Some (r, mb', evs) ->
  (length (system_messages_ mb') + length (user_mailbox_ mb')
   < length (system_messages_ mb) + length (user_mailbox_ mb))%nat
  \/ (work_pending mb' = false
      /\ (length (system_messages_ mb') + length (user_mailbox_ mb')
          <= length (system_messages_ mb) + length (user_mailbox_ mb))%nat).
Proof.
  intros Hdisp Hpos H. pm_cases H; simplify_eq;
    apply for_loop_progress in Hloop as (Hle & Hp);
    (destruct Hp as [Hp|Hp]; [lia|left; exact Hp|right; split; [exact Hp|exact Hle]]).
Qed.

(** The three ways a pass can go. *)
Lemma process_messages_throw mb r mb' evs :
  process_messages mb = Some (r, mb', evs) ->
  (r = Returned true /\ forallb quiet evs = true)
  \/ (exists e m pre inv,
        is_std_exception e = true /\ r = Returned true
        /\ forallb quiet pre = true
        /\ (evs = pre ++ [EvInvokeSystem m; EvThrow e; EvEscalateFailure e (Some m)]
            \/ evs = pre ++ [EvInvokeUser m; EvThrow e; EvEscalateFailure e (Some m)])
        /\ invoker_ mb' = Some (escalate_failure e (Some m) inv))
  \/ (exists e m pre,
        is_std_exception e = false /\ r = Threw e
        /\ forallb quiet pre = true
        /\ (evs = pre ++ [EvInvokeSystem m; EvThrow e]
            \/ evs = pre ++ [EvInvokeUser m; EvThrow e])).
Proof.
  intros H. pm_cases H; apply for_loop_throw in Hloop.
  - destruct Hloop as (m & pre & -> & Hev & Hq).
    right; left. exists e, m, pre, inv. repeat split; auto.
    destruct Hev as [-> | ->]; rewrite <- app_assoc; auto.
  - destruct Hloop as (m & pre & -> & Hev & Hq).
    right; right. exists e, m, pre. auto.
  - left. auto.
Qed.

(** *** [run] and [schedule] *)

Lemma work_pending_set_status st mb :
  work_pending (set_status st mb) = work_pending mb.
Proof. reflexivity. Qed.

(** [run] after its call of [process_messages]: the exception goes on, or
    the status is stored and the queues are checked again. *)
Lemma run_inv fuel mb r mb' evs :
  run fuel mb = Some (r, mb', evs) ->
  exists fuel' rp mb1 evs1,
    fuel = S fuel' /\ process_messages mb = Some (rp, mb1, evs1)
    /\ ((exists e, rp = Threw e /\ r = Threw e /\ mb' = mb1 /\ evs = EvRun :: evs1)
        \/ (rp = Returned true /\ work_pending mb1 = false
            /\ r = Returned tt /\ mb' = set_status Idle mb1
            /\ evs = EvRun :: evs1 ++ EvIdle :: map EvMailboxEmpty (stats_ mb1))
        \/ (rp = Returned true /\ work_pending mb1 = true
            /\ exists evs2,
                 run fuel' (set_status Busy mb1) = Some (r, mb', evs2)
                 /\ evs = EvRun :: evs1 ++ EvIdle :: EvSchedule true :: evs2)).
Proof.
  destruct fuel as [|fuel']; [discriminate|]. simpl. intros H.
  destruct (process_messages mb) as [[[[done|e] mb1] evs1]|] eqn:Hpm;
    [| |discriminate H].
  - pose proof (process_messages_done _ _ _ _ Hpm) as ->. simpl in H.
    exists fuel', (Returned true), mb1, evs1. split; [reflexivity|].
    split; [reflexivity|]. right.
    rewrite work_pending_set_status in H.
    destruct (work_pending mb1) eqn:Hw.
    + right. unfold schedule_with in H. simpl in H.
      destruct (dispatcher_ mb1); [|discriminate H].
      change (set_status Busy (set_status Idle mb1)) with (set_status Busy mb1) in H.
      destruct (run fuel' (set_status Busy mb1)) as [[[r2 mb2] evs2]|] eqn:Hrun;
        [|discriminate H].
      inversion H; subst. eauto 10.
    + left. inversion H; subst. auto.
  - inversion H; subst. exists fuel', (Threw e), mb', evs1.
    split; [reflexivity|]. split; [reflexivity|]. left. eauto.
Qed.

Lemma run_frame fuel mb r mb' evs :
  run fuel mb = Some (r, mb', evs) ->
  dispatcher_ mb' = dispatcher_ mb /\ stats_ mb' = stats_ mb
  /\ (is_Some (invoker_ mb) -> is_Some (invoker_ mb')).
Proof.
  revert mb r mb' evs. induction fuel as [|fuel IH]; intros mb r mb' evs H;
    [discriminate|].
  apply run_inv in H as (fuel' & rp & mb1 & evs1 & Hf & Hpm & Hcases).
  injection Hf as <-.
  apply process_messages_frame in Hpm as (Hd & Hs & _ & Hi & _).
  destruct Hcases as [(e & _ & _ & -> & _)
                     |[(_ & _ & _ & -> & _)|(_ & _ & evs2 & Hrun & _)]]; auto.
  apply IH in Hrun as (Hd' & Hs' & Hi'). simpl in *.
  rewrite Hd', Hs', Hd, Hs. auto.
Qed.

(** Every run hands at most [throughput()] messages to the invoker. *)
Lemma run_bounded fuel mb d r mb' evs :
  dispatcher_ mb = Some d ->
  run fuel mb = Some (r, mb', evs) ->
  fst (split_runs evs) = []
  /\ Forall (fun seg => (length (invoked seg) <= Z.to_nat (throughput d))%nat)
            (runs evs).
Proof.
  revert mb r mb' evs. induction fuel as [|fuel IH]; intros mb r mb' evs Hdisp H;
    [discriminate|].
  apply run_inv in H as (fuel' & rp & mb1 & evs1 & Hf & Hpm & Hcases).
  injection Hf as <-.
  pose proof (process_messages_invoked _ _ _ _ _ Hdisp Hpm) as (Hlen & _ & _).
  pose proof (process_messages_frame _ _ _ _ Hpm) as (Hd & _ & _ & _ & Hnr).
  destruct Hcases as [(e & _ & _ & -> & ->)
                     |[(_ & _ & _ & -> & ->)|(_ & _ & evs2 & Hrun & ->)]].
  - unfold runs. simpl. rewrite (runs_no_run _ Hnr). simpl.
    split; [reflexivity|]. repeat constructor. exact Hlen.
  - unfold runs. simpl. rewrite (split_runs_no_run _ _ Hnr). simpl.
    rewrite runs_no_run by (apply map_stat_no_run; reflexivity). simpl.
    split; [reflexivity|]. repeat constructor.
    rewrite invoked_app. simpl. rewrite invoked_map_stat by reflexivity.
    rewrite app_nil_r. exact Hlen.
  - assert (Hdisp' : dispatcher_ (set_status Busy mb1) = Some d)
      by (simpl; congruence).
    destruct (IH _ _ _ _ Hdisp' Hrun) as (Hpre & Hall).
    unfold runs in *. simpl. rewrite (split_runs_no_run _ _ Hnr). simpl.
    destruct (split_runs evs2) as [pre rs] eqn:Hsp. simpl in *. subst pre.
    split; [reflexivity|]. constructor; [|exact Hall].
    rewrite invoked_app. simpl. rewrite app_nil_r. exact Hlen.
Qed.

Lemma run_suspension fuel mb r mb' evs :
  run fuel mb = Some (r, mb', evs) ->
  suspension_respected (suspended_ mb) evs = true
  /\ suspended_through (suspended_ mb) evs = suspended_ mb'.
Proof.
  revert mb r mb' evs. induction fuel as [|fuel IH]; intros mb r mb' evs H;
    [discriminate|].
  apply run_inv in H as (fuel' & rp & mb1 & evs1 & Hf & Hpm & Hcases).
  injection Hf as <-.
  apply process_messages_suspension in Hpm as (Hr & Ht).
  destruct Hcases as [(e & _ & _ & -> & ->)
                     |[(_ & _ & _ & -> & ->)|(_ & _ & evs2 & Hrun & ->)]];
    simpl; rewrite ?suspension_respected_app, ?suspended_through_app, ?Hr, ?Ht;
    simpl; auto.
  - apply suspension_respected_map_stat; intros; (reflexivity || discriminate).
  - apply IH in Hrun. exact Hrun.
Qed.

(** Nothing is lost: what was queued has been invoked or is still queued. *)
Lemma run_conservation fuel mb r mb' evs :
  run fuel mb = Some (r, mb', evs) ->
  system_messages_ mb = invoked_system evs ++ system_messages_ mb'
  /\ user_mailbox_ mb = invoked_user evs ++ user_mailbox_ mb'.
Proof.
  revert mb r mb' evs. induction fuel as [|fuel IH]; intros mb r mb' evs H;
    [discriminate|].
  apply run_inv in H as (fuel' & rp & mb1 & evs1 & Hf & Hpm & Hcases).
  injection Hf as <-.
  assert (exists d, dispatcher_ mb = Some d) as (d & Hdisp).
  { unfold process_messages in Hpm. destruct (dispatcher_ mb); [eauto|discriminate]. }
  apply (process_messages_invoked _ _ _ _ _ Hdisp) in Hpm as (_ & Hs & Hu).
  destruct Hcases as [(e & _ & _ & -> & ->)
                     |[(_ & _ & _ & -> & ->)|(_ & _ & evs2 & Hrun & ->)]];
    simpl; rewrite ?invoked_system_app, ?invoked_user_app; simpl;
    rewrite ?invoked_system_map_stat, ?invoked_user_map_stat by reflexivity;
    rewrite ?app_nil_r; auto.
  apply IH in Hrun as (Hs' & Hu'). simpl in *.
  rewrite <- !app_assoc, <- Hs', <- Hu'. auto.
Qed.

(** A run that returns leaves the mailbox idle with nothing deliverable;
    a run that an exception leaves does not store the status. *)
Lemma run_final fuel mb r mb' evs :
  run fuel mb = Some (r, mb', evs) ->
  match r with
  | Returned _ => status_ mb' = Idle /\ work_pending mb' = false
  | Threw e =>
      is_std_exception e = false
      /\ (status_ mb = Busy -> status_ mb' = Busy)
      /\ exists pre, evs = pre ++ [EvThrow e]
  end.
Proof.
  revert mb r mb' evs. induction fuel as [|fuel IH]; intros mb r mb' evs H;
    [discriminate|].
  apply run_inv in H as (fuel' & rp & mb1 & evs1 & Hf & Hpm & Hcases).
  injection Hf as <-.
  destruct Hcases as [(e & -> & -> & -> & ->)
                     |[(_ & Hw & -> & -> & ->)|(_ & _ & evs2 & Hrun & ->)]].
  - pose proof (process_messages_frame _ _ _ _ Hpm) as (_ & _ & Hst & _).
    apply process_messages_throw in Hpm
      as [(Hr & _)|[(? & ? & ? & ? & _ & Hr & _)|(e' & m & pre & Hstd & Hr & _ & Hev)]];
      try discriminate.
    injection Hr as ->. split; [exact Hstd|]. split; [congruence|].
    destruct Hev as [-> | ->].
    + exists (EvRun :: pre ++ [EvInvokeSystem m]). simpl.
      rewrite <- app_assoc. reflexivity.
    + exists (EvRun :: pre ++ [EvInvokeUser m]). simpl.
      rewrite <- app_assoc. reflexivity.
  - simpl. auto.
  - apply IH in Hrun. destruct r as [[]|e]; [exact Hrun|].
    destruct Hrun as (Hstd & Hb & pre & ->). split; [exact Hstd|].
    split; [intros _; apply Hb; reflexivity|].
    exists (EvRun :: evs1 ++ EvIdle :: EvSchedule true :: pre).
    simpl. rewrite <- app_assoc. reflexivity.
Qed.

(** With a positive throughput the nesting of runs is bounded by the
    number of queued messages. *)
Lemma run_terminates fuel mb d :
  dispatcher_ mb = Some d -> 0 < throughput d -> is_Some (invoker_ mb) ->
  (length (system_messages_ mb) + length (user_mailbox_ mb) < fuel)%nat ->
  is_Some (run fuel mb).
Proof.
  revert mb. induction fuel as [|fuel IH]; intros mb Hdisp Hpos Hinv Hlen; [lia|].
  assert (Hpm : is_Some (process_messages mb)).
  { unfold process_messages. rewrite Hdisp.
    assert (Hloop : forall n message mb0, is_Some (invoker_ mb0) ->
              is_Some (for_loop n message mb0)).
    { clear. induction n as [|n IHn]; intros message mb0 Hi; simpl; [eauto|].
      assert (Hit : is_Some (iteration mb0)).
      { unfold iteration. destruct Hi as [inv Hi].
        destruct (system_messages_ mb0); simpl.
        - destruct (suspended_ mb0); [eauto|].
          destruct (user_mailbox_ mb0); simpl; [eauto|]. rewrite Hi.
          destruct (invoke_user_message _ _) as [[[]|] ?]; eauto.
        - rewrite Hi. destruct (invoke_system_message _ _) as [[[]|] ?]; eauto. }
      destruct Hit as [[[[x message'] mb1] evs1] Hit]. rewrite Hit.
      destruct x; eauto.
      apply iteration_frame in Hit as (_ & _ & _ & Hi' & _).
      destruct (IHn message' mb1 (Hi' Hi)) as [[[[? ?] ?] ?] ->]. eauto. }
    destruct (Hloop (Z.to_nat (throughput d)) None mb Hinv)
      as [[[[[e|] message'] mb1] evs1] Hl]; rewrite Hl; [|eauto].
    apply for_loop_frame in Hl as (_ & _ & _ & Hi' & _).
    destruct (is_std_exception e); [|eauto].
    destruct (Hi' Hinv) as [inv' ->]. eauto. }
  destruct Hpm as [[[rp mb1] evs1] Hpm]. simpl. rewrite Hpm.
  destruct rp as [done|e]; [|eauto].
  pose proof (process_messages_done _ _ _ _ Hpm) as ->. simpl.
  rewrite work_pending_set_status.
  destruct (work_pending mb1) eqn:Hw; [|eauto].
  pose proof (process_messages_frame _ _ _ _ Hpm) as (Hd & _ & _ & Hi & _).
  pose proof (process_messages_progress _ _ _ _ _ Hdisp Hpos Hpm) as [Hlt|[Hw' _]];
    [|congruence].
  unfold schedule_with. simpl. rewrite Hd, Hdisp.
  change (set_status Busy (set_status Idle mb1)) with (set_status Busy mb1).
  destruct (IH (set_status Busy mb1)) as [[[r2 mb2] evs2] ->]; simpl; eauto;
    try congruence; lia.
Qed.

Lemma schedule_inv fuel mb r mb' evs :
  schedule fuel mb = Some (r, mb', evs) ->
  (status_ mb = Busy /\ r = Returned tt /\ mb' = mb /\ evs = [EvSchedule false])
  \/ (status_ mb = Idle
      /\ exists evs1, run fuel (set_status Busy mb) = Some (r, mb', evs1)
                      /\ evs = EvSchedule true :: evs1).
Proof.
  unfold schedule, schedule_with. intros H.
  destruct (status_ mb) eqn:Hst.
  - right. split; [reflexivity|]. simpl in H.
    destruct (dispatcher_ mb); [|discriminate H].
    destruct (run fuel (set_status Busy mb)) as [[[r1 mb1] evs1]|]; [|discriminate H].
    inversion H; subst. eauto.
  - left. inversion H; subst. auto.
Qed.

(** *** Kinds of events *)

Lemma map_stat_forallb (P : Event -> bool) (f : nat -> Event) stats :
  (forall s, P (f s) = true) -> forallb P (map f stats) = true.
Proof.
  intros Hf. induction stats as [|s stats IH]; [reflexivity|].
  simpl. rewrite Hf, IH. reflexivity.
Qed.

Lemma iteration_drain_events mb x message mb' evs :
  iteration mb = Some (x, message, mb', evs) ->
  forallb is_drain_event evs = true.
Proof.
  intros H. iteration_cases H; simpl; auto;
    apply map_stat_forallb; reflexivity.
Qed.

Lemma for_loop_drain_events n message mb r message' mb' evs :
  for_loop n message mb = Some (r, message', mb', evs) ->
  forallb is_drain_event evs = true.
Proof.
  revert message mb r message' mb' evs.
  induction n as [|n IH]; intros message mb r message' mb' evs H.
  - inversion H; subst. reflexivity.
  - for_loop_step H; apply iteration_drain_events in Hit; auto.
    apply IH in Hrec. rewrite forallb_app, Hit, Hrec. reflexivity.
Qed.

Lemma process_messages_drain_events mb r mb' evs :
  process_messages mb = Some (r, mb', evs) ->
  forallb is_drain_event evs = true.
Proof.
  intros H. pm_cases H; apply for_loop_drain_events in Hloop; auto.
  rewrite forallb_app, Hloop. reflexivity.
Qed.

Lemma run_drain_events fuel mb r mb' evs :
  run fuel mb = Some (r, mb', evs) -> forallb is_drain_event evs = true.
Proof.
  revert mb r mb' evs. induction fuel as [|fuel IH]; intros mb r mb' evs H;
    [discriminate|].
  apply run_inv in H as (fuel' & rp & mb1 & evs1 & Hf & Hpm & Hcases).
  injection Hf as <-.
  apply process_messages_drain_events in Hpm.
  destruct Hcases as [(e & _ & _ & -> & ->)
                     |[(_ & _ & _ & -> & ->)|(_ & _ & evs2 & Hrun & ->)]];
    simpl; rewrite ?forallb_app, ?Hpm; simpl; auto.
  - apply map_stat_forallb. reflexivity.
  - apply IH in Hrun. exact Hrun.
Qed.

Lemma schedule_drain_events fuel mb r mb' evs :
  schedule fuel mb = Some (r, mb', evs) -> forallb is_drain_event evs = true.
Proof.
  intros H. apply schedule_inv in H
    as [(_ & _ & _ & ->)|(_ & evs1 & Hrun & ->)]; [reflexivity|].
  simpl. eapply run_drain_events; eauto.
Qed.

Lemma lifecycle_drain_events evs :
  forallb is_drain_event evs = true -> lifecycle evs = [].
Proof.
  unfold lifecycle. induction evs as [|e evs IH]; [reflexivity|].
  simpl. intros H. apply andb_prop in H as [He H].
  rewrite filter_cons. destruct (decide (is_lifecycle_event e = true)) as [Hl|Hl].
  - destruct e; discriminate.
  - apply IH. exact H.
Qed.

Lemma lifecycle_app a b : lifecycle (a ++ b) = lifecycle a ++ lifecycle b.
Proof. apply filter_app. Qed.

Lemma lifecycle_cons e evs :
  lifecycle (e :: evs)
  = if is_lifecycle_event e then e :: lifecycle evs else lifecycle evs.
Proof.
  unfold lifecycle. rewrite filter_cons.
  destruct (is_lifecycle_event e); reflexivity.
Qed.

Lemma lifecycle_map_stat (f : nat -> Event) stats :
  (forall s, is_lifecycle_event (f s) = false) ->
  filter (fun e => is_lifecycle_event e = true) (map f stats) = [].
Proof.
  intros Hf. induction stats as [|s stats IH]; [reflexivity|].
  simpl. rewrite filter_cons. destruct (decide _) as [Hl|Hl]; [|exact IH].
  rewrite Hf in Hl. discriminate.
Qed.

(** *** Posting *)

Lemma post_notifies_pushes_schedules_aux fuel message mb r mb' evs :
  post_system_message fuel message mb = Some (r, mb', evs) ->
  exists rest,
    evs = map (fun stat => EvMessagePosted stat message) (stats_ mb)
          ++ EvPushSystem message :: rest
    /\ forallb is_drain_event rest = true.
Proof.
  unfold post_system_message. intros H.
  destruct (schedule _ _) as [[[r1 mb1] evs1]|] eqn:Hs; [|discriminate H].
  inversion H; subst; clear H. eauto using schedule_drain_events.
Qed.

Lemma schedule_suspension fuel mb r mb' evs :
  schedule fuel mb = Some (r, mb', evs) ->
  suspension_respected (suspended_ mb) evs = true
  /\ suspended_through (suspended_ mb) evs = suspended_ mb'.
Proof.
  intros H. apply schedule_inv in H
    as [(_ & _ & -> & ->)|(_ & evs1 & Hrun & ->)]; [simpl; auto|].
  apply run_suspension in Hrun. simpl in *. exact Hrun.
Qed.

Lemma post_suspension fuel p mb r mb' evs :
  post fuel p mb = Some (r, mb', evs) ->
  suspension_respected (suspended_ mb) evs = true
  /\ suspended_through (suspended_ mb) evs = suspended_ mb'.
Proof.
  destruct p as [m|m]; simpl; unfold post_system_message, post_user_message;
    intros H;
    destruct (schedule _ _) as [[[r1 mb1] evs1]|] eqn:Hs; try discriminate H;
    inversion H; subst; clear H;
    apply schedule_suspension in Hs as (Hr & Ht); simpl in *;
    rewrite suspension_respected_app, suspended_through_app;
    destruct (suspension_respected_map_stat (suspended_ mb)
                (fun stat => EvMessagePosted stat m) (stats_ mb)) as (-> & ->);
    simpl; auto; intros; discriminate.
Qed.

Lemma post_all_suspension fuel posts mb r mb' evs :
  post_all fuel posts mb = Some (r, mb', evs) ->
  suspension_respected (suspended_ mb) evs = true
  /\ suspended_through (suspended_ mb) evs = suspended_ mb'.
Proof.
  revert mb r mb' evs. induction posts as [|p posts IH]; intros mb r mb' evs H.
  - inversion H; subst. simpl. auto.
  - simpl in H.
    destruct (post fuel p mb) as [[[[[]|e] mb1] evs1]|] eqn:Hp; [| |discriminate H].
    + destruct (post_all fuel posts mb1) as [[[r2 mb2] evs2]|] eqn:Hrec;
        [|discriminate H].
      inversion H; subst; clear H.
      apply post_suspension in Hp as (Hr & Ht). apply IH in Hrec as (Hr' & Ht').
      rewrite suspension_respected_app, suspended_through_app, Hr, Ht, Hr', Ht'.
      auto.
    + inversion H; subst; clear H. eapply post_suspension; eauto.
Qed.

(** *** Invariants of the invoker *)

Section InvokerInvariant.
Variable P : I -> Prop.
Hypothesis P_escalate : forall e m i, P i -> P (escalate_failure e m i).
Hypothesis P_system : forall m i, P i -> P (snd (invoke_system_message m i)).
Hypothesis P_user : forall m i, P i -> P (snd (invoke_user_message m i)).

Lemma iteration_invariant mb x message mb' evs :
  iteration mb = Some (x, message, mb', evs) ->
  invoker_satisfies P mb -> invoker_satisfies P mb'.
Proof.
  intros H (i & Hi & HP). unfold invoker_satisfies.
  iteration_cases H; simpl; eauto; simplify_eq.
  - specialize (P_user m i HP). rewrite Hcall in P_user. eauto.
  - specialize (P_user m i HP). rewrite Hcall in P_user. eauto.
  - specialize (P_system m i HP). rewrite Hcall in P_system. eauto.
  - specialize (P_system m i HP). rewrite Hcall in P_system. eauto.
Qed.

Lemma for_loop_invariant n message mb r message' mb' evs :
  for_loop n message mb = Some (r, message', mb', evs) ->
  invoker_satisfies P mb -> invoker_satisfies P mb'.
Proof.
  revert message mb r message' mb' evs.
  induction n as [|n IH]; intros message mb r message' mb' evs H HP.
  - inversion H; subst. exact HP.
  - for_loop_step H; eauto using iteration_invariant.
Qed.

Lemma process_messages_invariant mb r mb' evs :
  process_messages mb = Some (r, mb', evs) ->
  invoker_satisfies P mb -> invoker_satisfies P mb'.
Proof.
  intros H HP. pm_cases H; eauto using for_loop_invariant.
  destruct (for_loop_invariant _ _ _ _ _ _ _ Hloop HP) as (i & Hi & HPi).
  exists (escalate_failure e message' i). simpl. simplify_eq. auto.
Qed.

Lemma run_invariant fuel mb r mb' evs :
  run fuel mb = Some (r, mb', evs) ->
  invoker_satisfies P mb -> invoker_satisfies P mb'.
Proof.
  revert mb r mb' evs. induction fuel as [|fuel IH]; intros mb r mb' evs H HP;
    [discriminate|].
  apply run_inv in H as (fuel' & rp & mb1 & evs1 & Hf & Hpm & Hcases).
  injection Hf as <-.
  pose proof (process_messages_invariant _ _ _ _ Hpm HP) as HP1.
  destruct Hcases as [(e & _ & _ & -> & ->)
                     |[(_ & _ & _ & -> & ->)|(_ & _ & evs2 & Hrun & ->)]]; auto.
  eapply IH; eauto.
Qed.

Lemma schedule_invariant fuel mb r mb' evs :
  schedule fuel mb = Some (r, mb', evs) ->
  invoker_satisfies P mb -> invoker_satisfies P mb'.
Proof.
  intros H HP. apply schedule_inv in H
    as [(_ & _ & -> & _)|(_ & evs1 & Hrun & _)]; [exact HP|].
  eapply run_invariant; eauto.
Qed.

Lemma post_invariant fuel p mb r mb' evs :
  post fuel p mb = Some (r, mb', evs) ->
  invoker_satisfies P mb -> invoker_satisfies P mb'.
Proof.
  destruct p as [m|m]; simpl; unfold post_system_message, post_user_message;
    intros H HP;
    destruct (schedule _ _) as [[[r1 mb1] evs1]|] eqn:Hs; try discriminate H;
    inversion H; subst; clear H;
    eapply schedule_invariant; eauto.
Qed.
End InvokerInvariant.

End MailboxFacts.


(* ===================================================================== *)
(** ** The invoker after a drain *)
(* ===================================================================== *)

Section Replay.
Context {I : Type} `{!IMessageInvoker I}.
Implicit Types (mb : DefaultMailbox I) (evs : list Event) (i : I).

Lemma replay_app a b i : replay (a ++ b) i = replay b (replay a i).
Proof. apply fold_left_app. Qed.

Lemma replay_map_stat (f : nat -> Event) stats i :
  (forall s j, replay_event j (f s) = j) -> replay (map f stats) i = i.
Proof.
  intros Hf. induction stats as [|s stats IH]; [reflexivity|].
  unfold replay in *. simpl. rewrite Hf. exact IH.
Qed.

Lemma iteration_replay mb x message mb' evs i :
  iteration mb = Some (x, message, mb', evs) ->
  invoker_ mb = Some i -> invoker_ mb' = Some (replay evs i).
Proof.
  intros H Hi. iteration_cases H; simpl in *; simplify_eq; auto;
    rewrite ?replay_app; unfold replay; simpl; rewrite Hcall; simpl; auto;
    f_equal; symmetry; apply replay_map_stat; reflexivity.
Qed.

Lemma for_loop_replay n message mb r message' mb' evs i :
  for_loop n message mb = Some (r, message', mb', evs) ->
  invoker_ mb = Some i -> invoker_ mb' = Some (replay evs i).
Proof.
  revert message mb r message' mb' evs i.
  induction n as [|n IH]; intros message mb r message' mb' evs i H Hi.
  - inversion H; subst. exact Hi.
  - for_loop_step H; eauto using iteration_replay.
    rewrite replay_app. eauto using iteration_replay.
Qed.

Lemma process_messages_replay mb r mb' evs i :
  process_messages mb = Some (r, mb', evs) ->
  invoker_ mb = Some i -> invoker_ mb' = Some (replay evs i).
Proof.
  intros H Hi. pm_cases H; eauto using for_loop_replay.
  rewrite (for_loop_replay _ _ _ _ _ _ _ _ Hloop Hi) in Hinv. simplify_eq.
  rewrite replay_app. reflexivity.
Qed.

Lemma run_replay fuel mb r mb' evs i :
  run fuel mb = Some (r, mb', evs) ->
  invoker_ mb = Some i -> invoker_ mb' = Some (replay evs i).
Proof.
  revert mb r mb' evs i. induction fuel as [|fuel IH]; intros mb r mb' evs i H Hi;
    [discriminate|].
  apply run_inv in H as (fuel' & rp & mb1 & evs1 & Hf & Hpm & Hcases).
  injection Hf as <-.
  pose proof (process_messages_replay _ _ _ _ _ Hpm Hi) as Hi1.
  destruct Hcases as [(e & _ & _ & -> & ->)
                     |[(_ & _ & _ & -> & ->)|(_ & _ & evs2 & Hrun & ->)]].
  - exact Hi1.
  - change (EvRun :: evs1 ++ EvIdle :: map EvMailboxEmpty (stats_ mb1))
      with ([EvRun] ++ evs1 ++ [EvIdle] ++ map EvMailboxEmpty (stats_ mb1)).
    rewrite !replay_app, replay_map_stat by reflexivity. exact Hi1.
  - change (EvRun :: evs1 ++ EvIdle :: EvSchedule true :: evs2)
      with ([EvRun] ++ evs1 ++ [EvIdle; EvSchedule true] ++ evs2).
    rewrite !replay_app. exact (IH _ _ _ _ _ Hrun Hi1).
Qed.

Lemma schedule_replay fuel mb r mb' evs i :
  schedule fuel mb = Some (r, mb', evs) ->
  invoker_ mb = Some i -> invoker_ mb' = Some (replay evs i).
Proof.
  intros H Hi. apply schedule_inv in H
    as [(_ & _ & -> & ->)|(_ & evs1 & Hrun & ->)]; [exact Hi|].
  exact (run_replay _ _ _ _ _ _ Hrun Hi).
Qed.

Lemma post_replay fuel p mb r mb' evs i :
  post fuel p mb = Some (r, mb', evs) ->
  invoker_ mb = Some i -> invoker_ mb' = Some (replay evs i).
Proof.
  destruct p as [m|m]; simpl; unfold post_system_message, post_user_message;
    intros H Hi;
    destruct (schedule _ _) as [[[r1 mb1] evs1]|] eqn:Hs; try discriminate H;
    inversion H; subst; clear H;
    rewrite replay_app, replay_map_stat by reflexivity;
    exact (schedule_replay _ _ _ _ _ _ Hs Hi).
Qed.

Lemma post_all_replay fuel posts mb r mb' evs i :
  post_all fuel posts mb = Some (r, mb', evs) ->
  invoker_ mb = Some i -> invoker_ mb' = Some (replay evs i).
Proof.
  revert mb r mb' evs i. induction posts as [|p posts IH]; intros mb r mb' evs i H Hi.
  - inversion H; subst. exact Hi.
  - simpl in H.
    destruct (post fuel p mb) as [[[[[]|e] mb1] evs1]|] eqn:Hp; [| |discriminate H].
    + destruct (post_all fuel posts mb1) as [[[r2 mb2] evs2]|] eqn:Hrec;
        [|discriminate H].
      inversion H; subst; clear H. rewrite replay_app.
      eauto using post_replay.
    + inversion H; subst; clear H. eauto using post_replay.
Qed.

End Replay.

(* ===================================================================== *)
(** ** The exception that leaves a drain *)
(* ===================================================================== *)

Section Escaping.
Context {I : Type} `{!IMessageInvoker I}.
Implicit Types (mb : DefaultMailbox I) (evs : list Event) (i : I).

Lemma escaping_app a b i :
  escaping i (a ++ b)
  = match escaping i a with
    | Some e => Some e
    | None => escaping (replay a i) b
    end.
Proof.
  revert i. induction a as [|e a IH]; intros i; [reflexivity|].
  simpl. destruct (uncaught (call_of_event i e)); [reflexivity|]. apply IH.
Qed.

Lemma escaping_map_stat (f : nat -> Event) stats i :
  (forall s, is_invoke (f s) = false) -> escaping i (map f stats) = None.
Proof.
  intros Hf. revert i. induction stats as [|s stats IH]; intros i; [reflexivity|].
  simpl. specialize (Hf s). destruct (f s); try discriminate Hf; simpl; apply IH.
Qed.

(** Nothing escapes where nothing is invoked. *)
Lemma escaping_nothing_invoked evs i : invoked evs = [] -> escaping i evs = None.
Proof.
  revert i. induction evs as [|e evs IH]; intros i; [reflexivity|].
  destruct e; simpl; try discriminate; intros Hn; apply IH; exact Hn.
Qed.

Lemma iteration_escaping mb x message mb' evs i :
  iteration mb = Some (x, message, mb', evs) -> invoker_ mb = Some i ->
  escaping i evs
  = match x with
    | Unwind e => if is_std_exception e then None else Some e
    | _ => None
    end.
Proof.
  intros H Hi. iteration_cases H; simpl in *; simplify_eq; auto;
    rewrite ?Hcall; simpl; try (destruct (is_std_exception _); reflexivity);
    apply escaping_map_stat; reflexivity.
Qed.

Lemma for_loop_escaping n message mb r message' mb' evs i :
  for_loop n message mb = Some (r, message', mb', evs) -> invoker_ mb = Some i ->
  escaping i evs
  = match r with
    | Some e => if is_std_exception e then None else Some e
    | None => None
    end.
Proof.
  revert message mb r message' mb' evs i.
  induction n as [|n IH]; intros message mb r message' mb' evs i H Hi.
  - inversion H; subst. reflexivity.
  - for_loop_step H.
    + rewrite escaping_app, (iteration_escaping _ _ _ _ _ _ Hit Hi).
      exact (IH _ _ _ _ _ _ _ Hrec (iteration_replay _ _ _ _ _ _ Hit Hi)).
    + exact (iteration_escaping _ _ _ _ _ _ Hit Hi).
    + exact (iteration_escaping _ _ _ _ _ _ Hit Hi).
Qed.

Lemma process_messages_escaping mb r mb' evs i :
  process_messages mb = Some (r, mb', evs) -> invoker_ mb = Some i ->
  escaping i evs = thrown r.
Proof.
  intros H Hi. pm_cases H.
  - rewrite escaping_app, (for_loop_escaping _ _ _ _ _ _ _ _ Hloop Hi), Hstd.
    reflexivity.
  - rewrite (for_loop_escaping _ _ _ _ _ _ _ _ Hloop Hi), Hstd. reflexivity.
  - exact (for_loop_escaping _ _ _ _ _ _ _ _ Hloop Hi).
Qed.

Lemma run_escaping fuel mb r mb' evs i :
  run fuel mb = Some (r, mb', evs) -> invoker_ mb = Some i ->
  escaping i evs = thrown r.
Proof.
  revert mb r mb' evs i. induction fuel as [|fuel IH]; intros mb r mb' evs i H Hi;
    [discriminate|].
  apply run_inv in H as (fuel' & rp & mb1 & evs1 & Hf & Hpm & Hcases).
  injection Hf as <-.
  pose proof (process_messages_replay _ _ _ _ _ Hpm Hi) as Hi1.
  pose proof (process_messages_escaping _ _ _ _ _ Hpm Hi) as He1.
  destruct Hcases as [(e & -> & -> & -> & ->)
                     |[(-> & _ & -> & -> & ->)|(-> & _ & evs2 & Hrun & ->)]].
  - exact He1.
  - change (EvRun :: evs1 ++ EvIdle :: map EvMailboxEmpty (stats_ mb1))
      with ([EvRun] ++ evs1 ++ [EvIdle] ++ map EvMailboxEmpty (stats_ mb1)).
    rewrite !escaping_app. simpl. rewrite He1. simpl.
    apply escaping_map_stat. reflexivity.
  - change (EvRun :: evs1 ++ EvIdle :: EvSchedule true :: evs2)
      with ([EvRun] ++ evs1 ++ [EvIdle; EvSchedule true] ++ evs2).
    rewrite !escaping_app. simpl. rewrite He1. simpl.
    exact (IH _ _ _ _ _ Hrun Hi1).
Qed.

Lemma schedule_escaping fuel mb r mb' evs i :
  schedule fuel mb = Some (r, mb', evs) -> invoker_ mb = Some i ->
  escaping i evs = thrown r.
Proof.
  intros H Hi. apply schedule_inv in H
    as [(_ & -> & -> & ->)|(_ & evs1 & Hrun & ->)]; [reflexivity|].
  exact (run_escaping _ _ _ _ _ _ Hrun Hi).
Qed.

Lemma post_escaping fuel p mb r mb' evs i :
  post fuel p mb = Some (r, mb', evs) -> invoker_ mb = Some i ->
  escaping i evs = thrown r.
Proof.
  destruct p as [m|m]; simpl; unfold post_system_message, post_user_message;
    intros H Hi;
    destruct (schedule _ _) as [[[r1 mb1] evs1]|] eqn:Hs; try discriminate H;
    inversion H; subst; clear H;
    rewrite escaping_app, escaping_map_stat, replay_map_stat by reflexivity;
    exact (schedule_escaping _ _ _ _ _ _ Hs Hi).
Qed.

Lemma post_all_escaping fuel posts mb r mb' evs i :
  post_all fuel posts mb = Some (r, mb', evs) -> invoker_ mb = Some i ->
  escaping i evs = thrown r.
Proof.
  revert mb r mb' evs i. induction posts as [|p posts IH]; intros mb r mb' evs i H Hi.
  - inversion H; subst. reflexivity.
  - simpl in H.
    destruct (post fuel p mb) as [[[[[]|e] mb1] evs1]|] eqn:Hp; [| |discriminate H].
    + destruct (post_all fuel posts mb1) as [[[r2 mb2] evs2]|] eqn:Hrec;
        [|discriminate H].
      inversion H; subst; clear H.
      rewrite escaping_app, (post_escaping _ _ _ _ _ _ _ Hp Hi). simpl.
      exact (IH _ _ _ _ _ Hrec (post_replay _ _ _ _ _ _ _ Hp Hi)).
    + inversion H; subst; clear H. exact (post_escaping _ _ _ _ _ _ _ Hp Hi).
Qed.

End Escaping.

(* ===================================================================== *)
(** ** The drain loop: priority of the system queue *)
(* ===================================================================== *)

Section DrainPriority.
Context {I : Type} `{!IMessageInvoker I}.
Implicit Types (mb : DefaultMailbox I) (evs : list Event).




End DrainPriority.


(* ===================================================================== *)
(** ** Posting: the order of the steps *)
(* ===================================================================== *)

Section PostOrder.
Context {I : Type} `{!IMessageInvoker I}.
Implicit Types (mb : DefaultMailbox I) (evs : list Event).

(** C7, as the code has it.  [post_system_message(m)] first notifies every
    statistics observer of the post, then pushes [m] to the system queue,
    then calls [schedule]; [post_user_message(m)] does the same with the user
    queue.  Nothing is pushed or notified once [schedule] has been called. *)
Theorem post_notifies_pushes_schedules fuel message mb r mb' evs :
  (post_system_message fuel message mb = Some (r, mb', evs) ->
   exists cas rest,
     evs = map (fun stat => EvMessagePosted stat message) (stats_ mb)
           ++ EvPushSystem message :: EvSchedule cas :: rest
     /\ schedule fuel (set_system_messages (system_messages_ mb ++ [message]) mb)
        = Some (r, mb', EvSchedule cas :: rest)
     /\ forallb is_drain_event rest = true)
  /\ (post_user_message fuel message mb = Some (r, mb', evs) ->
      exists cas rest,
        evs = map (fun stat => EvMessagePosted stat message) (stats_ mb)
              ++ EvPushUser message :: EvSchedule cas :: rest
        /\ schedule fuel (set_user_mailbox (user_mailbox_ mb ++ [message]) mb)
           = Some (r, mb', EvSchedule cas :: rest)
        /\ forallb is_drain_event rest = true).
Proof.
  split; unfold post_system_message, post_user_message, push; intros H;
    destruct (schedule _ _) as [[[r1 mb1] evs1]|] eqn:Hs; try discriminate H;
    inversion H; subst; clear H;
    pose proof (schedule_drain_events _ _ _ _ _ Hs) as Hk;
    apply schedule_inv in Hs as [(_ & -> & -> & ->)|(_ & evs2 & Hrun & ->)];
    eauto.
Qed.

End PostOrder.

(** C7 as stated fails: with one statistics observer, the observer is told
    of the post before the message is pushed, for both queues. *)
Lemma post_notifies_before_push :
  (exists mb',
      post_system_message 2 StopMessage_instance
        (recorder_mailbox [7%nat] SynchronousDispatcher)
      = Some (Returned tt, mb',
              [EvMessagePosted 7 StopMessage_instance;
               EvPushSystem StopMessage_instance;
               EvSchedule true; EvRun;
               EvPopSystem (Some StopMessage_instance);
               EvInvokeSystem StopMessage_instance;
               EvMessageReceived 7 StopMessage_instance;
               EvPopSystem None; EvPopUser None; EvIdle; EvMailboxEmpty 7]))
  /\ (exists mb',
         post_user_message 2 (new_Hello "ProtoActor")
           (recorder_mailbox [7%nat] SynchronousDispatcher)
         = Some (Returned tt, mb',
                 [EvMessagePosted 7 (new_Hello "ProtoActor");
                  EvPushUser (new_Hello "ProtoActor");
                  EvSchedule true; EvRun; EvPopSystem None;
                  EvPopUser (Some (new_Hello "ProtoActor"));
                  EvInvokeUser (new_Hello "ProtoActor");
                  EvMessageReceived 7 (new_Hello "ProtoActor");
                  EvPopSystem None; EvPopUser None; EvIdle; EvMailboxEmpty 7])).
Proof. split; eexists; vm_compute; reflexivity. Qed.

(** The theorem at the same mailbox and post. *)
Lemma post_notifies_pushes_schedules_witness :
  exists mb' cas rest,
    [EvMessagePosted 7 StopMessage_instance;
     EvPushSystem StopMessage_instance;
     EvSchedule true; EvRun;
     EvPopSystem (Some StopMessage_instance);
     EvInvokeSystem StopMessage_instance;
     EvMessageReceived 7 StopMessage_instance;
     EvPopSystem None; EvPopUser None; EvIdle; EvMailboxEmpty 7]
    = map (fun stat => EvMessagePosted stat StopMessage_instance)
          (stats_ (recorder_mailbox [7%nat] SynchronousDispatcher))
      ++ EvPushSystem StopMessage_instance :: EvSchedule cas :: rest
    /\ schedule 2 (set_system_messages
                     (system_messages_ (recorder_mailbox [7%nat] SynchronousDispatcher)
                      ++ [StopMessage_instance])
                     (recorder_mailbox [7%nat] SynchronousDispatcher))
       = Some (Returned tt, mb', EvSchedule cas :: rest)
    /\ forallb is_drain_event rest = true.
Proof.
  eexists.
  refine (proj1 (post_notifies_pushes_schedules 2 StopMessage_instance
                   (recorder_mailbox [7%nat] SynchronousDispatcher)
                   (Returned tt) _ _) _).
  vm_compute. reflexivity.
Defined.

(* ===================================================================== *)
(** ** The registry *)
(* ===================================================================== *)

Lemma try_add_present id process reg p :
  local_actor_refs_ reg !! id = Some p ->
  ProcessRegistry_try_add id process reg = (Threw (ProcessNameExistException id), reg).
Proof.
  intros H. unfold ProcessRegistry_try_add, emplace. rewrite H. simpl.
  destruct reg; reflexivity.
Qed.

Lemma try_add_absent id process reg :
  local_actor_refs_ reg !! id = None ->
  ProcessRegistry_try_add id process reg
  = (Returned {| pid_address_ := address_ reg; pid_id_ := id; process_ := None |},
     {| address_ := address_ reg;
        local_actor_refs_ := <[id := process]> (local_actor_refs_ reg);
        sequence_id_ := sequence_id_ reg |}).
Proof.
  intros H. unfold ProcessRegistry_try_add, emplace. rewrite H. reflexivity.
Qed.

(** After any spawn under a name that has a result, the name is taken. *)
Lemma spawn_registers {A : Type} `{!IActor A} fuel props name parent
    (sys : System A) r sys' evs :
  Props_default_spawner fuel name props parent sys = Some (r, sys', evs) ->
  is_Some (local_actor_refs_ (registry sys') !! name).
Proof.
  unfold Props_default_spawner. intros H.
  destruct (local_actor_refs_ (registry sys) !! name) as [p|] eqn:Hl.
  - rewrite (try_add_present _ _ _ _ Hl) in H. inversion H; subst. simpl.
    rewrite Hl. eauto.
  - rewrite (try_add_absent _ _ _ Hl) in H. simpl in H.
    destruct (LocalContext_ctor _ _) as [ctx|e0].
    + destruct (post_system_message _ _ _) as [[[[[]|e] mb1] evs1]|];
        [| |discriminate H]; inversion H; subst; simpl;
        rewrite lookup_insert_eq; eauto.
    + inversion H; subst; simpl. rewrite lookup_insert_eq; eauto.
Qed.

(** C6. [try_add(id, process)] throws [ProcessNameExistException] exactly
    when [id] is mapped, and then the registry is unchanged.  Otherwise it
    maps [id] to the process, leaves every other id as it was, and returns a
    PID with the registry's address and the given id.  Hence a second
    [spawn_named] under the name of an earlier one throws that exception and
    changes nothing. *)
Theorem try_add_name_exists reg id process :
  (is_Some (local_actor_refs_ reg !! id)
   <-> fst (ProcessRegistry_try_add id process reg)
       = Threw (ProcessNameExistException id))
  /\ (is_Some (local_actor_refs_ reg !! id) ->
      ProcessRegistry_try_add id process reg
      = (Threw (ProcessNameExistException id), reg))
  /\ (local_actor_refs_ reg !! id = None ->
      exists reg',
        ProcessRegistry_try_add id process reg
        = (Returned {| pid_address_ := address_ reg; pid_id_ := id; process_ := None |},
           reg')
        /\ local_actor_refs_ reg' !! id = Some process
        /\ (forall id', id' <> id ->
              local_actor_refs_ reg' !! id' = local_actor_refs_ reg !! id')
        /\ address_ reg' = address_ reg)
  /\ (forall (A : Type) (actor : IActor A) fuel1 fuel2 props1 props2 name
             (sys : System A) r1 sys1 evs1,
        Actor_spawn_named fuel1 props1 name sys = Some (r1, sys1, evs1) ->
        Actor_spawn_named fuel2 props2 name sys1
        = Some (Threw (ProcessNameExistException name), sys1, [])).
Proof.
  split; [|split; [|split]].
  - split.
    + intros [p Hp]. rewrite (try_add_present _ _ _ _ Hp). reflexivity.
    + destruct (local_actor_refs_ reg !! id) eqn:Hl; [eauto|].
      rewrite (try_add_absent _ _ _ Hl). discriminate.
  - intros [p Hp]. apply (try_add_present _ _ _ _ Hp).
  - intros Hl. eexists. split; [apply (try_add_absent _ _ _ Hl)|]. simpl.
    split; [apply lookup_insert_eq|].
    split; [intros id' Hne; apply lookup_insert_ne; congruence|reflexivity].
  - intros A actor fuel1 fuel2 props1 props2 name sys r1 sys1 evs1 H.
    unfold Actor_spawn_named, Props_spawn in *.
    apply spawn_registers in H as [p Hp].
    unfold Props_default_spawner. rewrite (try_add_present _ _ _ _ Hp).
    destruct sys1 as [reg1 mbs1]. destruct reg1. reflexivity.
Qed.

(** The theorem at the first two spawns of a program: the second
    [spawn_named(props, "a")] throws. *)
Lemma try_add_name_exists_witness :
  Actor_spawn_named 2 recorder_props "a"
    (system_after (Actor_spawn_named 2 recorder_props "a" System_initial))
  = Some (Threw (ProcessNameExistException "a"),
          system_after (Actor_spawn_named 2 recorder_props "a" System_initial), []).
Proof.
  eassert (H1 : Actor_spawn_named 2 recorder_props "a" System_initial = Some (_, _, _))
    by (vm_compute; reflexivity).
  exact (proj2 (proj2 (proj2
           (try_add_name_exists ProcessRegistry_initial "a" DeadLetterProcess)))
           _ _ 2%nat 2%nat _ _ _ _ _ _ _ H1).
Defined.

(* ===================================================================== *)
(** ** Contexts *)
(* ===================================================================== *)

Section ContextFacts.
Context {A : Type} `{!IActor A}.
Implicit Types (ctx : LocalContext A).

Lemma process_message_spec message ctx :
  receive_calls_ (snd (process_message message ctx))
  = receive_calls_ ctx ++ [Some message]
  /\ (fst (process_message message ctx), actor_ (snd (process_message message ctx)))
     = receive (Some message) (actor_ ctx)
  /\ (fst (process_message message ctx) = Returned tt ->
      message_ (snd (process_message message ctx)) = None)
  /\ state_ (snd (process_message message ctx)) = state_ ctx.
Proof.
  unfold process_message.
  destruct (receive (Some message) (actor_ ctx)) as [[[]|e] actor']; simpl; auto.
  repeat split; auto. discriminate.
Qed.

Lemma invoke_system_message_state message ctx :
  state_ (snd (LocalContext_invoke_system_message message ctx)) = state_ ctx.
Proof.
  unfold LocalContext_invoke_system_message, LocalContext_invoke_user_message.
  destruct (is_StartedMessage message); [apply process_message_spec|reflexivity].
Qed.

(** C10. For a system message that is not a [StartedMessage], and so for
    [Stop], [SuspendMailbox] and [ResumeMailbox], [invoke_system_message]
    returns with the context as it was: [receive] is not called and no field
    changes.  The context is [Alive] when its constructor returns, and no
    method of the invoker changes [state_]; so the state of the context bound
    to a mailbox is the same after any run of the mailbox. *)
Theorem other_system_messages_are_ignored :
  (forall message ctx,
      is_StartedMessage message = false ->
      LocalContext_invoke_system_message message ctx = (Returned tt, ctx))
  /\ is_StartedMessage StopMessage_instance = false
  /\ is_StartedMessage new_SuspendMailboxMessage = false
  /\ is_StartedMessage new_ResumeMailboxMessage = false
  /\ (forall producer parent ctx,
        LocalContext_ctor (A := A) producer parent = Returned ctx ->
        state_ ctx = ContextState.Alive)
  /\ (forall message ctx,
        state_ (snd (LocalContext_invoke_system_message message ctx)) = state_ ctx
        /\ state_ (snd (LocalContext_invoke_user_message message ctx)) = state_ ctx)
  /\ (forall reason message ctx,
        LocalContext_escalate_failure reason message ctx = ctx)
  /\ (forall fuel (mb : DefaultMailbox (LocalContext A)) r mb' evs,
        run fuel mb = Some (r, mb', evs) ->
        invoker_satisfies (fun ctx => state_ ctx = ContextState.Alive) mb ->
        invoker_satisfies (fun ctx => state_ ctx = ContextState.Alive) mb').
Proof.
  split.
  { intros message ctx H. unfold LocalContext_invoke_system_message. rewrite H.
    reflexivity. }
  do 3 (split; [reflexivity|]).
  split.
  { intros producer parent ctx. unfold LocalContext_ctor.
    destruct (producer tt) as [actor|e]; [|discriminate].
    intros [= <-]. reflexivity. }
  split.
  { intros message ctx. split; [apply invoke_system_message_state|].
    apply process_message_spec. }
  split; [reflexivity|].
  intros fuel mb r mb' evs Hrun.
  eapply run_invariant; [| | |exact Hrun]; simpl.
  - intros e m i Hi. exact Hi.
  - intros m i Hi. rewrite invoke_system_message_state. exact Hi.
  - intros m i Hi. unfold LocalContext_invoke_user_message.
    destruct (process_message_spec m i) as (_ & _ & _ & ->). exact Hi.
Qed.

(** The drain of a mailbox that holds one [Started] and nothing else. *)
Lemma for_loop_started n message0 (mb : DefaultMailbox (LocalContext A)) ctx :
  invoker_ mb = Some ctx ->
  system_messages_ mb = [StartedMessage_instance] ->
  user_mailbox_ mb = [] ->
  suspended_ mb = false ->
  exists r message' mb' evs ctx',
    for_loop (S (S n)) message0 mb = Some (r, message', mb', evs)
    /\ invoked evs = [StartedMessage_instance]
    /\ invoker_ mb' = Some ctx'
    /\ receive_calls_ ctx' = receive_calls_ ctx ++ [Some StartedMessage_instance]
    /\ work_pending mb' = false.
Proof.
  intros Hinv Hsys Husr Hsusp.
  cbn [for_loop]. unfold iteration at 1. rewrite Hsys. cbn [pop].
  cbn -[for_loop iteration]. rewrite Hinv.
  cbn -[for_loop iteration].
  unfold LocalContext_invoke_system_message, LocalContext_invoke_user_message,
    process_message. cbn -[for_loop iteration].
  destruct (receive (Some StartedMessage_instance) (actor_ ctx))
    as [[[]|e] actor'] eqn:Hrecv.
  - unfold iteration. cbn. rewrite Hsusp, Husr. cbn.
    eexists _, _, _, _, _. split; [reflexivity|]. cbn.
    rewrite invoked_app, invoked_map_stat by reflexivity. cbn.
    repeat split; auto.
  - eexists _, _, _, _, _. split; [reflexivity|]. cbn.
    repeat split; auto. unfold work_pending. cbn. rewrite Husr, Hsusp. reflexivity.
Qed.

(** The post of [Started] made by a spawn with the default [Props]. *)
Lemma default_mailbox_started fuel (producer : Producer A) parent actor :
  exists r mb evs ctx,
    post_system_message (S fuel) StartedMessage_instance
      (set_dispatcher (Some default_dispatcher)
         (set_invoker (Some (LocalContext_incarnated producer parent actor))
            (UnboundedMailbox_create [])))
    = Some (r, mb, evs)
    /\ invoked evs = [StartedMessage_instance]
    /\ invoker_ mb = Some ctx
    /\ receive_calls_ ctx = [Some StartedMessage_instance].
Proof.
  unfold post_system_message, schedule, schedule_with. cbn.
  change (Z.to_nat 300) with (S (S 298)).
  edestruct (for_loop_started 298 None)
    as (r & message' & mb' & evs & ctx' & -> & Hi & Hc & Hr & Hw);
    [cbn; reflexivity..|].
  cbn in Hr.
  destruct r as [e|].
  - destruct (is_std_exception e).
    + rewrite Hc.
      change (work_pending (set_status Idle
                (set_invoker (Some (LocalContext_escalate_failure e message' ctx')) mb')))
        with (work_pending mb').
      rewrite Hw. eexists _, _, _, _. split; [reflexivity|]. cbn.
      rewrite !invoked_app. cbn [invoked].
      rewrite invoked_map_stat, Hi by reflexivity. eauto.
    + eexists _, _, _, _. split; [reflexivity|]. cbn. eauto.
  - change (work_pending (set_status Idle mb')) with (work_pending mb').
    rewrite Hw. eexists _, _, _, _. split; [reflexivity|]. cbn.
    rewrite !invoked_app. cbn [invoked].
    rewrite invoked_map_stat, Hi by reflexivity. eauto.
Qed.

(** C8. [invoke_system_message] on a [StartedMessage] is
    [invoke_user_message] on it: [receive] is called once, with the message
    in the current-message slot, and the slot is empty again when [receive]
    has returned.  A spawn under a free name that incarnates its actor
    posts one message to the new mailbox, [StartedMessage::instance()] on
    the system queue, after [register_handlers] and before [start()] (which
    is reached when the post returns); when the producer throws, the spawn
    makes none of these steps and throws what the producer threw.  With the
    default [Props] the spawn has a result, and the actor has received
    [Started] by then. *)
Theorem started_is_received :
  (forall message ctx,
      is_StartedMessage message = true ->
      LocalContext_invoke_system_message message ctx
      = LocalContext_invoke_user_message message ctx)
  /\ (forall message ctx,
        receive_calls_ (snd (LocalContext_invoke_user_message message ctx))
        = receive_calls_ ctx ++ [Some message]
        /\ (fst (LocalContext_invoke_user_message message ctx),
            actor_ (snd (LocalContext_invoke_user_message message ctx)))
           = receive (Some message) (actor_ ctx)
        /\ (fst (LocalContext_invoke_user_message message ctx) = Returned tt ->
            message_ (snd (LocalContext_invoke_user_message message ctx)) = None))
  /\ is_StartedMessage StartedMessage_instance = true
  /\ (forall fuel name props parent (sys : System A) r sys' evs,
        local_actor_refs_ (registry sys) !! name = None ->
        Props_default_spawner fuel name props parent sys = Some (r, sys', evs) ->
        lifecycle evs
        = match props_producer_ props tt with
          | Returned _ =>
              [EvRegisterHandlers; EvPushSystem StartedMessage_instance]
              ++ match r with Returned _ => [EvStart] | Threw _ => [] end
          | Threw _ => []
          end)
  /\ (forall fuel name producer (sys : System A),
        local_actor_refs_ (registry sys) !! name = None ->
        exists r sys' evs,
          Actor_spawn_named (S fuel) (Actor_from_producer producer) name sys
          = Some (r, sys', evs)
          /\ match producer tt with
             | Returned _ =>
                 exists mb ctx,
                   invoked evs = [StartedMessage_instance]
                   /\ mailboxes sys' !! length (mailboxes sys) = Some mb
                   /\ invoker_ mb = Some ctx
                   /\ receive_calls_ ctx = [Some StartedMessage_instance]
             | Threw e => r = Threw e /\ evs = []
             end).
Proof.
  split.
  { intros message ctx H. unfold LocalContext_invoke_system_message. rewrite H.
    reflexivity. }
  split.
  { intros message ctx. unfold LocalContext_invoke_user_message.
    destruct (process_message_spec message ctx) as (H1 & H2 & H3 & _). auto. }
  split; [reflexivity|].
  split.
  - intros fuel name props parent sys r sys' evs Hfree H.
    unfold Props_default_spawner in H. rewrite (try_add_absent _ _ _ Hfree) in H.
    unfold LocalContext_ctor in H.
    destruct (props_producer_ props tt) as [actor|e0];
      [|inversion H; subst; reflexivity].
    simpl in H.
    destruct (post_system_message _ _ _) as [[[r1 mb1] evs1]|] eqn:Hpost;
      [|discriminate H].
    apply post_notifies_pushes_schedules_aux in Hpost as (rest & -> & Hk).
    destruct r1 as [[]|e]; inversion H; subst; clear H;
      rewrite ?lifecycle_cons, ?lifecycle_app, ?lifecycle_cons,
        (lifecycle_drain_events _ Hk);
      unfold lifecycle; rewrite !lifecycle_map_stat by reflexivity; reflexivity.
  - intros fuel name producer sys Hfree.
    unfold Actor_spawn_named, Props_spawn, Props_default_spawner.
    rewrite (try_add_absent _ _ _ Hfree). unfold LocalContext_ctor.
    cbn -[post_system_message].
    destruct (producer tt) as [actor|e0]; cbn -[post_system_message];
      [|eexists _, _, _; split; [reflexivity|auto]].
    destruct (default_mailbox_started fuel producer None actor)
      as (r & mb & evs & ctx & -> & Hi & Hc & Hr).
    destruct r as [[]|e]; eexists _, _, _; (split; [reflexivity|]);
      exists mb, ctx; cbn;
      rewrite ?invoked_app; cbn [invoked];
      rewrite ?invoked_map_stat by reflexivity;
      rewrite ?app_nil_r, lookup_app_r by lia; rewrite Nat.sub_diag; auto.
Qed.

End ContextFacts.

(** The theorem for a [Recorder]: a [Stop] changes nothing in a new
    context. *)
Lemma other_system_messages_are_ignored_witness :
  LocalContext_invoke_system_message StopMessage_instance
    (LocalContext_incarnated Recorder_producer None [])
  = (Returned tt, LocalContext_incarnated Recorder_producer None []).
Proof.
  apply (proj1 (other_system_messages_are_ignored (A := Recorder))). reflexivity.
Defined.

(** The theorem at the first spawn of a program. *)
Lemma started_is_received_witness :
  lifecycle (events_of (Props_default_spawner 2 "a" recorder_props None System_initial))
  = [EvRegisterHandlers; EvPushSystem StartedMessage_instance; EvStart].
Proof.
  eassert (H : Props_default_spawner 2 "a" recorder_props None System_initial
               = Some (Returned _, _, _)) by (vm_compute; reflexivity).
  exact (proj1 (proj2 (proj2 (proj2 (started_is_received (A := Recorder)))))
           2%nat "a" recorder_props None System_initial _ _ _ eq_refl H).
Defined.

(* ===================================================================== *)
(** ** Ownership of messages *)
(* ===================================================================== *)

Lemma Deleter_keeps m p destroyed :
  do_not_delete_ m = true -> ~ In m destroyed -> ~ In m (Deleter p destroyed).
Proof.
  intros Hm Hnot. destruct p as [m'|]; simpl; [|exact Hnot].
  destruct (do_not_delete_ m') eqn:Hm'; simpl; [exact Hnot|].
  intros [->|Hin]; [congruence|auto].
Qed.

(** C9, as the code has it.  The deleter does not destroy a message built
    with [do_not_delete = true]: the object is not among the destroyed ones
    however many owning pointers to it, and to other messages, are destroyed.
    [StartedMessage::instance()] and [StopMessage::instance()] return such
    messages.  [SuspendMailboxMessage] and [ResumeMailboxMessage] have no
    [instance()]: they are built with [do_not_delete = false], and the
    deleter destroys them. *)
Theorem sentinel_is_not_deleted :
  (forall m destroyed,
      do_not_delete_ m = true -> Deleter (Some m) destroyed = destroyed)
  /\ (forall m n destroyed,
        do_not_delete_ m = true ->
        Nat.iter n (Deleter (Some m)) destroyed = destroyed)
  /\ (forall m owners destroyed,
        do_not_delete_ m = true -> ~ In m destroyed ->
        ~ In m (destroy_owners owners destroyed))
  /\ do_not_delete_ StartedMessage_instance = true
  /\ do_not_delete_ StopMessage_instance = true
  /\ (forall m destroyed,
        do_not_delete_ m = false -> Deleter (Some m) destroyed = m :: destroyed)
  /\ do_not_delete_ new_SuspendMailboxMessage = false
  /\ do_not_delete_ new_ResumeMailboxMessage = false.
Proof.
  assert (H1 : forall m destroyed,
             do_not_delete_ m = true -> Deleter (Some m) destroyed = destroyed).
  { intros m destroyed Hm. simpl. rewrite Hm. reflexivity. }
  split; [exact H1|]. split.
  { intros m n destroyed Hm. induction n as [|n IH]; [reflexivity|].
    simpl in *. rewrite IH, Hm. reflexivity. }
  split.
  { intros m owners. unfold destroy_owners.
    induction owners as [|p owners IH]; intros destroyed Hm Hnot; [exact Hnot|].
    simpl. apply IH; [exact Hm|]. apply Deleter_keeps; assumption. }
  do 2 (split; [reflexivity|]).
  split; [|split; reflexivity].
  intros m destroyed Hm. simpl. rewrite Hm. reflexivity.
Qed.

(** C9 as stated fails for two of the four messages it names: a
    [SuspendMailboxMessage] and a [ResumeMailboxMessage] are not built with
    [do_not_delete = true], and the deleter destroys them when their owner
    goes away. *)
Lemma suspend_and_resume_are_deleted :
  do_not_delete_ new_SuspendMailboxMessage <> true
  /\ do_not_delete_ new_ResumeMailboxMessage <> true
  /\ Deleter (Some new_SuspendMailboxMessage) [] = [new_SuspendMailboxMessage]
  /\ Deleter (Some new_ResumeMailboxMessage) [] = [new_ResumeMailboxMessage]
  /\ destroy_owners
       (popped (events_of
                  (post_system_message 2 new_SuspendMailboxMessage
                     (recorder_mailbox [] SynchronousDispatcher)))) []
     = [new_SuspendMailboxMessage].
Proof. repeat split; try discriminate. Qed.

(** The theorem at [StartedMessage::instance()], sent three times to a
    mailbox and handled each time: destroying the pointers that the drain
    made does not destroy it. *)
Lemma sentinel_is_not_deleted_witness :
  invoked (events_of
             (post_all 2 (repeat (PostSystem StartedMessage_instance) 3)
                (recorder_mailbox [] SynchronousDispatcher)))
  = repeat StartedMessage_instance 3
  /\ ~ In StartedMessage_instance
         (destroy_owners
            (popped (events_of
                       (post_all 2 (repeat (PostSystem StartedMessage_instance) 3)
                          (recorder_mailbox [] SynchronousDispatcher)))) []).
Proof.
  split; [vm_compute; reflexivity|].
  apply (proj1 (proj2 (proj2 sentinel_is_not_deleted))); [reflexivity|intros []].
Defined.

(* ===================================================================== *)
(** ** Suspend and resume *)
(* ===================================================================== *)

Lemma suspended_through_cleared mid :
  suspended_through true mid = false ->
  exists rm, In (EvPopSystem (Some rm)) mid /\ is_ResumeMailboxMessage rm = true.
Proof.
  induction mid as [|e mid IH]; simpl; [discriminate|].
  destruct e as [| | | | | |[m|]| | | | | | | | | |]; simpl;
    try (intros H; destruct (IH H) as (rm & Hin & Hrm); eauto).
  unfold suspended_after_system.
  destruct (is_SuspendMailboxMessage m);
    [intros H; destruct (IH H) as (rm & Hin & Hrm); eauto|].
  destruct (is_ResumeMailboxMessage m) eqn:Hres;
    [eauto|intros H; destruct (IH H) as (rm & Hin & Hrm); eauto].
Qed.

Lemma suspension_respected_between suspended evs :
  suspension_respected suspended evs = true ->
  no_user_delivery_while_suspended evs.
Proof.
  intros H pre sm mid u post -> Hsm Hu.
  rewrite suspension_respected_app in H. apply andb_prop in H as [_ H].
  simpl in H. unfold suspended_after_system in H at 1. rewrite Hsm in H.
  rewrite suspension_respected_app in H. apply andb_prop in H as [_ H].
  apply suspended_through_cleared.
  destruct (suspended_through true mid); [|reflexivity].
  destruct u as [| | | | | | |r| | | | | | | | |]; simpl in *; discriminate.
Qed.

Section SuspendResume.
Context {I : Type} `{!IMessageInvoker I}.
Implicit Types (mb : DefaultMailbox I) (evs : list Event).

(** C3. In the events of any run of the drain, with the runs it
    reschedules, and in the events of any sequence of posts, a user message
    is popped or invoked after the pop of a [SuspendMailboxMessage] only when
    a [ResumeMailboxMessage] has been popped in between.  The pop of the one
    sets [suspended_], the pop of the other clears it, and [suspended_] is at
    any time what the popped system messages account for.  A suspended
    mailbox still pops and invokes the system message at the head of its
    system queue: the pass calls [invoke_system_message] with it on the
    bound invoker, leaves the invoker as the call leaves it, and ends as the
    call does.  The invocations among the events are calls of the invoker:
    the invoker is afterwards what these calls make of it, and an exception
    leaves the operation exactly when one of them throws something that is
    not a [std::exception]. *)
Theorem suspend_holds_back_user_messages :
  (forall fuel mb r mb' evs,
      run fuel mb = Some (r, mb', evs) ->
      no_user_delivery_while_suspended evs
      /\ suspension_respected (suspended_ mb) evs = true
      /\ suspended_ mb' = suspended_through (suspended_ mb) evs
      /\ forall inv, invoker_ mb = Some inv ->
                     invoker_ mb' = Some (replay evs inv)
                     /\ escaping inv evs = thrown r)
  /\ (forall fuel posts mb r mb' evs,
        post_all fuel posts mb = Some (r, mb', evs) ->
        no_user_delivery_while_suspended evs
        /\ suspension_respected (suspended_ mb) evs = true
        /\ suspended_ mb' = suspended_through (suspended_ mb) evs
        /\ forall inv, invoker_ mb = Some inv ->
                       invoker_ mb' = Some (replay evs inv)
                       /\ escaping inv evs = thrown r)
  /\ (forall m suspended,
        (is_SuspendMailboxMessage m = true ->
         suspended_after_system m suspended = true)
        /\ (is_ResumeMailboxMessage m = true ->
            suspended_after_system m suspended = false))
  /\ (forall mb m q inv,
        suspended_ mb = true -> system_messages_ mb = m :: q ->
        invoker_ mb = Some inv ->
        exists x mb' rest,
          iteration mb
          = Some (x, Some m, mb', EvPopSystem (Some m) :: EvInvokeSystem m :: rest)
          /\ system_messages_ mb' = q
          /\ user_mailbox_ mb' = user_mailbox_ mb
          /\ x <> Break
          /\ invoker_ mb' = Some (snd (invoke_system_message m inv))
          /\ x = exit_after (fst (invoke_system_message m inv))).
Proof.
  split; [|split; [|split]].
  - intros fuel mb r mb' evs H.
    pose proof (run_suspension _ _ _ _ _ H) as (Hr & Ht).
    do 3 (split; [eauto using suspension_respected_between|]).
    intros inv Hi. split; [exact (run_replay _ _ _ _ _ _ H Hi)|].
    exact (run_escaping _ _ _ _ _ _ H Hi).
  - intros fuel posts mb r mb' evs H.
    pose proof (post_all_suspension _ _ _ _ _ _ H) as (Hr & Ht).
    do 3 (split; [eauto using suspension_respected_between|]).
    intros inv Hi. split; [exact (post_all_replay _ _ _ _ _ _ _ H Hi)|].
    exact (post_all_escaping _ _ _ _ _ _ _ H Hi).
  - intros m suspended. unfold suspended_after_system. split; intros H.
    + rewrite H. reflexivity.
    + rewrite H. destruct m as [[] ?]; cbn in *; congruence.
  - intros mb m q inv Hsusp Hsys Hinv. unfold iteration. rewrite Hsys. simpl.
    rewrite Hinv.
    destruct (invoke_system_message m inv) as [[[]|e] inv']; simpl;
      eexists _, _, _; (split; [reflexivity|]); simpl; repeat split; discriminate.
Qed.

End SuspendResume.

(** The theorem at a new mailbox for a [Recorder] that is sent a suspend, a
    user message and a resume: the user message is held back until the
    resume has been popped. *)
Lemma suspend_holds_back_user_messages_witness :
  events_of
    (post_all 2 [PostSystem new_SuspendMailboxMessage; PostUser (new_Hello "a");
                 PostSystem new_ResumeMailboxMessage]
       (recorder_mailbox [] dispatcher3))
  = [EvPushSystem new_SuspendMailboxMessage; EvSchedule true; EvRun;
     EvPopSystem (Some new_SuspendMailboxMessage);
     EvInvokeSystem new_SuspendMailboxMessage;
     EvPopSystem None; EvIdle;
     EvPushUser (new_Hello "a"); EvSchedule true; EvRun; EvPopSystem None; EvIdle;
     EvPushSystem new_ResumeMailboxMessage; EvSchedule true; EvRun;
     EvPopSystem (Some new_ResumeMailboxMessage);
     EvInvokeSystem new_ResumeMailboxMessage;
     EvPopSystem None; EvPopUser (Some (new_Hello "a")); EvInvokeUser (new_Hello "a");
     EvPopSystem None; EvPopUser None; EvIdle]
  /\ no_user_delivery_while_suspended
       (events_of
          (post_all 2 [PostSystem new_SuspendMailboxMessage; PostUser (new_Hello "a");
                       PostSystem new_ResumeMailboxMessage]
             (recorder_mailbox [] dispatcher3))).
Proof.
  split; [vm_compute; reflexivity|].
  eassert (H : post_all 2 [PostSystem new_SuspendMailboxMessage; PostUser (new_Hello "a");
                           PostSystem new_ResumeMailboxMessage]
                 (recorder_mailbox [] dispatcher3) = Some (_, _, _))
    by (vm_compute; reflexivity).
  rewrite H.
  exact (proj1 (proj1 (proj2 suspend_holds_back_user_messages) _ _ _ _ _ _ H)).
Defined.

(* ===================================================================== *)
(** ** Throughput *)
(* ===================================================================== *)

(** C2, as the code has it.  A run hands at most [throughput()] messages to
    the invoker, and so does every run that it reschedules.  When
    [process_messages] has returned, [run] stores [Idle] and then calls
    [schedule] again if the system queue holds a message, or the mailbox is
    not suspended and the user queue holds one; otherwise it stops and tells
    the observers that the mailbox is empty.  With a positive throughput the
    rescheduling comes to an end, and when it does nothing that can be
    delivered is left.  With throughput 3 and ten queued user messages, one
    [schedule] makes four runs, of three, three, three and one message, and
    the actor has received the ten messages in order. *)
Theorem throughput_bounds_each_run :
  (forall (I : Type) (invoker : IMessageInvoker I) fuel (mb : DefaultMailbox I)
          d r mb' evs,
      dispatcher_ mb = Some d -> 0 <= throughput d ->
      run fuel mb = Some (r, mb', evs) ->
      Forall (fun seg => Z.of_nat (length (invoked seg)) <= throughput d) (runs evs)
      /\ exists fuel' rp mb1 evs1,
           fuel = S fuel' /\ process_messages mb = Some (rp, mb1, evs1)
           /\ (rp = Returned true ->
               (work_pending mb1 = true ->
                exists evs2,
                  run fuel' (set_status Busy mb1) = Some (r, mb', evs2)
                  /\ evs = EvRun :: evs1 ++ EvIdle :: EvSchedule true :: evs2)
               /\ (work_pending mb1 = false ->
                   r = Returned tt /\ mb' = set_status Idle mb1
                   /\ evs = EvRun :: evs1 ++ EvIdle
                                 :: map EvMailboxEmpty (stats_ mb1))))
  /\ (forall (I : Type) (invoker : IMessageInvoker I) fuel (mb : DefaultMailbox I) d,
        dispatcher_ mb = Some d -> 0 < throughput d -> is_Some (invoker_ mb) ->
        (length (system_messages_ mb) + length (user_mailbox_ mb) < fuel)%nat ->
        exists r mb' evs,
          run fuel mb = Some (r, mb', evs)
          /\ match r with
             | Returned _ =>
                 status_ mb' = Idle /\ work_pending mb' = false
                 /\ system_messages_ mb = invoked_system evs ++ system_messages_ mb'
                 /\ user_mailbox_ mb = invoked_user evs ++ user_mailbox_ mb'
             | Threw e => is_std_exception e = false
             end)
  /\ (exists mb' evs ctx,
        schedule 4 ten_queued = Some (Returned tt, mb', evs)
        /\ map invoked (runs evs)
           = [map numbered [0; 1; 2]; map numbered [3; 4; 5];
              map numbered [6; 7; 8]; map numbered [9]]%nat
        /\ user_mailbox_ mb' = []
        /\ invoker_ mb' = Some ctx
        /\ actor_ ctx = map numbered (seq 0 10)).
Proof.
  split; [|split].
  - intros I invoker fuel mb d r mb' evs Hdisp Hpos Hrun. split.
    + destruct (run_bounded _ _ _ _ _ _ Hdisp Hrun) as (_ & Hall).
      eapply Forall_impl; [exact Hall|]. simpl. intros seg Hseg. lia.
    + apply run_inv in Hrun as (fuel' & rp & mb1 & evs1 & -> & Hpm & Hcases).
      exists fuel', rp, mb1, evs1. split; [reflexivity|]. split; [exact Hpm|].
      intros ->.
      destruct Hcases as [(e & [=] & _)
                         |[(_ & Hw & -> & -> & ->)|(_ & Hw & evs2 & Hrun & ->)]].
      * split; [congruence|auto].
      * split; [eauto|congruence].
  - intros I invoker fuel mb d Hdisp Hpos Hinv Hlen.
    destruct (run_terminates fuel mb d Hdisp Hpos Hinv Hlen) as [[[r mb'] evs] Hrun].
    exists r, mb', evs. split; [exact Hrun|].
    pose proof (run_final _ _ _ _ _ Hrun) as Hfin.
    pose proof (run_conservation _ _ _ _ _ Hrun) as (Hs & Hu).
    destruct r as [[]|e]; [|apply Hfin].
    destruct Hfin as (Hst & Hw). auto.
  - eexists _, _, _. vm_compute. repeat split.
Qed.

(** C2 as stated fails: a suspended mailbox that is sent a user message runs
    once, stores [Idle] and stops.  The message remains in the user queue,
    and the run does not call [schedule] again. *)
Lemma suspended_run_is_not_rescheduled :
  exists mb',
    suspended_ suspended_mailbox = true
    /\ post_user_message 2 (new_Hello "a") suspended_mailbox
       = Some (Returned tt, mb',
               [EvPushUser (new_Hello "a"); EvSchedule true; EvRun;
                EvPopSystem None; EvIdle])
    /\ user_mailbox_ mb' = [new_Hello "a"]
    /\ status_ mb' = Idle.
Proof. eexists. vm_compute. repeat split. Qed.

(** The theorem at the mailbox with ten queued messages: no run of the four
    hands more than three messages to the invoker. *)
Lemma throughput_bounds_each_run_witness :
  Forall (fun seg => Z.of_nat (length (invoked seg)) <= 3)
         (runs (events_of (run 4 (set_status Busy ten_queued)))).
Proof.
  eassert (H : run 4 (set_status Busy ten_queued) = Some (_, _, _))
    by (vm_compute; reflexivity).
  rewrite H.
  exact (proj1 (proj1 throughput_bounds_each_run _ _ 4%nat
                  (set_status Busy ten_queued) dispatcher3 _ _ _
                  eq_refl ltac:(vm_compute; discriminate) H)).
Defined.

(* ===================================================================== *)
(** ** Exceptions of the invoker *)
(* ===================================================================== *)

Lemma quiet_no_throw evs e :
  forallb quiet evs = true -> ~ In (EvThrow e) evs.
Proof.
  intros Hq Hin. rewrite forallb_forall in Hq. specialize (Hq _ Hin). discriminate.
Qed.

Lemma throw_in_tail pre a e0 tail e :
  forallb quiet pre = true -> is_invoke a = true ->
  (forall x, In x tail -> x <> EvThrow e) ->
  In (EvThrow e) (pre ++ a :: EvThrow e0 :: tail) -> e = e0.
Proof.
  intros Hq Ha Htail Hin. apply in_app_or in Hin as [Hin|[Hin|[Hin|Hin]]].
  - exfalso. exact (quiet_no_throw _ _ Hq Hin).
  - subst a. discriminate.
  - congruence.
  - exfalso. exact (Htail _ Hin eq_refl).
Qed.

Section InvokerExceptions.
Context {I : Type} `{!IMessageInvoker I}.
Implicit Types (mb : DefaultMailbox I) (evs : list Event).

(** C5, as the code has it.  When an invoker call of a drain pass throws an
    exception derived from [std::exception], the pass ends there:
    [escalate_failure] is called with the exception and the message that was
    being invoked, and [process_messages] returns.  [run] then stores [Idle]
    and calls [schedule] again exactly when the system queue holds a message,
    or the mailbox is not suspended and the user queue holds one.  With a
    positive throughput the run comes to an end; unless an exception that is
    not a [std::exception] leaves it, the mailbox is then idle and every
    message that was queued has been handed to the invoker, or is a user
    message held back by a suspension.  [LocalContext::escalate_failure]
    leaves the context as it is. *)
Theorem std_exception_is_escalated mb rp mb1 evs1 e :
  process_messages mb = Some (rp, mb1, evs1) ->
  In (EvThrow e) evs1 ->
  is_std_exception e = true ->
  (exists pre m inv,
      forallb quiet pre = true
      /\ (evs1 = pre ++ [EvInvokeSystem m; EvThrow e; EvEscalateFailure e (Some m)]
          \/ evs1 = pre ++ [EvInvokeUser m; EvThrow e; EvEscalateFailure e (Some m)])
      /\ invoker_ mb1 = Some (escalate_failure e (Some m) inv))
  /\ rp = Returned true
  /\ (forall fuel,
        run (S fuel) mb
        = if work_pending mb1
          then match run fuel (set_status Busy mb1) with
               | Some (r, mb', evs2) =>
                   Some (r, mb', EvRun :: evs1 ++ EvIdle :: EvSchedule true :: evs2)
               | None => None
               end
          else Some (Returned tt, set_status Idle mb1,
                     EvRun :: evs1 ++ EvIdle :: map EvMailboxEmpty (stats_ mb1)))
  /\ (forall d fuel,
        dispatcher_ mb = Some d -> 0 < throughput d -> is_Some (invoker_ mb) ->
        (length (system_messages_ mb) + length (user_mailbox_ mb) < fuel)%nat ->
        exists r mb' evs,
          run fuel mb = Some (r, mb', evs)
          /\ match r with
             | Returned _ =>
                 status_ mb' = Idle /\ work_pending mb' = false
                 /\ system_messages_ mb = invoked_system evs ++ system_messages_ mb'
                 /\ user_mailbox_ mb = invoked_user evs ++ user_mailbox_ mb'
             | Threw e' => is_std_exception e' = false
             end)
  /\ (forall (A : Type) (actor : IActor A) reason message (ctx : LocalContext A),
        LocalContext_escalate_failure reason message ctx = ctx).
Proof.
  intros Hpm Hin Hstd.
  assert (Hshape :
    (exists pre m inv,
        forallb quiet pre = true
        /\ (evs1 = pre ++ [EvInvokeSystem m; EvThrow e; EvEscalateFailure e (Some m)]
            \/ evs1 = pre ++ [EvInvokeUser m; EvThrow e; EvEscalateFailure e (Some m)])
        /\ invoker_ mb1 = Some (escalate_failure e (Some m) inv))
    /\ rp = Returned true).
  { destruct (process_messages_throw _ _ _ _ Hpm)
      as [(_ & Hq)|[(e0 & m & pre & inv & Hstd0 & -> & Hq & Hev & Hi)
                   |(e0 & m & pre & Hstd0 & _ & Hq & Hev)]].
    - exfalso. exact (quiet_no_throw _ _ Hq Hin).
    - assert (e = e0) as ->.
      { destruct Hev as [-> | ->];
          (refine (throw_in_tail _ _ _ _ _ Hq _ _ Hin); [reflexivity|]);
          intros x [<-|[]]; discriminate. }
      split; [|reflexivity]. exists pre, m, inv. auto.
    - assert (e = e0) as ->.
      { destruct Hev as [-> | ->];
          (refine (throw_in_tail _ _ _ _ _ Hq _ _ Hin); [reflexivity|]);
          intros x []. }
      congruence. }
  destruct Hshape as (Hshape & ->).
  split; [exact Hshape|]. split; [reflexivity|]. split; [|split].
  - intros fuel. simpl. rewrite Hpm. simpl. rewrite work_pending_set_status.
    destruct (work_pending mb1); [|reflexivity].
    unfold schedule_with. simpl.
    pose proof (process_messages_frame _ _ _ _ Hpm) as (Hd & _).
    assert (Hsome : is_Some (dispatcher_ mb)).
    { unfold process_messages in Hpm. destruct (dispatcher_ mb); [eauto|discriminate]. }
    rewrite Hd. destruct Hsome as [d ->].
    change (set_status Busy (set_status Idle mb1)) with (set_status Busy mb1).
    destruct (run fuel (set_status Busy mb1)) as [[[r mb'] evs2]|]; reflexivity.
  - intros d fuel Hdisp Hpos Hinv Hlen.
    destruct (run_terminates fuel mb d Hdisp Hpos Hinv Hlen) as [[[r mb'] evs] Hrun].
    exists r, mb', evs. split; [exact Hrun|].
    pose proof (run_final _ _ _ _ _ Hrun) as Hfin.
    pose proof (run_conservation _ _ _ _ _ Hrun) as (Hs & Hu).
    destruct r as [[]|e']; [|apply Hfin].
    destruct Hfin as (Hst & Hw). auto.
  - reflexivity.
Qed.

End InvokerExceptions.

(** C5 as stated fails for an exception that is not a [std::exception]: when
    the actor throws an [int], no handler of the drain catches it.
    [escalate_failure] is not called, the status stays [Busy], and the
    exception reaches the caller of [post_user_message].  A message posted
    afterwards is queued and never delivered, as every later [schedule] finds
    the mailbox busy. *)
Lemma non_std_throw_is_not_caught :
  exists mb1 mb2,
    post_user_message 2 new_ThrowInt (recorder_mailbox [] SynchronousDispatcher)
    = Some (Threw (non_std_throw "42"), mb1,
            [EvPushUser new_ThrowInt; EvSchedule true; EvRun; EvPopSystem None;
             EvPopUser (Some new_ThrowInt); EvInvokeUser new_ThrowInt;
             EvThrow (non_std_throw "42")])
    /\ status_ mb1 = Busy
    /\ post_user_message 2 (new_Hello "a") mb1
       = Some (Returned tt, mb2, [EvPushUser (new_Hello "a"); EvSchedule false])
    /\ user_mailbox_ mb2 = [new_Hello "a"]
    /\ status_ mb2 = Busy.
Proof. eexists _, _. vm_compute. repeat split. Qed.

(** The theorem at a mailbox whose actor throws a [std::runtime_error] on
    the first of two queued messages: the failure is escalated, and the
    second message is delivered by the run that is scheduled next. *)
Lemma std_exception_is_escalated_witness :
  run 3 (set_status Busy
           (set_user_mailbox [new_Fail; new_Hello "a"]
              (recorder_mailbox [] SynchronousDispatcher)))
  = match run 2 (set_status Busy
                   (mailbox_after (recorder_mailbox [] SynchronousDispatcher)
                      (process_messages
                         (set_status Busy
                            (set_user_mailbox [new_Fail; new_Hello "a"]
                               (recorder_mailbox [] SynchronousDispatcher))))))
    with
    | Some (r, mb', evs2) =>
        Some (r, mb',
              EvRun :: [EvPopSystem None; EvPopUser (Some new_Fail);
                        EvInvokeUser new_Fail; EvThrow (std_exception "failed");
                        EvEscalateFailure (std_exception "failed") (Some new_Fail)]
              ++ EvIdle :: EvSchedule true :: evs2)
    | None => None
    end
  /\ invoked (events_of
                (run 3 (set_status Busy
                          (set_user_mailbox [new_Fail; new_Hello "a"]
                             (recorder_mailbox [] SynchronousDispatcher)))))
     = [new_Fail; new_Hello "a"].
Proof.
  split; [|vm_compute; reflexivity].
  eassert (H : process_messages
                 (set_status Busy
                    (set_user_mailbox [new_Fail; new_Hello "a"]
                       (recorder_mailbox [] SynchronousDispatcher)))
               = Some (_, _, _)) by (vm_compute; reflexivity).
  exact (proj1 (proj2 (proj2
           (std_exception_is_escalated _ _ _ _ (std_exception "failed") H
              ltac:(vm_compute; tauto) eq_refl))) 2%nat).
Defined.

(* ===================================================================== *)
(** ** Stopped processes *)
(* ===================================================================== *)

(** A [tell] on a PID whose id the registry maps to a stopped
    [LocalProcess]: the message is posted to the mailbox of that process,
    whether the PID had cached the process or not. *)
Lemma tell_stopped_posts {A : Type} `{!IActor A} fuel message pid (sys : System A) addr :
  local_actor_refs_ (registry sys) !! pid_id_ pid = Some (LocalProcess addr true) ->
  process_ pid = None \/ process_ pid = Some (registered (pid_id_ pid)) ->
  exists pid',
    pid_id_ pid' = pid_id_ pid
    /\ ProcessRegistry_get (registry sys) pid' = registered (pid_id_ pid)
    /\ PID_tell fuel message pid sys
       = match mailboxes sys !! addr with
         | Some mb =>
             match post_user_message fuel message mb with
             | Some (r, mb', evs) => Some (r, pid', set_mailbox addr mb' sys, evs)
             | None => None
             end
         | None => None
         end.
Proof.
  intros Hreg Hcache. destruct pid as [a i c]. simpl in *.
  unfold PID_tell, PID_ref, Process_send_user_message, ProcessRegistry_get, deref.
  destruct Hcache as [-> | ->]; simpl; rewrite !Hreg; simpl; rewrite ?Hreg;
    (eexists; split; [|split; [|destruct (mailboxes sys !! addr);
       [destruct (post_user_message _ _ _) as [[[? ?] ?]|]|]; reflexivity]]);
    simpl; rewrite ?Hreg; reflexivity.
Qed.

(** [stop] on a registered [LocalProcess] posts [Stop], sets the flag of the
    process and leaves it in the registry. *)
Lemma stop_marks_dead {A : Type} `{!IActor A} fuel key (sys : System A) addr dead
    sys' evs :
  local_actor_refs_ (registry sys) !! key = Some (LocalProcess addr dead) ->
  Process_stop fuel (registered key) sys = Some (Returned tt, sys', evs) ->
  local_actor_refs_ (registry sys') !! key = Some (LocalProcess addr true)
  /\ In (EvPushSystem StopMessage_instance) evs.
Proof.
  intros Hreg. unfold Process_stop, Process_send_system_message, deref.
  rewrite Hreg. destruct (mailboxes sys !! addr) as [mb|]; [|discriminate].
  destruct (post_system_message fuel StopMessage_instance mb)
    as [[[[[]|e] mb1] evs1]|] eqn:Hpost; try discriminate.
  simpl. rewrite Hreg. intros [= <- <-]. simpl. split; [apply lookup_insert_eq|].
  apply post_notifies_pushes_schedules_aux in Hpost as (rest & -> & _).
  apply in_or_app. right. left. reflexivity.
Qed.

(** C1 on the code.  Once [LocalProcess::stop] has returned, the registry
    still maps the id to the process, now dead.  [PID::ref] drops a cached
    pointer to it and returns null, the registry resolves the PID to the
    stopped [LocalProcess] and not to the [DeadLetterProcess], and [tell]
    posts the message to the mailbox of the stopped actor.  In the program
    that spawns an actor, sends it a message, stops its process and sends it
    a second message, the actor receives the second message. *)
Theorem tell_after_stop_is_delivered :
  (forall (A : Type) (actor : IActor A) fuel fuel' message pid (sys : System A)
          addr dead sys' evs,
      local_actor_refs_ (registry sys) !! pid_id_ pid = Some (LocalProcess addr dead) ->
      process_ pid = None \/ process_ pid = Some (registered (pid_id_ pid)) ->
      Process_stop fuel (ProcessRegistry_get (registry sys) pid) sys
      = Some (Returned tt, sys', evs) ->
      exists pid',
        deref sys' (ProcessRegistry_get (registry sys') pid')
        = Some (LocalProcess addr true)
        /\ PID_tell fuel' message pid sys'
           = match mailboxes sys' !! addr with
             | Some mb =>
                 match post_user_message fuel' message mb with
                 | Some (r, mb', evs') =>
                     Some (r, pid', set_mailbox addr mb' sys', evs')
                 | None => None
                 end
             | None => None
             end)
  /\ tell_after_stop
     = Some ({| pid_address_ := "nonhost"; pid_id_ := "a";
                process_ := Some (registered "a") |},
             None,
             registered "a",
             Some (LocalProcess 0 true),
             [EvPushUser (new_Hello "second"); EvSchedule true; EvRun;
              EvPopSystem None; EvPopUser (Some (new_Hello "second"));
              EvInvokeUser (new_Hello "second");
              EvPopSystem None; EvPopUser None; EvIdle],
             [StartedMessage_instance; new_Hello "first"; new_Hello "second"]).
Proof.
  split; [|vm_compute; reflexivity].
  intros A actor fuel fuel' message pid sys addr dead sys' evs Hreg Hcache Hstop.
  unfold ProcessRegistry_get in Hstop at 1. rewrite Hreg in Hstop.
  destruct (stop_marks_dead _ _ _ _ _ _ _ Hreg Hstop) as (Hdead & _).
  destruct (tell_stopped_posts fuel' message pid sys' addr Hdead Hcache)
    as (pid' & Hid & Hget & Htell).
  exists pid'. split; [|exact Htell].
  rewrite Hget. simpl. exact Hdead.
Qed.

(* ===================================================================== *)
(** ** The order of delivery *)
(* ===================================================================== *)

Lemma suspended_after_all_app a b s :
  suspended_after_all (a ++ b) s = suspended_after_all b (suspended_after_all a s).
Proof. apply fold_left_app. Qed.

Lemma drains_app {I : Type} (mb mb1 mb2 : DefaultMailbox I) a b :
  drains mb a mb1 -> drains mb1 b mb2 -> drains mb (a ++ b) mb2.
Proof.
  intros (Hs & Hu & Hf & Ho & Hl) (Hs' & Hu' & Hf' & Ho' & Hl').
  unfold drains.
  rewrite invoked_app, invoked_system_app, invoked_user_app, suspended_after_all_app.
  split; [rewrite Hs, Hs', app_assoc; reflexivity|].
  split; [rewrite Hu, Hu', app_assoc; reflexivity|].
  split; [rewrite Hf', Hf; reflexivity|].
  destruct (invoked_user a) as [|u ua].
  - rewrite Ho, Ho', !app_nil_r, app_assoc. split; [reflexivity|exact Hl'].
  - destruct Hl as (Hn & Hsf); [discriminate|].
    rewrite Hn in Hs'. symmetry in Hs'. apply app_eq_nil in Hs' as (Hb & Hn').
    rewrite Hb in *. simpl in Ho'. rewrite Ho, Ho', app_nil_r, <- app_assoc.
    split; [reflexivity|]. intros _. split; [exact Hn'|].
    rewrite Hf'. exact Hsf.
Qed.

(** [drains] looks at the invocations among the events only. *)
Lemma drains_events {I : Type} (mb mb' : DefaultMailbox I) evs evs' :
  invoked evs' = invoked evs ->
  invoked_system evs' = invoked_system evs ->
  invoked_user evs' = invoked_user evs ->
  drains mb evs mb' -> drains mb evs' mb'.
Proof. unfold drains. intros -> -> ->. auto. Qed.

Section DeliveryOrder.
Context {I : Type} `{!IMessageInvoker I}.
Implicit Types (mb : DefaultMailbox I) (evs : list Event).

Lemma iteration_drains mb x message mb' evs :
  iteration mb = Some (x, message, mb', evs) -> drains mb evs mb'.
Proof.
  intros H. iteration_cases H; unfold drains; simpl;
    rewrite ?invoked_app, ?invoked_system_app, ?invoked_user_app; simpl;
    rewrite ?invoked_map_stat, ?invoked_system_map_stat, ?invoked_user_map_stat
      by reflexivity;
    simpl; repeat split; auto; congruence.
Qed.

Lemma for_loop_drains n message mb r message' mb' evs :
  for_loop n message mb = Some (r, message', mb', evs) -> drains mb evs mb'.
Proof.
  revert message mb r message' mb' evs.
  induction n as [|n IH]; intros message mb r message' mb' evs H.
  - inversion H; subst. unfold drains. simpl. repeat split; auto; congruence.
  - for_loop_step H; eauto using iteration_drains, drains_app.
Qed.

Lemma process_messages_drains mb r mb' evs :
  process_messages mb = Some (r, mb', evs) -> drains mb evs mb'.
Proof.
  intros H. pm_cases H; apply for_loop_drains in Hloop; auto.
  eapply drains_events; [| | |exact Hloop];
    rewrite ?invoked_app, ?invoked_system_app, ?invoked_user_app; simpl;
    apply app_nil_r.
Qed.

Lemma run_drains fuel mb r mb' evs :
  run fuel mb = Some (r, mb', evs) -> drains mb evs mb'.
Proof.
  revert mb r mb' evs. induction fuel as [|fuel IH]; intros mb r mb' evs H;
    [discriminate|].
  apply run_inv in H as (fuel' & rp & mb1 & evs1 & Hf & Hpm & Hcases).
  injection Hf as <-.
  apply process_messages_drains in Hpm.
  destruct Hcases as [(e & _ & _ & -> & ->)
                     |[(_ & _ & _ & -> & ->)|(_ & _ & evs2 & Hrun & ->)]].
  - exact Hpm.
  - eapply drains_events; [| | |exact Hpm]; simpl;
      rewrite ?invoked_app, ?invoked_system_app, ?invoked_user_app; simpl;
      rewrite ?invoked_map_stat, ?invoked_system_map_stat, ?invoked_user_map_stat
        by reflexivity;
      apply app_nil_r.
  - apply IH in Hrun.
    eapply drains_events; [| | |exact (drains_app mb mb1 mb' _ _ Hpm Hrun)]; simpl;
      rewrite ?invoked_app, ?invoked_system_app, ?invoked_user_app; reflexivity.
Qed.

(** A run that returns has nothing left that can be delivered: the system
    queue is empty, and so is the user queue unless the mailbox is
    suspended. *)
Lemma run_delivers fuel mb mb' evs :
  run fuel mb = Some (Returned tt, mb', evs) ->
  invoked evs
  = system_messages_ mb
    ++ (if suspended_after_all (system_messages_ mb) (suspended_ mb)
        then [] else user_mailbox_ mb)
  /\ status_ mb' = Idle
  /\ system_messages_ mb' = []
  /\ user_mailbox_ mb'
     = (if suspended_after_all (system_messages_ mb) (suspended_ mb)
        then user_mailbox_ mb else [])
  /\ suspended_ mb' = suspended_after_all (system_messages_ mb) (suspended_ mb).
Proof.
  intros H. pose proof (run_final _ _ _ _ _ H) as (Hst & Hw).
  apply run_drains in H as (Hs & Hu & Hf & Ho & Hl).
  unfold work_pending in Hw. apply orb_false_elim in Hw as (Hw1 & Hw2).
  destruct (system_messages_ mb') as [|? ?] eqn:Hs'; [|discriminate].
  rewrite app_nil_r in Hs. rewrite <- Hs in *. rewrite <- Hf.
  destruct (suspended_ mb') eqn:Hsusp.
  - destruct (invoked_user evs) as [|u us].
    + rewrite Ho, Hu. auto.
    + destruct Hl as (_ & Hl); [discriminate|discriminate].
  - destruct (user_mailbox_ mb') as [|? ?]; [|discriminate].
    rewrite app_nil_r in Hu. rewrite Ho, Hu. auto.
Qed.

End DeliveryOrder.

(* ===================================================================== *)
(** ** Invokers that throw nothing but [std::exception]s *)
(* ===================================================================== *)

Section StdOnly.
Context {I : Type} `{!IMessageInvoker I}.
Implicit Types (mb : DefaultMailbox I) (evs : list Event).
Hypothesis system_std : forall m i e,
  fst (invoke_system_message m i) = Threw e -> is_std_exception e = true.
Hypothesis user_std : forall m i e,
  fst (invoke_user_message m i) = Threw e -> is_std_exception e = true.

Lemma iteration_std mb e message mb' evs :
  iteration mb = Some (Unwind e, message, mb', evs) -> is_std_exception e = true.
Proof.
  intros H. iteration_cases H.
  - apply (user_std m inv). rewrite Hcall. reflexivity.
  - apply (system_std m inv). rewrite Hcall. reflexivity.
Qed.

Lemma for_loop_std n message mb e message' mb' evs :
  for_loop n message mb = Some (Some e, message', mb', evs) ->
  is_std_exception e = true.
Proof.
  revert message mb message' mb' evs.
  induction n as [|n IH]; intros message mb message' mb' evs H; [discriminate|].
  for_loop_step H; eauto using iteration_std.
Qed.

Lemma process_messages_std mb r mb' evs :
  process_messages mb = Some (r, mb', evs) -> r = Returned true.
Proof.
  intros H. pm_cases H; auto.
  apply for_loop_std in Hloop. congruence.
Qed.

Lemma run_std fuel mb r mb' evs :
  run fuel mb = Some (r, mb', evs) -> r = Returned tt.
Proof.
  revert mb r mb' evs. induction fuel as [|fuel IH]; intros mb r mb' evs H;
    [discriminate|].
  apply run_inv in H as (fuel' & rp & mb1 & evs1 & Hf & Hpm & Hcases).
  injection Hf as <-.
  apply process_messages_std in Hpm.
  destruct Hcases as [(e & -> & _)|[(_ & _ & -> & _)|(_ & _ & evs2 & Hrun & _)]];
    [discriminate|reflexivity|eauto].
Qed.

(** Nothing escapes from such an invoker. *)
Lemma escaping_std evs (i : I) : escaping i evs = None.
Proof.
  revert i. induction evs as [|e evs IH]; intros i; [reflexivity|].
  simpl. destruct e; simpl; try apply IH.
  - destruct (fst (invoke_system_message m i)) as [[]|x] eqn:Hr; simpl; [apply IH|].
    rewrite (system_std _ _ _ Hr). apply IH.
  - destruct (fst (invoke_user_message m i)) as [[]|x] eqn:Hr; simpl; [apply IH|].
    rewrite (user_std _ _ _ Hr). apply IH.
Qed.

Lemma post_std fuel p mb r mb' evs :
  post fuel p mb = Some (r, mb', evs) -> r = Returned tt.
Proof.
  destruct p as [m|m]; simpl; unfold post_system_message, post_user_message;
    intros H;
    destruct (schedule _ _) as [[[r1 mb1] evs1]|] eqn:Hs; try discriminate H;
    inversion H; subst; clear H;
    (apply schedule_inv in Hs as [(_ & -> & _)|(_ & evs2 & Hrun & _)];
     [reflexivity|eauto using run_std]).
Qed.

End StdOnly.

(* ===================================================================== *)
(** ** Posts to a busy and to an idle mailbox *)
(* ===================================================================== *)

Lemma invoked_nil_system evs : invoked evs = [] -> invoked_system evs = [].
Proof.
  induction evs as [|e evs IH]; [reflexivity|].
  destruct e; simpl; auto; discriminate.
Qed.

Lemma invoked_nil_user evs : invoked evs = [] -> invoked_user evs = [].
Proof.
  induction evs as [|e evs IH]; [reflexivity|].
  destruct e; simpl; auto; discriminate.
Qed.

Lemma invoked_no_user evs : invoked_user evs = [] -> invoked_system evs = invoked evs.
Proof.
  induction evs as [|e evs IH]; [reflexivity|].
  destruct e; simpl; auto; [intros H; f_equal; auto|discriminate].
Qed.

Lemma pushed_system_app a b :
  pushed_system (a ++ b) = pushed_system a ++ pushed_system b.
Proof.
  induction a as [|e a IH]; [reflexivity|].
  destruct e; simpl; rewrite ?IH; reflexivity.
Qed.

Lemma pushed_user_app a b : pushed_user (a ++ b) = pushed_user a ++ pushed_user b.
Proof.
  induction a as [|e a IH]; [reflexivity|].
  destruct e; simpl; rewrite ?IH; reflexivity.
Qed.

Lemma popped_app a b : popped (a ++ b) = popped a ++ popped b.
Proof.
  induction a as [|e a IH]; [reflexivity|].
  destruct e; simpl; rewrite ?IH; reflexivity.
Qed.

(** The drain pushes nothing. *)
Lemma drain_events_push_nothing evs :
  forallb is_drain_event evs = true -> pushed_system evs = [] /\ pushed_user evs = [].
Proof.
  induction evs as [|e evs IH]; [auto|].
  simpl. intros H. apply andb_prop in H as [He H].
  destruct e; simpl; auto; discriminate.
Qed.

Lemma posted_events_read (m : Message) stats :
  invoked (map (fun stat => EvMessagePosted stat m) stats) = []
  /\ invoked_system (map (fun stat => EvMessagePosted stat m) stats) = []
  /\ invoked_user (map (fun stat => EvMessagePosted stat m) stats) = []
  /\ popped (map (fun stat => EvMessagePosted stat m) stats) = []
  /\ pushed_system (map (fun stat => EvMessagePosted stat m) stats) = []
  /\ pushed_user (map (fun stat => EvMessagePosted stat m) stats) = [].
Proof. induction stats as [|s stats IH]; simpl; [repeat split|exact IH]. Qed.

Section PostFacts.
Context {I : Type} `{!IMessageInvoker I}.
Implicit Types (mb : DefaultMailbox I) (evs : list Event) (p : Post).

(** A post is the notifications, the push and [schedule]. *)
Lemma post_inv fuel p mb r mb' evs :
  post fuel p mb = Some (r, mb', evs) ->
  exists m posted evs1,
    schedule fuel (enqueue p mb) = Some (r, mb', evs1)
    /\ posted = map (fun stat => EvMessagePosted stat m) (stats_ mb)
    /\ ((p = PostSystem m /\ evs = posted ++ EvPushSystem m :: evs1)
        \/ (p = PostUser m /\ evs = posted ++ EvPushUser m :: evs1)).
Proof.
  destruct p as [m|m]; simpl; unfold post_system_message, post_user_message;
    intros H;
    destruct (schedule _ _) as [[[r1 mb1] evs1]|] eqn:Hs; try discriminate H;
    inversion H; subst; clear H; eexists m, _, evs1; eauto.
Qed.

(** The CAS of [schedule] fails on a busy mailbox: the post leaves the
    message in its queue and returns. *)
Lemma post_busy fuel p mb :
  status_ mb = Busy ->
  exists evs,
    post fuel p mb = Some (Returned tt, enqueue p mb, evs)
    /\ invoked evs = [] /\ popped evs = [] /\ In (EvSchedule false) evs.
Proof.
  intros Hst.
  destruct p as [m|m]; simpl; unfold post_system_message, post_user_message,
    schedule, schedule_with; simpl; rewrite Hst;
    (eexists; split; [reflexivity|]);
    destruct (posted_events_read m (stats_ mb)) as (Hi & _ & _ & Hp & _);
    rewrite invoked_app, popped_app, Hi, Hp; simpl;
    (repeat split; auto); apply in_or_app; right; right; left; reflexivity.
Qed.

(** The CAS succeeds on an idle mailbox: the post runs the drain inline. *)
Lemma post_idle fuel p mb r mb' evs :
  status_ mb = Idle ->
  post fuel p mb = Some (r, mb', evs) ->
  exists evs1,
    run fuel (set_status Busy (enqueue p mb)) = Some (r, mb', evs1)
    /\ invoked evs = invoked evs1
    /\ invoked_system evs = invoked_system evs1
    /\ invoked_user evs = invoked_user evs1
    /\ forall i, replay evs i = replay evs1 i.
Proof.
  intros Hst H. apply post_inv in H as (m & posted & evs1 & Hs & -> & Hev).
  apply schedule_inv in Hs as [(Hb & _)|(_ & evs2 & Hrun & ->)].
  { destruct p; simpl in Hb; congruence. }
  exists evs2. split; [exact Hrun|].
  destruct (posted_events_read m (stats_ mb)) as (Hi & His & Hiu & _).
  assert (Hrep : forall i,
            replay (map (fun stat => EvMessagePosted stat m) (stats_ mb)) i = i)
    by (intros i; apply replay_map_stat; reflexivity).
  destruct Hev as [(_ & ->)|(_ & ->)];
    rewrite invoked_app, invoked_system_app, invoked_user_app, Hi, His, Hiu;
    simpl; repeat split; auto; intros i; rewrite replay_app, Hrep; reflexivity.
Qed.

Lemma post_frame fuel p mb r mb' evs :
  post fuel p mb = Some (r, mb', evs) ->
  dispatcher_ mb' = dispatcher_ mb /\ stats_ mb' = stats_ mb.
Proof.
  intros H. apply post_inv in H as (m & posted & evs1 & Hs & _ & _).
  apply schedule_inv in Hs as [(_ & _ & -> & _)|(_ & evs2 & Hrun & _)].
  - destruct p; auto.
  - apply run_frame in Hrun as (-> & -> & _). destruct p; auto.
Qed.

(** With a positive throughput and enough fuel for the queued messages, a
    post to an idle mailbox has a result. *)
Lemma post_idle_returns fuel p mb d :
  status_ mb = Idle -> dispatcher_ mb = Some d -> 0 < throughput d ->
  is_Some (invoker_ mb) ->
  (length (system_messages_ mb) + length (user_mailbox_ mb) + 1 < fuel)%nat ->
  is_Some (post fuel p mb).
Proof.
  intros Hst Hd Hpos Hi Hlen.
  assert (is_Some (run fuel (set_status Busy (enqueue p mb))))
    as [[[r mb'] evs] Hrun].
  { apply (run_terminates _ _ d); destruct p; simpl; auto;
      unfold push; rewrite length_app; simpl; lia. }
  destruct p as [m|m]; simpl in *;
    unfold post_system_message, post_user_message, schedule, schedule_with;
    simpl; rewrite Hst, Hd, Hrun; eauto.
Qed.

(** A post to an idle mailbox that returns has delivered what could be
    delivered: the system messages in order, and then, unless the mailbox is
    suspended after them, the user messages in order. *)
Lemma post_delivers fuel p mb mb' evs :
  status_ mb = Idle ->
  post fuel p mb = Some (Returned tt, mb', evs) ->
  invoked evs
  = system_messages_ (enqueue p mb)
    ++ (if suspended_after_all (system_messages_ (enqueue p mb)) (suspended_ mb)
        then [] else user_mailbox_ (enqueue p mb))
  /\ status_ mb' = Idle
  /\ system_messages_ mb' = []
  /\ user_mailbox_ mb'
     = (if suspended_after_all (system_messages_ (enqueue p mb)) (suspended_ mb)
        then user_mailbox_ (enqueue p mb) else [])
  /\ suspended_ mb'
     = suspended_after_all (system_messages_ (enqueue p mb)) (suspended_ mb).
Proof.
  intros Hst H. apply (post_idle _ _ _ _ _ _ Hst) in H as (evs1 & Hrun & -> & _).
  apply run_delivers in Hrun. destruct p; exact Hrun.
Qed.

(** An exception that leaves a post leaves the mailbox busy. *)
Lemma post_threw fuel p mb e mb' evs :
  post fuel p mb = Some (Threw e, mb', evs) ->
  status_ mb' = Busy /\ is_std_exception e = false.
Proof.
  intros H. destruct (status_ mb) eqn:Hst.
  - apply (post_idle _ _ _ _ _ _ Hst) in H as (evs1 & Hrun & _).
    apply run_final in Hrun as (Hstd & Hb & _). split; [|exact Hstd].
    apply Hb. destruct p; reflexivity.
  - destruct (post_busy fuel p mb Hst) as (evs0 & Hp & _). congruence.
Qed.

(** Nothing is lost by a post: what was queued and what was pushed has been
    handed to the invoker or is still queued. *)
Lemma post_conservation fuel p mb r mb' evs :
  post fuel p mb = Some (r, mb', evs) ->
  system_messages_ mb ++ pushed_system evs
  = invoked_system evs ++ system_messages_ mb'
  /\ user_mailbox_ mb ++ pushed_user evs = invoked_user evs ++ user_mailbox_ mb'
  /\ pushed_system evs = system_posts [p]
  /\ pushed_user evs = user_posts [p].
Proof.
  intros H. apply post_inv in H as (m & posted & evs1 & Hs & -> & Hev).
  destruct (posted_events_read m (stats_ mb)) as (_ & His & Hiu & _ & Hps & Hpu).
  destruct (drain_events_push_nothing _ (schedule_drain_events _ _ _ _ _ Hs))
    as (Hds & Hdu).
  assert (Hc : system_messages_ (enqueue p mb) = invoked_system evs1 ++ system_messages_ mb'
               /\ user_mailbox_ (enqueue p mb) = invoked_user evs1 ++ user_mailbox_ mb').
  { apply schedule_inv in Hs as [(_ & _ & -> & ->)|(_ & evs2 & Hrun & ->)];
      [auto|].
    apply run_conservation in Hrun. destruct p; exact Hrun. }
  destruct Hc as (Hcs & Hcu).
  destruct Hev as [(-> & ->)|(-> & ->)];
    rewrite invoked_system_app, invoked_user_app, pushed_system_app, pushed_user_app,
      His, Hiu, Hps, Hpu; simpl in *; rewrite Hds, Hdu, ?app_nil_r;
    unfold push in *; auto.
Qed.

Lemma post_all_conservation fuel posts mb r mb' evs :
  post_all fuel posts mb = Some (r, mb', evs) ->
  system_messages_ mb ++ pushed_system evs
  = invoked_system evs ++ system_messages_ mb'
  /\ user_mailbox_ mb ++ pushed_user evs = invoked_user evs ++ user_mailbox_ mb'
  /\ (r = Returned tt ->
      pushed_system evs = system_posts posts /\ pushed_user evs = user_posts posts).
Proof.
  revert mb r mb' evs. induction posts as [|p posts IH]; intros mb r mb' evs H.
  - inversion H; subst. simpl. rewrite !app_nil_r. auto.
  - simpl in H.
    destruct (post fuel p mb) as [[[[[]|e] mb1] evs1]|] eqn:Hp; [| |discriminate H].
    + destruct (post_all fuel posts mb1) as [[[r2 mb2] evs2]|] eqn:Hrec;
        [|discriminate H].
      inversion H; subst; clear H.
      apply post_conservation in Hp as (Hs & Hu & Hps & Hpu).
      apply IH in Hrec as (Hs' & Hu' & Hr).
      rewrite invoked_system_app, invoked_user_app, pushed_system_app, pushed_user_app.
      rewrite !app_assoc, Hs, Hu, <- !app_assoc, Hs', Hu'.
      split; [reflexivity|]. split; [reflexivity|].
      intros ->. destruct (Hr eq_refl) as (-> & ->). rewrite Hps, Hpu.
      destruct p; auto.
    + inversion H; subst; clear H.
      apply post_conservation in Hp as (Hs & Hu & _). repeat split; auto; discriminate.
Qed.

(** However many posts are made to a busy mailbox, none of them runs the
    drain: the messages are queued in the order of the posts. *)
Lemma post_all_busy fuel posts mb :
  status_ mb = Busy ->
  exists mb' evs,
    post_all fuel posts mb = Some (Returned tt, mb', evs)
    /\ invoked evs = [] /\ popped evs = []
    /\ status_ mb' = Busy
    /\ invoker_ mb' = invoker_ mb
    /\ suspended_ mb' = suspended_ mb
    /\ system_messages_ mb' = system_messages_ mb ++ system_posts posts
    /\ user_mailbox_ mb' = user_mailbox_ mb ++ user_posts posts.
Proof.
  revert mb. induction posts as [|p posts IH]; intros mb Hst.
  - exists mb, []. simpl. rewrite !app_nil_r. repeat split; auto.
  - destruct (post_busy fuel p mb Hst) as (evs1 & Hp & Hi1 & Hp1 & _).
    assert (Hst1 : status_ (enqueue p mb) = Busy) by (destruct p; exact Hst).
    destruct (IH _ Hst1) as (mb' & evs2 & Hrec & Hi2 & Hp2 & Hb & Hinv & Hsu & Hs & Hu).
    exists mb', (evs1 ++ evs2). simpl. rewrite Hp, Hrec.
    rewrite invoked_app, popped_app, Hi1, Hi2, Hp1, Hp2, Hinv, Hsu, Hs, Hu.
    destruct p; simpl; unfold push; rewrite <- ?app_assoc; repeat split; auto.
Qed.

End PostFacts.

(* ===================================================================== *)
(** ** The context after a drain *)
(* ===================================================================== *)

Lemma received_by_actor_app a b :
  received_by_actor (a ++ b) = received_by_actor a ++ received_by_actor b.
Proof.
  induction a as [|e a IH]; [reflexivity|].
  destruct e; simpl; rewrite ?IH; try reflexivity.
  destruct (is_StartedMessage m); reflexivity.
Qed.

(** When the only system messages invoked are [StartedMessage]s, the actor
    receives every message that is invoked. *)
Lemma received_by_actor_invoked evs :
  forallb is_StartedMessage (invoked_system evs) = true ->
  received_by_actor evs = invoked evs.
Proof.
  induction evs as [|e evs IH]; [reflexivity|].
  destruct e; simpl; auto.
  - intros H. apply andb_prop in H as [-> H]. rewrite IH by exact H. reflexivity.
  - intros H. rewrite IH by exact H. reflexivity.
Qed.

Section ContextReplay.
Context {A : Type} `{!IActor A}.
Implicit Types (ctx : LocalContext A).

Lemma receive_all_app a b (actor : A) :
  receive_all (a ++ b) actor = receive_all b (receive_all a actor).
Proof. apply fold_left_app. Qed.

Lemma process_message_actor message ctx :
  actor_ (snd (process_message message ctx)) = snd (receive (Some message) (actor_ ctx))
  /\ fst (process_message message ctx) = fst (receive (Some message) (actor_ ctx)).
Proof.
  unfold process_message.
  destruct (receive (Some message) (actor_ ctx)) as [[[]|e] actor']; auto.
Qed.

(** The context after a drain: [receive] has been called with the user
    messages and the [StartedMessage]s that were invoked, in order, each
    time with the message in the slot; nothing else has changed. *)
Lemma context_replay evs ctx :
  receive_calls_ (replay evs ctx)
  = receive_calls_ ctx ++ map Some (received_by_actor evs)
  /\ actor_ (replay evs ctx) = receive_all (received_by_actor evs) (actor_ ctx)
  /\ state_ (replay evs ctx) = state_ ctx.
Proof.
  revert ctx. induction evs as [|e evs IH]; intros ctx.
  { simpl. rewrite app_nil_r. auto. }
  change (replay (e :: evs) ctx) with (replay evs (replay_event ctx e)).
  destruct (IH (replay_event ctx e)) as (Hc & Ha & Hs). rewrite Hc, Ha, Hs.
  destruct e; simpl; auto.
  - unfold LocalContext_invoke_system_message, LocalContext_invoke_user_message.
    destruct (is_StartedMessage m); simpl; auto.
    destruct (process_message_spec m ctx) as (-> & _ & _ & ->).
    destruct (process_message_actor m ctx) as (-> & _).
    rewrite <- app_assoc. auto.
  - unfold LocalContext_invoke_user_message.
    destruct (process_message_spec m ctx) as (-> & _ & _ & ->).
    destruct (process_message_actor m ctx) as (-> & _).
    rewrite <- app_assoc. auto.
Qed.

(** What escapes from the calls of a context is what escapes from the
    calls of [receive]. *)
Lemma context_escaping evs ctx :
  escaping ctx evs = escape_of (received_by_actor evs) (actor_ ctx).
Proof.
  revert ctx. induction evs as [|e evs IH]; intros ctx; [reflexivity|].
  destruct e; simpl; try apply IH.
  - unfold LocalContext_invoke_system_message, LocalContext_invoke_user_message.
    destruct (is_StartedMessage m); simpl; [|apply IH].
    destruct (process_message_actor m ctx) as (Ha & ->).
    destruct (uncaught (fst (receive (Some m) (actor_ ctx)))); [reflexivity|].
    rewrite IH, Ha. reflexivity.
  - unfold LocalContext_invoke_user_message.
    destruct (process_message_actor m ctx) as (Ha & ->).
    destruct (uncaught (fst (receive (Some m) (actor_ ctx)))); [reflexivity|].
    rewrite IH, Ha. reflexivity.
Qed.

Lemma receive_all_delivered m messages (actor : A) :
  uncaught (fst (receive (Some m) actor)) = None ->
  delivered_to (m :: messages) actor
  = m :: delivered_to messages (snd (receive (Some m) actor))
  /\ escape_of (m :: messages) actor
     = escape_of messages (snd (receive (Some m) actor)).
Proof. intros H. simpl. rewrite H. auto. Qed.

(** An actor that throws nothing but [std::exception]s is handed every
    message. *)
Lemma delivered_to_std messages (actor : A) :
  (forall slot (a : A) e,
      fst (receive slot a) = Threw e -> is_std_exception e = true) ->
  delivered_to messages actor = messages /\ escape_of messages actor = None.
Proof.
  intros Hstd. revert actor. induction messages as [|m messages IH]; intros actor;
    [auto|].
  assert (Hu : uncaught (fst (receive (Some m) actor)) = None).
  { destruct (fst (receive (Some m) actor)) as [[]|e] eqn:Hr; [reflexivity|].
    simpl. rewrite (Hstd _ _ _ Hr). reflexivity. }
  destruct (receive_all_delivered m messages actor Hu) as (-> & ->).
  destruct (IH (snd (receive (Some m) actor))) as (-> & ->). auto.
Qed.

(** When nothing escapes, every message is handed over; otherwise the
    messages handed over are fewer or as many. *)
Lemma delivered_to_all messages (actor : A) :
  escape_of messages actor = None -> delivered_to messages actor = messages.
Proof.
  revert actor. induction messages as [|m messages IH]; intros actor; [reflexivity|].
  simpl. destruct (uncaught (fst (receive (Some m) actor))); [discriminate|].
  intros H. rewrite (IH _ H). reflexivity.
Qed.

(** An actor whose [receive] throws nothing but [std::exception]s makes a
    context that throws nothing else. *)
Lemma context_std :
  (forall slot (actor : A) e,
      fst (receive slot actor) = Threw e -> is_std_exception e = true) ->
  (forall m ctx e,
      fst (invoke_system_message m ctx) = Threw e -> is_std_exception e = true)
  /\ (forall m ctx e,
        fst (invoke_user_message m ctx) = Threw e -> is_std_exception e = true).
Proof.
  intros Hstd. split; intros m ctx e; simpl;
    unfold LocalContext_invoke_system_message, LocalContext_invoke_user_message;
    [destruct (is_StartedMessage m); [|discriminate]|];
    destruct (process_message_actor m ctx) as (_ & ->); apply Hstd.
Qed.

End ContextReplay.

(* ===================================================================== *)
(** ** Spawning and telling *)
(* ===================================================================== *)

Section SystemFacts.
Context {A : Type} `{!IActor A}.
Implicit Types (sys : System A) (pid : PID).

(** A [tell] on a PID whose id the registry maps to a live [LocalProcess]:
    the message is posted to the mailbox of that process, and the PID holds
    the process afterwards, whether it had cached it or not. *)
Lemma tell_live_posts fuel message pid sys addr :
  local_actor_refs_ (registry sys) !! pid_id_ pid = Some (LocalProcess addr false) ->
  process_ pid = None \/ process_ pid = Some (registered (pid_id_ pid)) ->
  PID_ref pid sys
  = Some (Some (registered (pid_id_ pid)),
          set_process (Some (registered (pid_id_ pid))) pid)
  /\ PID_tell fuel message pid sys
     = match mailboxes sys !! addr with
       | Some mb =>
           match post_user_message fuel message mb with
           | Some (r, mb', evs) =>
               Some (r, set_process (Some (registered (pid_id_ pid))) pid,
                     set_mailbox addr mb' sys, evs)
           | None => None
           end
       | None => None
       end.
Proof.
  intros Hreg Hcache. destruct pid as [a i c]. simpl in *.
  unfold PID_tell, PID_ref, Process_send_user_message, ProcessRegistry_get, deref.
  destruct Hcache as [-> | ->]; simpl; rewrite !Hreg; simpl; rewrite ?Hreg;
    (split; [reflexivity|]);
    (destruct (mailboxes sys !! addr);
     [destruct (post_user_message _ _ _) as [[[? ?] ?]|]|]; reflexivity).
Qed.

(** A spawn under a free name whose producer throws: the process is
    registered with a new mailbox, which has no handlers. *)
Lemma spawn_free_threw fuel name props parent sys e :
  local_actor_refs_ (registry sys) !! name = None ->
  props_producer_ props tt = Threw e ->
  Props_default_spawner fuel name props parent sys
  = Some (Threw e,
          {| registry :=
               {| address_ := address_ (registry sys);
                  local_actor_refs_ :=
                    <[name := LocalProcess (length (mailboxes sys)) false]>
                      (local_actor_refs_ (registry sys));
                  sequence_id_ := sequence_id_ (registry sys) |};
             mailboxes := mailboxes sys ++ [props_mailbox_producer_ props tt] |},
          []).
Proof.
  intros Hfree Hprod. unfold Props_default_spawner, LocalContext_ctor.
  rewrite (try_add_absent _ _ _ Hfree), Hprod. reflexivity.
Qed.

(** A spawn under a free name whose producer returns: the process is
    registered with a new mailbox, which is bound to a new context and sent
    [Started]. *)
Lemma spawn_free fuel name props parent sys actor :
  local_actor_refs_ (registry sys) !! name = None ->
  props_producer_ props tt = Returned actor ->
  Props_default_spawner fuel name props parent sys
  = match post_system_message fuel StartedMessage_instance
            (set_dispatcher (Some (props_dispatcher_ props))
               (set_invoker
                  (Some (LocalContext_incarnated (props_producer_ props) parent actor))
                  (props_mailbox_producer_ props tt))) with
    | None => None
    | Some (r, mb, evs) =>
        Some (match r with
              | Returned _ => Returned (PID_ctor (address_ (registry sys)) name)
              | Threw e => Threw e
              end,
              {| registry :=
                   {| address_ := address_ (registry sys);
                      local_actor_refs_ :=
                        <[name := LocalProcess (length (mailboxes sys)) false]>
                          (local_actor_refs_ (registry sys));
                      sequence_id_ := sequence_id_ (registry sys) |};
                 mailboxes := mailboxes sys ++ [mb] |},
              EvRegisterHandlers :: evs
              ++ match r with
                 | Returned _ => EvStart :: map EvMailboxStarted (stats_ mb)
                 | Threw _ => []
                 end)
    end.
Proof.
  intros Hfree Hprod. unfold Props_default_spawner, LocalContext_ctor.
  rewrite (try_add_absent _ _ _ Hfree), Hprod. simpl.
  destruct (post_system_message _ _ _) as [[[[[]|e] mb] evs]|]; simpl;
    rewrite ?app_nil_r; reflexivity.
Qed.

(** One post of a user message to a mailbox at rest: the message is handed
    to the context before the post ends, and the post ends as the call of
    [receive] allows. *)
Lemma post_user_settled fuel m (mb : DefaultMailbox (LocalContext A)) d ctx :
  settled mb -> dispatcher_ mb = Some d -> 0 < throughput d ->
  invoker_ mb = Some ctx -> (2 <= fuel)%nat ->
  exists r mb' evs,
    post_user_message fuel m mb = Some (r, mb', evs)
    /\ dispatcher_ mb' = Some d
    /\ invoker_ mb' = Some (replay evs ctx)
    /\ invoked_system evs = []
    /\ invoked evs = [m]
    /\ thrown r = uncaught (fst (receive (Some m) (actor_ ctx)))
    /\ (r = Returned tt -> settled mb')
    /\ (forall e, r = Threw e -> is_std_exception e = false /\ status_ mb' = Busy).
Proof.
  intros (Hst & Hsys & Husr & Hsusp) Hd Hpos Hi Hfuel.
  destruct (post_idle_returns fuel (PostUser m) mb d) as [[[r mb'] evs] Hp];
    [auto|auto|auto|eauto|rewrite Hsys, Husr; simpl; lia|].
  exists r, mb', evs. split; [exact Hp|].
  destruct (post_frame _ _ _ _ _ _ Hp) as (Hd' & _).
  pose proof (post_replay _ _ _ _ _ _ _ Hp Hi) as Hi'.
  pose proof (post_escaping _ _ _ _ _ _ _ Hp Hi) as Hesc.
  destruct (post_conservation _ _ _ _ _ _ Hp) as (Hcs & Hcu & Hps & Hpu).
  rewrite Hps, Hsys in Hcs. simpl in Hcs. symmetry in Hcs.
  apply app_eq_nil in Hcs as (His & Hsys').
  destruct (post_idle _ _ _ _ _ _ Hst Hp) as (evs1 & Hrun & Hinv & His1 & Hiu1 & _).
  destruct (run_drains _ _ _ _ _ Hrun) as (_ & _ & _ & Ho & _).
  rewrite <- Hinv, <- His1, <- Hiu1, His in Ho. simpl in Ho.
  rewrite Hpu, Husr in Hcu. simpl in Hcu.
  assert (Hone : invoked evs = [m]).
  { destruct r as [[]|e].
    - apply (post_delivers _ _ _ _ _ Hst) in Hp. simpl in Hp.
      rewrite Hsys, Husr, Hsusp in Hp. simpl in Hp. apply Hp.
    - destruct (invoked evs) as [|x l] eqn:Hn.
      + rewrite (escaping_nothing_invoked _ _ Hn) in Hesc. discriminate.
      + rewrite <- Ho in Hcu. injection Hcu as <- Hl.
        symmetry in Hl. apply app_eq_nil in Hl as (-> & _). reflexivity. }
  split; [congruence|]. split; [exact Hi'|]. split; [exact His|].
  split; [exact Hone|]. split.
  { rewrite <- Hesc, context_escaping, received_by_actor_invoked, Hone
      by (rewrite His; reflexivity).
    simpl. destruct (uncaught _); reflexivity. }
  split.
  - intros ->. apply (post_delivers _ _ _ _ _ Hst) in Hp. simpl in Hp.
    rewrite Hsys, Husr, Hsusp in Hp. simpl in Hp.
    destruct Hp as (Hinvk & Hst' & Hs' & Hu' & Hsu'). unfold settled. auto.
  - intros e ->. apply post_threw in Hp as (Hb & Hstd). auto.
Qed.

(** Telling an actor whose mailbox is at rest, any number of times: every
    [tell] posts to the mailbox and delivers its message before it ends;
    the [tell]s go on until the actor throws something that is not a
    [std::exception], which leaves the [tell]. *)
Lemma tell_all_settled fuel messages pid sys addr mb d ctx :
  local_actor_refs_ (registry sys) !! pid_id_ pid = Some (LocalProcess addr false) ->
  process_ pid = None \/ process_ pid = Some (registered (pid_id_ pid)) ->
  mailboxes sys !! addr = Some mb ->
  settled mb -> dispatcher_ mb = Some d -> 0 < throughput d ->
  invoker_ mb = Some ctx -> (2 <= fuel)%nat ->
  exists r pid' sys' evs mb',
    tell_all fuel messages pid sys = Some (r, pid', sys', evs)
    /\ registry sys' = registry sys
    /\ mailboxes sys' = <[addr := mb']> (mailboxes sys)
    /\ invoker_ mb' = Some (replay evs ctx)
    /\ invoked_system evs = []
    /\ invoked evs = delivered_to messages (actor_ ctx)
    /\ thrown r = escape_of messages (actor_ ctx)
    /\ (r = Returned tt -> settled mb')
    /\ (forall e, r = Threw e -> is_std_exception e = false /\ status_ mb' = Busy).
Proof.
  revert pid sys mb ctx.
  induction messages as [|m messages IH];
    intros pid sys mb ctx Hreg Hcache Hmb Hset Hd Hpos Hi Hfuel.
  { exists (Returned tt), pid, sys, [], mb. simpl.
    rewrite (list_insert_id _ _ _ Hmb).
    do 3 (split; [reflexivity|]). split; [exact Hi|].
    do 3 (split; [reflexivity|]). split; [auto|]. intros e He. discriminate. }
  destruct (tell_live_posts fuel m pid sys addr Hreg Hcache) as (_ & Htell).
  rewrite Hmb in Htell.
  destruct (post_user_settled fuel m mb d ctx Hset Hd Hpos Hi Hfuel)
    as (r1 & mb1 & evs1 & Hp & Hd1 & Hi1 & His1 & Hone1 & Hthrown1 & Hret1 & Hthrew1).
  rewrite Hp in Htell. cbn [tell_all]. rewrite Htell.
  destruct r1 as [[]|e]; cbv beta iota.
  - specialize (Hret1 eq_refl). simpl in Hthrown1. symmetry in Hthrown1.
    destruct (receive_all_delivered m messages (actor_ ctx) Hthrown1) as (Hdel & Hesc).
    assert (Ha1 : actor_ (replay evs1 ctx) = snd (receive (Some m) (actor_ ctx))).
    { destruct (context_replay evs1 ctx) as (_ & -> & _).
      rewrite received_by_actor_invoked, Hone1 by (rewrite His1; reflexivity).
      reflexivity. }
    destruct (IH (set_process (Some (registered (pid_id_ pid))) pid)
                 (set_mailbox addr mb1 sys) mb1 (replay evs1 ctx))
      as (r & pid' & sys' & evs2 & mb' & Hrec & Hreg' & Hmbs' & Hi' & His'
          & Hinv' & Hthrown & Hret & Hthrew); auto.
    { simpl. apply list_lookup_insert_eq. eapply lookup_lt_Some. exact Hmb. }
    rewrite Hrec. exists r, pid', sys', (evs1 ++ evs2), mb'.
    split; [reflexivity|]. split; [exact Hreg'|].
    split; [rewrite Hmbs'; simpl; apply list_insert_insert_eq|].
    split; [rewrite replay_app; exact Hi'|].
    split; [rewrite invoked_system_app, His1, His'; reflexivity|].
    split; [rewrite invoked_app, Hone1, Hinv', Hdel, Ha1; reflexivity|].
    split; [rewrite Hthrown, Hesc, Ha1; reflexivity|].
    split; [exact Hret|exact Hthrew].
  - destruct (Hthrew1 e eq_refl) as (Hstd & Hb). simpl in Hthrown1.
    exists (Threw e), (set_process (Some (registered (pid_id_ pid))) pid),
      (set_mailbox addr mb1 sys), evs1, mb1.
    do 5 (split; [auto|]). cbn [delivered_to escape_of]. rewrite <- Hthrown1.
    split; [exact Hone1|]. split; [reflexivity|]. split; [discriminate|].
    intros e' [= <-]. auto.
Qed.

(** A spawn with the default [Props] under a free name, by a producer that
    returns, and then any number of [tell]s on the PID it returns. *)
Lemma spawn_then_tell_all fuel (producer : Producer A) actor name messages sys :
  local_actor_refs_ (registry sys) !! name = None ->
  (2 <= fuel)%nat ->
  producer tt = Returned actor ->
  exists r1 sys1 evs1,
    Actor_spawn_named fuel (Actor_from_producer producer) name sys = Some (r1, sys1, evs1)
    /\ thrown r1 = escape_of [StartedMessage_instance] actor
    /\ invoked evs1 = [StartedMessage_instance]
    /\ received_by_actor evs1 = [StartedMessage_instance]
    /\ (forall pid, r1 = Returned pid ->
        pid = PID_ctor (address_ (registry sys)) name
        /\ exists r pid' sys2 evs2 mb,
             tell_all fuel messages pid sys1 = Some (r, pid', sys2, evs2)
             /\ thrown r = escape_of (StartedMessage_instance :: messages) actor
             /\ mailboxes sys2 !! length (mailboxes sys) = Some mb
             /\ invoker_ mb
                = Some (replay (evs1 ++ evs2) (LocalContext_incarnated producer None actor))
             /\ received_by_actor (evs1 ++ evs2) = invoked (evs1 ++ evs2)
             /\ invoked (evs1 ++ evs2)
                = delivered_to (StartedMessage_instance :: messages) actor
             /\ (r = Returned tt -> settled mb)
             /\ (forall e, r = Threw e -> status_ mb = Busy))
    /\ (forall e, r1 = Threw e ->
        exists mb,
          mailboxes sys1 !! length (mailboxes sys) = Some mb
          /\ status_ mb = Busy
          /\ invoker_ mb
             = Some (replay evs1 (LocalContext_incarnated producer None actor))).
Proof.
  intros Hfree Hfuel Hprod. unfold Actor_spawn_named, Props_spawn.
  remember (escape_of [StartedMessage_instance] actor) as esc0 eqn:Hesc0_def.
  remember (escape_of (StartedMessage_instance :: messages) actor) as esc eqn:Hesc_def.
  remember (delivered_to (StartedMessage_instance :: messages) actor) as del
    eqn:Hdel_def.
  rewrite (spawn_free fuel name (Actor_from_producer producer) None sys actor Hfree Hprod).
  simpl.
  set (ctx0 := LocalContext_incarnated producer None actor).
  set (mb0 := set_dispatcher (Some default_dispatcher)
                (set_invoker (Some ctx0) (UnboundedMailbox_create []))).
  destruct (post_idle_returns fuel (PostSystem StartedMessage_instance) mb0
              default_dispatcher)
    as [[[r0 mb1] evs0] Hp]; [reflexivity|reflexivity|reflexivity|simpl; eauto|simpl; lia|].
  simpl in Hp. rewrite Hp.
  eexists _, _, _. split; [reflexivity|].
  pose proof (post_replay fuel (PostSystem StartedMessage_instance) _ _ _ _ _ Hp eq_refl)
    as Hi1.
  pose proof (post_escaping fuel (PostSystem StartedMessage_instance) _ _ _ _ _ Hp eq_refl)
    as Hesc0.
  destruct (post_frame fuel (PostSystem StartedMessage_instance) _ _ _ _ Hp)
    as (Hd1 & Hstats1).
  change (stats_ mb0) with (@nil nat) in Hstats1.
  destruct (post_conservation fuel (PostSystem StartedMessage_instance) _ _ _ _ Hp)
    as (Hcs & Hcu & Hps & Hpu).
  rewrite Hpu in Hcu. simpl in Hcu. symmetry in Hcu.
  apply app_eq_nil in Hcu as (Hiu0 & _).
  rewrite Hps in Hcs. simpl in Hcs.
  assert (Hinv0 : invoked evs0 = [StartedMessage_instance]).
  { destruct r0 as [[]|e0].
    - apply (post_delivers fuel (PostSystem StartedMessage_instance)) in Hp;
        [|reflexivity].
      apply Hp.
    - rewrite <- (invoked_no_user _ Hiu0).
      destruct (invoked_system evs0) as [|x l] eqn:Hn.
      + rewrite escaping_nothing_invoked in Hesc0; [discriminate|].
        rewrite <- (invoked_no_user _ Hiu0). exact Hn.
      + injection Hcs as <- Hl. symmetry in Hl.
        apply app_eq_nil in Hl as (-> & _). reflexivity. }
  assert (His0 : invoked_system evs0 = [StartedMessage_instance])
    by (rewrite (invoked_no_user _ Hiu0); exact Hinv0).
  assert (Hrecv0 : received_by_actor evs0 = [StartedMessage_instance]).
  { rewrite received_by_actor_invoked by (rewrite His0; reflexivity). exact Hinv0. }
  assert (Hthrown0 : thrown r0 = esc0).
  { rewrite <- Hesc0, context_escaping, Hrecv0, Hesc0_def. reflexivity. }
  assert (Hev : forall (r : Result unit) tail,
            invoked (EvRegisterHandlers :: evs0 ++ tail) = invoked evs0 ++ invoked tail)
    by (intros; simpl; apply invoked_app).
  split.
  { destruct r0 as [[]|e0]; exact Hthrown0. }
  split.
  { rewrite (Hev r0). rewrite Hinv0. destruct r0 as [[]|e0]; simpl;
      rewrite ?invoked_map_stat by reflexivity; reflexivity. }
  split.
  { rewrite Hstats1.
    change (received_by_actor
              (EvRegisterHandlers :: evs0
               ++ match r0 with
                  | Returned _ => EvStart :: map EvMailboxStarted []
                  | Threw _ => []
                  end))
      with (received_by_actor
              (evs0 ++ match r0 with
                       | Returned _ => EvStart :: map EvMailboxStarted []
                       | Threw _ => []
                       end)).
    rewrite received_by_actor_app, Hrecv0. destruct r0 as [[]|e0]; reflexivity. }
  destruct r0 as [[]|e0].
  2: { split; [discriminate|]. intros e _. exists mb1.
       split; [simpl; rewrite lookup_app_r, Nat.sub_diag by lia; reflexivity|].
       split; [apply (post_threw fuel (PostSystem StartedMessage_instance)) in Hp;
               apply Hp|].
       rewrite app_nil_r.
       change (EvRegisterHandlers :: evs0) with ([EvRegisterHandlers] ++ evs0).
       rewrite replay_app. exact Hi1. }
  split; [|discriminate].
  intros pid [= <-]. split; [reflexivity|].
  apply (post_delivers fuel (PostSystem StartedMessage_instance)) in Hp;
    [|reflexivity].
  simpl in Hp. destruct Hp as (_ & Hst1 & Hs1 & Hu1 & Hsu1).
  set (sys1 := {| registry := _; mailboxes := mailboxes sys ++ [mb1] |}).
  set (pid := PID_ctor (address_ (registry sys)) name).
  destruct (tell_all_settled fuel messages pid sys1 (length (mailboxes sys)) mb1
              default_dispatcher (replay evs0 ctx0))
    as (r & pid' & sys2 & evs2 & mb & Htell & Hreg2 & Hmbs2 & Hi2 & His2
        & Hinv2 & Hthrown2 & Hret & Hthrew); auto.
  { simpl. apply lookup_insert_eq. }
  { simpl. rewrite lookup_app_r, Nat.sub_diag by lia. reflexivity. }
  { unfold settled. auto. }
  { reflexivity. }
  rewrite Hesc0_def in Hthrown0. simpl in Hthrown0. symmetry in Hthrown0.
  assert (Hu0 : uncaught (fst (receive (Some StartedMessage_instance) actor)) = None)
    by (destruct (uncaught _); [discriminate|reflexivity]).
  destruct (receive_all_delivered StartedMessage_instance messages actor Hu0)
    as (Hdel & Hescape).
  rewrite <- Hesc_def in Hescape. rewrite <- Hdel_def in Hdel.
  assert (Ha1 : actor_ (replay evs0 ctx0)
                = snd (receive (Some StartedMessage_instance) actor)).
  { destruct (context_replay evs0 ctx0) as (_ & -> & _). rewrite Hrecv0. reflexivity. }
  exists r, pid', sys2, evs2, mb. split; [exact Htell|].
  split; [rewrite Hthrown2, Hescape, Ha1; reflexivity|].
  split.
  { rewrite Hmbs2. apply list_lookup_insert_eq. simpl. rewrite length_app. simpl. lia. }
  rewrite Hstats1. simpl.
  change (EvRegisterHandlers :: evs0 ++ [EvStart])
    with ([EvRegisterHandlers] ++ evs0 ++ [EvStart]).
  rewrite !replay_app, !received_by_actor_app, !invoked_app. simpl.
  rewrite !app_nil_r.
  split; [exact Hi2|].
  split.
  { rewrite <- !invoked_app, <- !received_by_actor_app.
    apply received_by_actor_invoked.
    rewrite invoked_system_app, His0, His2. reflexivity. }
  split; [rewrite Hinv0, Hinv2, Hdel, Ha1; reflexivity|].
  split; [exact Hret|]. intros e He. apply (Hthrew e He).
Qed.

End SystemFacts.

(* ===================================================================== *)
(** ** Generated names *)
(* ===================================================================== *)

Lemma wrap_int_id z : -2147483648 <= z < 2147483648 -> wrap_int z = z.
Proof.
  intros Hz. unfold wrap_int. rewrite Z.mod_small by lia. lia.
Qed.

Lemma wrap_int_range z : -2147483648 <= wrap_int z < 2147483648.
Proof.
  unfold wrap_int.
  pose proof (Z.mod_pos_bound (z + 2147483648) 4294967296 ltac:(lia)). lia.
Qed.

Lemma dollar_name_inj (a b : Z) : "$" +:+ pretty a = "$" +:+ pretty b -> a = b.
Proof. simpl. intros [= H]. exact (pretty_Z_inj _ _ H). Qed.

Lemma next_id_no_wrap reg :
  -2147483648 <= sequence_id_ reg + 1 < 2147483648 ->
  ProcessRegistry_next_id reg
  = ("$" +:+ pretty (sequence_id_ reg + 1),
     {| address_ := address_ reg; local_actor_refs_ := local_actor_refs_ reg;
        sequence_id_ := sequence_id_ reg + 1 |}).
Proof.
  intros H. unfold ProcessRegistry_next_id. rewrite (wrap_int_id _ H). reflexivity.
Qed.

(* ===================================================================== *)
(** ** What the operations keep of the system *)
(* ===================================================================== *)

Section SystemInvariants.
Context {A : Type} `{!IActor A}.
Implicit Types (sys : System A) (pid : PID).

Lemma processes_kept_refl sys : processes_kept sys sys.
Proof.
  split; [lia|]. intros key.
  destruct (local_actor_refs_ (registry sys) !! key) as [[|addr dead]|]; eauto.
Qed.

(** A change of mailboxes in place keeps the processes. *)
Lemma processes_kept_mailboxes sys sys' :
  registry sys' = registry sys ->
  length (mailboxes sys') = length (mailboxes sys) ->
  processes_kept sys sys' /\ (mailboxes_owned sys -> mailboxes_owned sys').
Proof.
  intros Hreg Hlen. split.
  - split; [lia|]. intros key. rewrite Hreg.
    destruct (local_actor_refs_ (registry sys) !! key) as [[|addr dead]|]; eauto.
  - unfold mailboxes_owned. rewrite Hreg, Hlen. auto.
Qed.

Lemma send_user_message_frame fuel reff message sys r sys' evs :
  Process_send_user_message fuel reff message sys = Some (r, sys', evs) ->
  registry sys' = registry sys /\ length (mailboxes sys') = length (mailboxes sys).
Proof.
  unfold Process_send_user_message. intros H.
  destruct (deref sys reff) as [[|addr dead]|]; [| |discriminate H].
  - inversion H; subst. auto.
  - destruct (mailboxes sys !! addr) as [mb|]; [|discriminate H].
    destruct (post_user_message fuel message mb) as [[[r1 mb1] evs1]|];
      [|discriminate H].
    inversion H; subst. simpl. rewrite length_insert. auto.
Qed.

Lemma send_system_message_frame fuel reff message sys r sys' evs :
  Process_send_system_message fuel reff message sys = Some (r, sys', evs) ->
  registry sys' = registry sys /\ length (mailboxes sys') = length (mailboxes sys).
Proof.
  unfold Process_send_system_message. intros H.
  destruct (deref sys reff) as [[|addr dead]|]; [| |discriminate H].
  - inversion H; subst. auto.
  - destruct (mailboxes sys !! addr) as [mb|]; [|discriminate H].
    destruct (post_system_message fuel message mb) as [[[r1 mb1] evs1]|];
      [|discriminate H].
    inversion H; subst. simpl. rewrite length_insert. auto.
Qed.

Lemma tell_frame fuel message pid sys r pid' sys' evs :
  PID_tell fuel message pid sys = Some (r, pid', sys', evs) ->
  registry sys' = registry sys /\ length (mailboxes sys') = length (mailboxes sys).
Proof.
  unfold PID_tell. intros H.
  destruct (PID_ref pid sys) as [[p pid1]|]; [|discriminate H].
  destruct (Process_send_user_message _ _ _ _) as [[[r1 sys1] evs1]|] eqn:Hsend;
    [|discriminate H].
  inversion H; subst. eapply send_user_message_frame; eauto.
Qed.

Lemma tell_keeps fuel message pid sys r pid' sys' evs :
  PID_tell fuel message pid sys = Some (r, pid', sys', evs) ->
  processes_kept sys sys' /\ (mailboxes_owned sys -> mailboxes_owned sys').
Proof.
  intros H. apply tell_frame in H as (Hreg & Hlen).
  apply processes_kept_mailboxes; assumption.
Qed.

Lemma stop_keeps fuel reff sys r sys' evs :
  Process_stop fuel reff sys = Some (r, sys', evs) ->
  processes_kept sys sys' /\ (mailboxes_owned sys -> mailboxes_owned sys').
Proof.
  unfold Process_stop. intros H.
  destruct (Process_send_system_message _ _ _ _) as [[[r1 sys1] evs1]|] eqn:Hsend;
    [|discriminate H].
  apply send_system_message_frame in Hsend as (Hreg & Hlen).
  destruct r1 as [[]|e].
  2: { inversion H; subst. apply processes_kept_mailboxes; assumption. }
  destruct reff as [|key].
  { inversion H; subst. apply processes_kept_mailboxes; assumption. }
  simpl in H.
  destruct (local_actor_refs_ (registry sys1) !! key) as [[|addr dead]|] eqn:Hkey;
    inversion H; subst; clear H; try (apply processes_kept_mailboxes; assumption).
  rewrite Hreg in Hkey. split.
  - split; [simpl; lia|]. intros key'. simpl. rewrite Hreg.
    destruct (decide (key' = key)) as [->|Hne].
    + rewrite Hkey, lookup_insert_eq. eauto.
    + rewrite lookup_insert_ne by congruence.
      destruct (local_actor_refs_ (registry sys) !! key') as [[|addr' dead']|]; eauto.
  - intros (Hbound & Huniq). split; simpl; rewrite ?Hreg, ?Hlen.
    + intros key' addr' dead'. destruct (decide (key' = key)) as [->|Hne].
      * rewrite lookup_insert_eq. intros [= <- <-]. eauto.
      * rewrite lookup_insert_ne by congruence. eauto.
    + intros key1 key2 addr' dead1 dead2.
      destruct (decide (key1 = key)) as [->|Hne1];
        destruct (decide (key2 = key)) as [->|Hne2];
        rewrite ?lookup_insert_eq, ?lookup_insert_ne by congruence; auto.
      * intros [= <- <-] H2. eapply Huniq; eauto.
      * intros H1 [= <- <-]. eapply Huniq; eauto.
      * eauto.
Qed.

Lemma spawn_keeps fuel name props parent sys r sys' evs :
  Props_default_spawner fuel name props parent sys = Some (r, sys', evs) ->
  processes_kept sys sys' /\ (mailboxes_owned sys -> mailboxes_owned sys').
Proof.
  intros H.
  destruct (local_actor_refs_ (registry sys) !! name) as [p|] eqn:Hname.
  { unfold Props_default_spawner in H. rewrite (try_add_present _ _ _ _ Hname) in H.
    inversion H; subst. apply processes_kept_mailboxes; reflexivity. }
  assert (Hsys' : exists mb,
            sys' = {| registry :=
                        {| address_ := address_ (registry sys);
                           local_actor_refs_ :=
                             <[name := LocalProcess (length (mailboxes sys)) false]>
                               (local_actor_refs_ (registry sys));
                           sequence_id_ := sequence_id_ (registry sys) |};
                      mailboxes := mailboxes sys ++ [mb] |}).
  { destruct (props_producer_ props tt) as [actor|e0] eqn:Hprod.
    - rewrite (spawn_free _ _ _ _ _ actor Hname Hprod) in H.
      destruct (post_system_message _ _ _) as [[[r1 mb1] evs1]|]; [|discriminate H].
      inversion H; subst; eauto.
    - rewrite (spawn_free_threw _ _ _ _ _ e0 Hname Hprod) in H.
      inversion H; subst; eauto. }
  destruct Hsys' as (mb1 & ->). clear H. split.
  - split; [simpl; rewrite length_app; lia|]. intros key. simpl.
    destruct (decide (key = name)) as [->|Hne].
    + rewrite Hname. exact I.
    + rewrite lookup_insert_ne by congruence.
      destruct (local_actor_refs_ (registry sys) !! key) as [[|addr' dead']|]; eauto.
  - intros (Hbound & Huniq). split; simpl; rewrite ?length_app; simpl.
    + intros key addr dead. destruct (decide (key = name)) as [->|Hne].
      * rewrite lookup_insert_eq. intros [= <- <-]. lia.
      * rewrite lookup_insert_ne by congruence. intros Hk.
        specialize (Hbound _ _ _ Hk). lia.
    + intros key1 key2 addr dead1 dead2.
      destruct (decide (key1 = name)) as [->|Hne1];
        destruct (decide (key2 = name)) as [->|Hne2];
        rewrite ?lookup_insert_eq, ?lookup_insert_ne by congruence; auto.
      * intros [= <- <-] H2. specialize (Hbound _ _ _ H2). lia.
      * intros H1 [= <- <-]. specialize (Hbound _ _ _ H1). lia.
      * eauto.
Qed.

(** A spawn under a free name: [try_add] accepts the process.  An
    exception that leaves the spawn is the one the producer threw, or one
    that leaves the post of [Started], which is not a [std::exception]. *)
Lemma spawn_free_result fuel name props parent sys r sys' evs :
  local_actor_refs_ (registry sys) !! name = None ->
  Props_default_spawner fuel name props parent sys = Some (r, sys', evs) ->
  match r with
  | Returned pid => pid = PID_ctor (address_ (registry sys)) name
  | Threw e => props_producer_ props tt = Threw e \/ is_std_exception e = false
  end
  /\ sequence_id_ (registry sys') = sequence_id_ (registry sys)
  /\ local_actor_refs_ (registry sys')
     = <[name := LocalProcess (length (mailboxes sys)) false]>
         (local_actor_refs_ (registry sys)).
Proof.
  intros Hname H.
  destruct (props_producer_ props tt) as [actor|e0] eqn:Hprod.
  - rewrite (spawn_free _ _ _ _ _ actor Hname Hprod) in H.
    destruct (post_system_message _ _ _) as [[[r1 mb1] evs1]|] eqn:Hp;
      [|discriminate H].
    inversion H; subst; clear H. simpl. split; [|auto].
    destruct r1 as [[]|e]; [reflexivity|]. right.
    apply (post_threw fuel (PostSystem StartedMessage_instance)) in Hp. apply Hp.
  - rewrite (spawn_free_threw _ _ _ _ _ e0 Hname Hprod) in H.
    inversion H; subst; clear H. simpl. auto.
Qed.

End SystemInvariants.

(* ===================================================================== *)
(** ** Destroying queues and owners *)
(* ===================================================================== *)

Lemma Deleter_spec p destroyed :
  Deleter p destroyed = rev (List.filter deletable (omap id [p])) ++ destroyed.
Proof.
  destruct p as [m|]; [|reflexivity]. cbn. unfold deletable.
  destruct (do_not_delete_ m); reflexivity.
Qed.

Lemma UnboundedMailboxQueue_dtor_spec q destroyed :
  UnboundedMailboxQueue_dtor q destroyed
  = rev (List.filter deletable q) ++ destroyed.
Proof.
  revert destroyed. induction q as [|m q IH]; intros destroyed; [reflexivity|].
  simpl. rewrite IH. unfold deletable at 2.
  destruct (do_not_delete_ m); simpl; [reflexivity|].
  rewrite <- app_assoc. reflexivity.
Qed.

Lemma destroy_owners_spec owners destroyed :
  destroy_owners owners destroyed
  = rev (List.filter deletable (omap id owners)) ++ destroyed.
Proof.
  unfold destroy_owners. revert destroyed.
  induction owners as [|p owners IH]; intros destroyed; [reflexivity|].
  simpl. rewrite IH. destruct p as [m|]; [|reflexivity]. cbn. unfold deletable at 2.
  destruct (do_not_delete_ m); simpl; [reflexivity|].
  rewrite <- app_assoc. reflexivity.
Qed.

Lemma popped_map_stat (f : nat -> Event) stats :
  (forall s, popped [f s] = []) -> popped (map f stats) = [].
Proof.
  intros Hf. induction stats as [|s stats IH]; [reflexivity|].
  change (map f (s :: stats)) with ([f s] ++ map f stats).
  rewrite popped_app, Hf, IH. reflexivity.
Qed.

Lemma invoked_interleaves evs :
  Permutation (invoked evs) (invoked_system evs ++ invoked_user evs).
Proof.
  induction evs as [|e evs IH]; [reflexivity|].
  destruct e; simpl; auto.
  rewrite IH. apply Permutation_middle.
Qed.

Section Owners.
Context {I : Type} `{!IMessageInvoker I}.
Implicit Types (mb : DefaultMailbox I) (evs : list Event).

(** Every message that the drain pops is handed to the invoker. *)
Lemma iteration_popped mb x message mb' evs :
  iteration mb = Some (x, message, mb', evs) -> omap id (popped evs) = invoked evs.
Proof.
  intros H. iteration_cases H; simpl; auto;
    rewrite ?popped_app, ?invoked_app, ?omap_app; simpl;
    rewrite popped_map_stat, invoked_map_stat by reflexivity; reflexivity.
Qed.

Lemma for_loop_popped n message mb r message' mb' evs :
  for_loop n message mb = Some (r, message', mb', evs) ->
  omap id (popped evs) = invoked evs.
Proof.
  revert message mb r message' mb' evs.
  induction n as [|n IH]; intros message mb r message' mb' evs H.
  - inversion H; subst. reflexivity.
  - for_loop_step H; eauto using iteration_popped.
    rewrite popped_app, invoked_app, omap_app.
    f_equal; eauto using iteration_popped.
Qed.

Lemma process_messages_popped mb r mb' evs :
  process_messages mb = Some (r, mb', evs) -> omap id (popped evs) = invoked evs.
Proof.
  intros H. pm_cases H; apply for_loop_popped in Hloop; auto.
  rewrite popped_app, invoked_app, omap_app, Hloop. reflexivity.
Qed.

Lemma run_popped fuel mb r mb' evs :
  run fuel mb = Some (r, mb', evs) -> omap id (popped evs) = invoked evs.
Proof.
  revert mb r mb' evs. induction fuel as [|fuel IH]; intros mb r mb' evs H;
    [discriminate|].
  apply run_inv in H as (fuel' & rp & mb1 & evs1 & Hf & Hpm & Hcases).
  injection Hf as <-.
  apply process_messages_popped in Hpm.
  destruct Hcases as [(e & _ & _ & -> & ->)
                     |[(_ & _ & _ & -> & ->)|(_ & _ & evs2 & Hrun & ->)]];
    simpl; rewrite ?popped_app, ?invoked_app, ?omap_app, ?Hpm; simpl; auto.
  - rewrite popped_map_stat, invoked_map_stat by reflexivity. reflexivity.
  - f_equal. eauto.
Qed.

Lemma post_popped fuel p mb r mb' evs :
  post fuel p mb = Some (r, mb', evs) -> omap id (popped evs) = invoked evs.
Proof.
  intros H. apply post_inv in H as (m & posted & evs1 & Hs & -> & Hev).
  destruct (posted_events_read m (stats_ mb)) as (Hi & _ & _ & Hp & _).
  assert (Hs' : omap id (popped evs1) = invoked evs1).
  { apply schedule_inv in Hs as [(_ & _ & _ & ->)|(_ & evs2 & Hrun & ->)];
      [reflexivity|]. simpl. eapply run_popped; eauto. }
  destruct Hev as [(_ & ->)|(_ & ->)];
    rewrite popped_app, invoked_app, omap_app, Hi, Hp; simpl; exact Hs'.
Qed.

Lemma post_all_popped fuel posts mb r mb' evs :
  post_all fuel posts mb = Some (r, mb', evs) -> omap id (popped evs) = invoked evs.
Proof.
  revert mb r mb' evs. induction posts as [|p posts IH]; intros mb r mb' evs H.
  - inversion H; subst. reflexivity.
  - simpl in H.
    destruct (post fuel p mb) as [[[[[]|e] mb1] evs1]|] eqn:Hp; [| |discriminate H].
    + destruct (post_all fuel posts mb1) as [[[r2 mb2] evs2]|] eqn:Hrec;
        [|discriminate H].
      inversion H; subst; clear H.
      rewrite popped_app, invoked_app, omap_app.
      f_equal; eauto using post_popped.
    + inversion H; subst; clear H. eauto using post_popped.
Qed.

End Owners.

(* ===================================================================== *)
(** ** The end of a run *)
(* ===================================================================== *)

Lemma mailbox_empty_calls_app a b :
  mailbox_empty_calls (a ++ b) = mailbox_empty_calls a ++ mailbox_empty_calls b.
Proof.
  induction a as [|e a IH]; [reflexivity|].
  destruct e; simpl; rewrite ?IH; reflexivity.
Qed.

Lemma mailbox_empty_calls_map stats :
  mailbox_empty_calls (map EvMailboxEmpty stats) = stats.
Proof. induction stats as [|s stats IH]; simpl; congruence. Qed.

Lemma pass_events_no_empty evs :
  forallb is_pass_event evs = true -> mailbox_empty_calls evs = [].
Proof.
  induction evs as [|e evs IH]; [reflexivity|].
  simpl. intros H. apply andb_prop in H as [He H].
  destruct e; simpl; auto; discriminate.
Qed.

Section RunEnd.
Context {I : Type} `{!IMessageInvoker I}.
Implicit Types (mb : DefaultMailbox I) (evs : list Event).

Lemma iteration_pass_events mb x message mb' evs :
  iteration mb = Some (x, message, mb', evs) -> forallb is_pass_event evs = true.
Proof.
  intros H. iteration_cases H; simpl; auto;
    apply map_stat_forallb; reflexivity.
Qed.

Lemma for_loop_pass_events n message mb r message' mb' evs :
  for_loop n message mb = Some (r, message', mb', evs) ->
  forallb is_pass_event evs = true.
Proof.
  revert message mb r message' mb' evs.
  induction n as [|n IH]; intros message mb r message' mb' evs H.
  - inversion H; subst. reflexivity.
  - for_loop_step H; apply iteration_pass_events in Hit; auto.
    apply IH in Hrec. rewrite forallb_app, Hit, Hrec. reflexivity.
Qed.

Lemma process_messages_pass_events mb r mb' evs :
  process_messages mb = Some (r, mb', evs) -> forallb is_pass_event evs = true.
Proof.
  intros H. pm_cases H; apply for_loop_pass_events in Hloop; auto.
  rewrite forallb_app, Hloop. reflexivity.
Qed.

(** The observers are told that the mailbox is empty at the end of a run
    that returns, and at no other time. *)
Lemma run_mailbox_empty fuel mb r mb' evs :
  run fuel mb = Some (r, mb', evs) ->
  match r with
  | Returned _ =>
      exists pre, evs = pre ++ EvIdle :: map EvMailboxEmpty (stats_ mb)
                  /\ mailbox_empty_calls pre = []
  | Threw _ => mailbox_empty_calls evs = []
  end.
Proof.
  revert mb r mb' evs. induction fuel as [|fuel IH]; intros mb r mb' evs H;
    [discriminate|].
  apply run_inv in H as (fuel' & rp & mb1 & evs1 & Hf & Hpm & Hcases).
  injection Hf as <-.
  pose proof (process_messages_frame _ _ _ _ Hpm) as (_ & Hstats & _).
  apply process_messages_pass_events, pass_events_no_empty in Hpm.
  destruct Hcases as [(e & _ & -> & -> & ->)
                     |[(_ & _ & -> & -> & ->)|(_ & _ & evs2 & Hrun & ->)]].
  - exact Hpm.
  - exists (EvRun :: evs1). rewrite Hstats. split; [reflexivity|exact Hpm].
  - apply IH in Hrun. simpl in Hrun. rewrite Hstats in Hrun.
    destruct r as [[]|e].
    + destruct Hrun as (pre & -> & Hpre).
      exists (EvRun :: evs1 ++ EvIdle :: EvSchedule true :: pre).
      split; [simpl; rewrite <- app_assoc; reflexivity|].
      simpl. rewrite mailbox_empty_calls_app, Hpm. exact Hpre.
    + simpl. rewrite mailbox_empty_calls_app, Hpm. exact Hrun.
Qed.

(** *** A throughput that is not positive *)

Lemma process_messages_nonpositive mb d :
  dispatcher_ mb = Some d -> throughput d <= 0 ->
  process_messages mb = Some (Returned true, mb, []).
Proof.
  intros Hd Hle. unfold process_messages. rewrite Hd.
  destruct (throughput d) as [|n|n]; [reflexivity|lia|reflexivity].
Qed.

Lemma run_nonpositive fuel mb d :
  dispatcher_ mb = Some d -> throughput d <= 0 -> work_pending mb = true ->
  run fuel mb = None.
Proof.
  revert mb. induction fuel as [|fuel IH]; intros mb Hd Hle Hw; [reflexivity|].
  simpl. rewrite (process_messages_nonpositive mb d Hd Hle). simpl.
  rewrite work_pending_set_status, Hw.
  unfold schedule_with. simpl. rewrite Hd.
  change (set_status Busy (set_status Idle mb)) with (set_status Busy mb).
  rewrite (IH (set_status Busy mb)); auto.
Qed.

End RunEnd.

(* ===================================================================== *)
(** ** Sequences of posts *)
(* ===================================================================== *)

Section PostSequences.
Context {I : Type} `{!IMessageInvoker I}.
Implicit Types (mb : DefaultMailbox I) (evs : list Event) (p : Post).

Lemma post_all_app fuel posts1 posts2 mb :
  post_all fuel (posts1 ++ posts2) mb
  = match post_all fuel posts1 mb with
    | Some (Returned _, mb1, evs1) =>
        match post_all fuel posts2 mb1 with
        | Some (r, mb2, evs2) => Some (r, mb2, evs1 ++ evs2)
        | None => None
        end
    | o => o
    end.
Proof.
  revert mb. induction posts1 as [|p posts1 IH]; intros mb; simpl.
  - destruct (post_all fuel posts2 mb) as [[[r mb2] evs2]|]; reflexivity.
  - destruct (post fuel p mb) as [[[[[]|e] mb1] evs1]|]; try reflexivity.
    rewrite IH.
    destruct (post_all fuel posts1 mb1) as [[[[[]|e] mb2] evs2]|]; try reflexivity.
    destruct (post_all fuel posts2 mb2) as [[[r mb3] evs3]|]; try reflexivity.
    rewrite app_assoc. reflexivity.
Qed.

(** A post that returns leaves an idle mailbox idle, with at most one
    message more in its queues. *)
Lemma post_idle_again fuel p mb mb' evs :
  status_ mb = Idle ->
  post fuel p mb = Some (Returned tt, mb', evs) ->
  status_ mb' = Idle
  /\ (length (system_messages_ mb') + length (user_mailbox_ mb')
      <= length (system_messages_ mb) + length (user_mailbox_ mb) + 1)%nat.
Proof.
  intros Hst H. pose proof (post_delivers _ _ _ _ _ Hst H) as (_ & Hst' & _).
  split; [exact Hst'|].
  apply post_conservation in H as (Hs & Hu & Hps & Hpu).
  apply (f_equal (@length Message)) in Hs, Hu. rewrite !length_app in Hs, Hu.
  rewrite Hps in Hs. rewrite Hpu in Hu. destruct p; simpl in *; lia.
Qed.

(** With a positive throughput, a sequence of posts to an idle mailbox has
    a result when the fuel exceeds the number of messages queued and
    posted. *)
Lemma post_all_returns fuel posts mb d :
  status_ mb = Idle -> dispatcher_ mb = Some d -> 0 < throughput d ->
  is_Some (invoker_ mb) ->
  (length (system_messages_ mb) + length (user_mailbox_ mb) + length posts < fuel)%nat ->
  is_Some (post_all fuel posts mb).
Proof.
  revert mb. induction posts as [|p posts IH]; intros mb Hst Hd Hpos Hi Hlen;
    simpl; [eauto|].
  destruct (post_idle_returns fuel p mb d) as [[[r mb1] evs1] Hp]; auto;
    [simpl in Hlen; lia|].
  rewrite Hp. destruct r as [[]|e]; [|eauto].
  destruct (post_idle_again _ _ _ _ _ Hst Hp) as (Hst1 & Hlen1).
  destruct (post_frame _ _ _ _ _ _ Hp) as (Hd1 & _).
  destruct Hi as [i Hi]. pose proof (post_replay _ _ _ _ _ _ _ Hp Hi) as Hi1.
  destruct (IH mb1) as [[[r2 mb2] evs2] ->]; eauto; try congruence.
  simpl in Hlen. lia.
Qed.

(** An exception leaves a run from an invocation. *)
Lemma run_threw_invoked fuel mb e mb' evs :
  run fuel mb = Some (Threw e, mb', evs) -> invoked evs <> [].
Proof.
  revert mb mb' evs. induction fuel as [|fuel IH]; intros mb mb' evs H;
    [discriminate|].
  apply run_inv in H as (fuel' & rp & mb1 & evs1 & Hf & Hpm & Hcases).
  injection Hf as <-.
  destruct Hcases as [(e' & -> & _ & _ & ->)
                     |[(_ & _ & [=] & _)|(_ & _ & evs2 & Hrun & ->)]].
  - apply process_messages_throw in Hpm
      as [([=] & _)|[(? & ? & ? & ? & _ & [=] & _)|(e0 & m & pre & _ & _ & _ & Hev)]].
    destruct Hev as [-> | ->]; simpl; rewrite invoked_app; simpl;
      intros Hnil; apply app_eq_nil in Hnil as (_ & [=]).
  - apply IH in Hrun. simpl. rewrite invoked_app. simpl.
    intros Hnil. apply app_eq_nil in Hnil as (_ & Hnil). auto.
Qed.

(** A user message posted to a suspended mailbox is queued: the post runs
    the drain, which finds the system queue empty and stops. *)
Lemma post_user_suspended fuel u mb r mb' evs :
  status_ mb = Idle -> suspended_ mb = true -> system_messages_ mb = [] ->
  post_user_message fuel u mb = Some (r, mb', evs) ->
  r = Returned tt /\ invoked evs = []
  /\ status_ mb' = Idle /\ suspended_ mb' = true /\ system_messages_ mb' = []
  /\ user_mailbox_ mb' = user_mailbox_ mb ++ [u].
Proof.
  intros Hst Hsusp Hsys Hp.
  destruct (post_idle fuel (PostUser u) mb r mb' evs Hst Hp)
    as (evs0 & Hrun & Hinv & _).
  destruct (run_drains _ _ _ _ _ Hrun) as (Hs & Hu & Hf & Ho & Hl).
  simpl in Hs, Hu, Hf. rewrite Hsys in Hs. symmetry in Hs.
  apply app_eq_nil in Hs as (His & Hs1). rewrite His in *. simpl in *.
  rewrite Hsusp in Hf.
  assert (Hiu : invoked_user evs0 = []).
  { destruct (invoked_user evs0); [reflexivity|].
    destruct Hl as (_ & Hl); [discriminate|congruence]. }
  rewrite Hiu in *. simpl in Hu. rewrite Hinv, Ho.
  destruct r as [[]|e].
  - apply run_final in Hrun as (Hst1 & _). unfold push in Hu. auto 10.
  - apply run_threw_invoked in Hrun. congruence.
Qed.

Lemma post_all_users_suspended fuel users mb r mb' evs :
  status_ mb = Idle -> suspended_ mb = true -> system_messages_ mb = [] ->
  post_all fuel (map PostUser users) mb = Some (r, mb', evs) ->
  r = Returned tt /\ invoked evs = []
  /\ status_ mb' = Idle /\ suspended_ mb' = true /\ system_messages_ mb' = []
  /\ user_mailbox_ mb' = user_mailbox_ mb ++ users.
Proof.
  revert mb r mb' evs. induction users as [|u users IH];
    intros mb r mb' evs Hst Hsusp Hsys H; simpl in H.
  { inversion H; subst. rewrite app_nil_r. auto 10. }
  destruct (post_user_message fuel u mb) as [[[r1 mb1] evs1]|] eqn:Hp;
    [|discriminate H].
  destruct (post_user_suspended _ _ _ _ _ _ Hst Hsusp Hsys Hp)
    as (-> & Hi1 & Hst1 & Hsusp1 & Hsys1 & Hu1).
  destruct (post_all fuel (map PostUser users) mb1) as [[[r2 mb2] evs2]|] eqn:Hrec;
    [|discriminate H].
  inversion H; subst; clear H.
  destruct (IH _ _ _ _ Hst1 Hsusp1 Hsys1 Hrec) as (-> & Hi2 & Hst2 & Hsusp2 & Hsys2 & Hu2).
  rewrite invoked_app, Hi1, Hi2, Hu2, Hu1, <- app_assoc. auto 10.
Qed.

End PostSequences.

(* ===================================================================== *)
(** ** Notifications of [message_received] *)
(* ===================================================================== *)

Lemma message_received_calls_app a b :
  message_received_calls (a ++ b)
  = message_received_calls a ++ message_received_calls b.
Proof.
  induction a as [|e a IH]; [reflexivity|].
  destruct e; simpl; rewrite ?IH; reflexivity.
Qed.

Lemma completed_app a b :
  starts_with_throw b = false -> completed (a ++ b) = completed a ++ completed b.
Proof.
  intros Hb. induction a as [|e a IH]; [reflexivity|].
  assert (Hhead : match a ++ b with EvThrow _ :: _ => true | _ => false end
                  = match a with EvThrow _ :: _ => true | _ => false end).
  { destruct a as [|e' a]; [|reflexivity]. simpl. exact Hb. }
  destruct e; simpl; rewrite ?IH; try reflexivity;
    (destruct a as [|e' a];
     [simpl in *; destruct b as [|[] b]; simpl in *; try reflexivity; discriminate
     |destruct e'; reflexivity]).
Qed.

Lemma notifications_app stats a b :
  notifications stats (a ++ b) = notifications stats a ++ notifications stats b.
Proof. apply flat_map_app. Qed.

Lemma receipts_follow_app stats a b :
  receipts_follow stats a -> receipts_follow stats b -> receipts_follow stats (a ++ b).
Proof.
  intros (Ha & Hra) (Hb & Hrb). split.
  - destruct a; [exact Hb|exact Ha].
  - rewrite message_received_calls_app, completed_app, notifications_app, Hra, Hrb
      by exact Hb.
    reflexivity.
Qed.

Lemma receipts_follow_glue stats e :
  starts_with_throw [e] = false -> is_invoke e = false ->
  message_received_calls [e] = [] ->
  receipts_follow stats [e].
Proof.
  intros Ht Hi Hr. split; [exact Ht|]. rewrite Hr.
  destruct e; try discriminate; reflexivity.
Qed.

Lemma receipts_follow_map stats (f : nat -> Event) l :
  (forall s, starts_with_throw [f s] = false /\ is_invoke (f s) = false
             /\ message_received_calls [f s] = []) ->
  receipts_follow stats (map f l).
Proof.
  intros Hf. induction l as [|s l IH]; [split; reflexivity|].
  change (map f (s :: l)) with ([f s] ++ map f l).
  destruct (Hf s) as (H1 & H2 & H3).
  apply receipts_follow_app; [apply receipts_follow_glue; assumption|exact IH].
Qed.

Lemma receipts_follow_received stats m :
  receipts_follow stats
    ([EvInvokeSystem m] ++ map (fun stat => EvMessageReceived stat m) stats)
  /\ receipts_follow stats
       ([EvInvokeUser m] ++ map (fun stat => EvMessageReceived stat m) stats).
Proof.
  assert (Hc : completed (map (fun stat => EvMessageReceived stat m) stats) = [])
    by (induction stats; simpl; auto).
  assert (Hr : message_received_calls (map (fun stat => EvMessageReceived stat m) stats)
               = map (fun stat => (stat, m)) stats)
    by (clear Hc; induction stats; simpl; congruence).
  split; (split; [reflexivity|]); simpl; rewrite Hr, Hc;
    destruct stats; simpl; rewrite ?app_nil_r; reflexivity.
Qed.

Section Receipts.
Context {I : Type} `{!IMessageInvoker I}.
Implicit Types (mb : DefaultMailbox I) (evs : list Event).

Lemma iteration_receipts mb x message mb' evs :
  iteration mb = Some (x, message, mb', evs) -> receipts_follow (stats_ mb) evs.
Proof.
  intros H. iteration_cases H; simpl;
    try (split; reflexivity).
  - change (receipts_follow (stats_ mb)
              ([EvPopSystem None; EvPopUser (Some m)]
               ++ [EvInvokeUser m]
               ++ map (fun stat => EvMessageReceived stat m) (stats_ mb))).
    apply receipts_follow_app; [split; reflexivity|].
    apply receipts_follow_received.
  - change (receipts_follow (stats_ mb)
              ([EvPopSystem (Some m)]
               ++ [EvInvokeSystem m]
               ++ map (fun stat => EvMessageReceived stat m) (stats_ mb))).
    apply receipts_follow_app; [split; reflexivity|].
    apply receipts_follow_received.
Qed.

Lemma for_loop_receipts n message mb r message' mb' evs :
  for_loop n message mb = Some (r, message', mb', evs) ->
  receipts_follow (stats_ mb) evs.
Proof.
  revert message mb r message' mb' evs.
  induction n as [|n IH]; intros message mb r message' mb' evs H.
  - inversion H; subst. split; reflexivity.
  - for_loop_step H; eauto using iteration_receipts.
    apply receipts_follow_app; [eauto using iteration_receipts|].
    apply iteration_frame in Hit as (_ & <- & _). eauto.
Qed.

Lemma process_messages_receipts mb r mb' evs :
  process_messages mb = Some (r, mb', evs) -> receipts_follow (stats_ mb) evs.
Proof.
  intros H. pm_cases H; apply for_loop_receipts in Hloop; auto.
  apply receipts_follow_app; [exact Hloop|split; reflexivity].
Qed.

Lemma run_receipts fuel mb r mb' evs :
  run fuel mb = Some (r, mb', evs) -> receipts_follow (stats_ mb) evs.
Proof.
  revert mb r mb' evs. induction fuel as [|fuel IH]; intros mb r mb' evs H;
    [discriminate|].
  apply run_inv in H as (fuel' & rp & mb1 & evs1 & Hf & Hpm & Hcases).
  injection Hf as <-.
  pose proof (process_messages_frame _ _ _ _ Hpm) as (_ & Hstats & _).
  apply process_messages_receipts in Hpm.
  destruct Hcases as [(e & _ & _ & -> & ->)
                     |[(_ & _ & _ & -> & ->)|(_ & _ & evs2 & Hrun & ->)]].
  - apply (receipts_follow_app _ [EvRun]); [split; reflexivity|exact Hpm].
  - apply (receipts_follow_app _ [EvRun]); [split; reflexivity|].
    apply receipts_follow_app; [exact Hpm|].
    apply (receipts_follow_app _ [EvIdle]); [split; reflexivity|].
    apply receipts_follow_map. intros s. repeat split.
  - apply (receipts_follow_app _ [EvRun]); [split; reflexivity|].
    apply receipts_follow_app; [exact Hpm|].
    apply (receipts_follow_app _ [EvIdle; EvSchedule true]); [split; reflexivity|].
    apply IH in Hrun. simpl in Hrun. rewrite Hstats in Hrun. exact Hrun.
Qed.

Lemma post_receipts fuel p mb r mb' evs :
  post fuel p mb = Some (r, mb', evs) -> receipts_follow (stats_ mb) evs.
Proof.
  intros H. apply post_inv in H as (m & posted & evs1 & Hs & -> & Hev).
  assert (Hs' : receipts_follow (stats_ mb) evs1).
  { apply schedule_inv in Hs as [(_ & _ & _ & ->)|(_ & evs2 & Hrun & ->)];
      [split; reflexivity|].
    apply (receipts_follow_app _ [EvSchedule true]); [split; reflexivity|].
    apply run_receipts in Hrun. destruct p; exact Hrun. }
  destruct Hev as [(_ & ->)|(_ & ->)];
    (apply receipts_follow_app;
     [apply receipts_follow_map; intros s; repeat split|]).
  - apply (receipts_follow_app _ [EvPushSystem m]); [split; reflexivity|exact Hs'].
  - apply (receipts_follow_app _ [EvPushUser m]); [split; reflexivity|exact Hs'].
Qed.

Lemma post_all_receipts fuel posts mb r mb' evs :
  post_all fuel posts mb = Some (r, mb', evs) -> receipts_follow (stats_ mb) evs.
Proof.
  revert mb r mb' evs. induction posts as [|p posts IH]; intros mb r mb' evs H.
  - inversion H; subst. split; reflexivity.
  - simpl in H.
    destruct (post fuel p mb) as [[[[[]|e] mb1] evs1]|] eqn:Hp; [| |discriminate H].
    + destruct (post_all fuel posts mb1) as [[[r2 mb2] evs2]|] eqn:Hrec;
        [|discriminate H].
      inversion H; subst; clear H.
      apply receipts_follow_app; [eauto using post_receipts|].
      apply post_frame in Hp as (_ & <-). eauto.
    + inversion H; subst; clear H. eauto using post_receipts.
Qed.

End Receipts.

(* ===================================================================== *)
(** ** Actors that throw nothing but [std::exception]s *)
(* ===================================================================== *)

Section SystemStd.
Context {A : Type} `{!IActor A}.
Implicit Types (sys : System A) (pid : PID).
Hypothesis receive_std : forall slot (actor : A) e,
  fst (receive slot actor) = Threw e -> is_std_exception e = true.

Lemma context_post_std fuel p (mb : DefaultMailbox (LocalContext A)) r mb' evs :
  post fuel p mb = Some (r, mb', evs) -> r = Returned tt.
Proof.
  destruct (context_std receive_std) as (Hs & Hu).
  exact (post_std Hs Hu fuel p mb r mb' evs).
Qed.

Lemma tell_std fuel message pid sys r pid' sys' evs :
  PID_tell fuel message pid sys = Some (r, pid', sys', evs) -> r = Returned tt.
Proof.
  unfold PID_tell. intros H.
  destruct (PID_ref pid sys) as [[p pid1]|]; [|discriminate H].
  destruct (Process_send_user_message _ _ _ _) as [[[r1 sys1] evs1]|] eqn:Hsend;
    [|discriminate H].
  inversion H; subst; clear H. unfold Process_send_user_message in Hsend.
  destruct (deref sys _) as [[|addr dead]|]; [| |discriminate Hsend].
  - inversion Hsend; subst. reflexivity.
  - destruct (mailboxes sys !! addr) as [mb|]; [|discriminate Hsend].
    destruct (post_user_message fuel message mb) as [[[r1 mb1] evs2]|] eqn:Hp;
      [|discriminate Hsend].
    inversion Hsend; subst.
    exact (context_post_std fuel (PostUser message) _ _ _ _ Hp).
Qed.

Lemma tell_all_std fuel messages pid sys r pid' sys' evs :
  tell_all fuel messages pid sys = Some (r, pid', sys', evs) -> r = Returned tt.
Proof.
  revert pid sys r pid' sys' evs.
  induction messages as [|m messages IH]; intros pid sys r pid' sys' evs H; simpl in H.
  - inversion H; subst. reflexivity.
  - destruct (PID_tell fuel m pid sys) as [[[[r1 pid1] sys1] evs1]|] eqn:Ht;
      [|discriminate H].
    apply tell_std in Ht as ->.
    destruct (tell_all fuel messages pid1 sys1) as [[[[r2 pid2] sys2] evs2]|] eqn:Hrec;
      [|discriminate H].
    inversion H; subst. eauto.
Qed.

(** With such an actor a spawn ends as [try_add] and the producer allow. *)
Lemma spawn_std fuel name props parent sys r sys' evs :
  Props_default_spawner fuel name props parent sys = Some (r, sys', evs) ->
  match local_actor_refs_ (registry sys) !! name with
  | Some _ => r = Threw (ProcessNameExistException name) /\ sys' = sys /\ evs = []
  | None =>
      match props_producer_ props tt with
      | Threw e => r = Threw e /\ evs = []
      | Returned _ => r = Returned (PID_ctor (address_ (registry sys)) name)
      end
  end.
Proof.
  intros H.
  destruct (local_actor_refs_ (registry sys) !! name) as [p|] eqn:Hname.
  - unfold Props_default_spawner in H. rewrite (try_add_present _ _ _ _ Hname) in H.
    inversion H; subst. destruct sys. auto.
  - destruct (props_producer_ props tt) as [actor|e0] eqn:Hprod.
    + rewrite (spawn_free _ _ _ _ _ actor Hname Hprod) in H.
      destruct (post_system_message _ _ _) as [[[r1 mb1] evs1]|] eqn:Hp;
        [|discriminate H].
      apply (context_post_std fuel (PostSystem StartedMessage_instance)) in Hp as ->.
      inversion H; subst. reflexivity.
    + rewrite (spawn_free_threw _ _ _ _ _ e0 Hname Hprod) in H.
      inversion H; subst. auto.
Qed.

(** With a positive throughput and fuel for the queued messages, a post to
    a mailbox bound to the context of such an actor returns. *)
Lemma context_post_returns fuel p (mb : DefaultMailbox (LocalContext A)) d :
  dispatcher_ mb = Some d -> 0 < throughput d -> is_Some (invoker_ mb) ->
  (length (system_messages_ mb) + length (user_mailbox_ mb) + 1 < fuel)%nat ->
  exists mb' evs,
    post fuel p mb = Some (Returned tt, mb', evs) /\ status_ mb' = status_ mb.
Proof.
  intros Hd Hpos Hi Hlen. destruct (status_ mb) eqn:Hst.
  - destruct (post_idle_returns fuel p mb d Hst Hd Hpos Hi Hlen) as [[[r mb'] evs] Hp].
    pose proof (context_post_std _ _ _ _ _ _ Hp) as ->.
    exists mb', evs. split; [exact Hp|].
    apply (post_delivers _ _ _ _ _ Hst) in Hp. apply Hp.
  - destruct (post_busy fuel p mb Hst) as (evs & Hp & _).
    exists (enqueue p mb), evs. split; [exact Hp|]. destruct p; exact Hst.
Qed.

End SystemStd.

(* ===================================================================== *)
(** ** hello_world *)
(* ===================================================================== *)

Lemma HelloActor_never_throws slot (actor : HelloActor) e :
  fst (receive slot actor) = Threw e -> is_std_exception e = true.
Proof.
  simpl. unfold HelloActor_receive.
  destruct slot as [[c ?]|]; [|discriminate].
  destruct c; try discriminate. repeat case_match; discriminate.
Qed.

Lemma written_actor (sys : System HelloActor) mb ctx :
  mailboxes sys !! 0%nat = Some mb -> invoker_ mb = Some ctx ->
  written sys = actor_ ctx.
Proof. intros H1 H2. unfold written. rewrite H1, H2. reflexivity. Qed.

Lemma HelloActor_receive_Hello who (out : HelloActor) :
  receive (Some (new_Hello who)) out = (Returned tt, out ++ ["Hello " +:+ who]).
Proof. reflexivity. Qed.

Lemma HelloActor_receive_all whos (out : HelloActor) :
  receive_all (map new_Hello whos) out
  = out ++ map (fun who => "Hello " +:+ who) whos.
Proof.
  revert out. induction whos as [|who whos IH]; intros out.
  - simpl. rewrite app_nil_r. reflexivity.
  - change (receive_all (map new_Hello (who :: whos)) out)
      with (receive_all (map new_Hello whos)
              (snd (receive (Some (new_Hello who)) out))).
    rewrite HelloActor_receive_Hello, IH. simpl. rewrite <- app_assoc. reflexivity.
Qed.

(* ===================================================================== *)
(** ** The drain: order, termination and the end of a run *)
(* ===================================================================== *)

(** X1. A run of the drain, with the runs it reschedules, hands the queued
    messages to the invoker in this order: the system messages, oldest
    first, and then the user messages, oldest first.  What it has invoked
    has left the heads of the two queues, and nothing else has left them;
    [suspended_] follows the system messages invoked; a user message is
    invoked only once the system queue is empty and the mailbox is not
    suspended.  When the run returns, every system message has been
    invoked, and so has every user message unless the mailbox is then
    suspended, in which case none has.  Each invocation is a call of the
    bound invoker: the invoker is afterwards what the calls, made in this
    order, have made of it, and an exception leaves the run exactly when
    one of the calls throws something that is not a [std::exception]. *)
Theorem drain_delivers_in_order {I : Type} `{!IMessageInvoker I} fuel
    (mb : DefaultMailbox I) r mb' evs :
  run fuel mb = Some (r, mb', evs) ->
  (forall i, invoker_ mb = Some i ->
             invoker_ mb' = Some (replay evs i) /\ escaping i evs = thrown r)
  /\ invoked evs = invoked_system evs ++ invoked_user evs
  /\ system_messages_ mb = invoked_system evs ++ system_messages_ mb'
  /\ user_mailbox_ mb = invoked_user evs ++ user_mailbox_ mb'
  /\ suspended_ mb' = suspended_after_all (invoked_system evs) (suspended_ mb)
  /\ (invoked_user evs <> [] -> system_messages_ mb' = [] /\ suspended_ mb' = false)
  /\ (r = Returned tt ->
      invoked evs
      = system_messages_ mb
        ++ (if suspended_after_all (system_messages_ mb) (suspended_ mb)
            then [] else user_mailbox_ mb)
      /\ system_messages_ mb' = []
      /\ user_mailbox_ mb'
         = (if suspended_after_all (system_messages_ mb) (suspended_ mb)
            then user_mailbox_ mb else [])).
Proof.
  intros H. destruct (run_drains _ _ _ _ _ H) as (Hs & Hu & Hf & Ho & Hl).
  split.
  { intros i Hi. split; [exact (run_replay _ _ _ _ _ _ H Hi)|].
    exact (run_escaping _ _ _ _ _ _ H Hi). }
  do 5 (split; [assumption|]). intros ->.
  apply run_delivers in H as (Hinv & _ & Hs' & Hu' & _). auto.
Qed.

(** The theorem at a mailbox with a suspend and a resume on the system
    queue and two user messages, drained with throughput 3: the actor has
    received the two user messages. *)
Lemma drain_delivers_in_order_witness :
  invoked (events_of (run 5 mixed_queued))
  = [new_SuspendMailboxMessage; new_ResumeMailboxMessage;
     new_Hello "a"; new_Hello "b"]
  /\ option_map actor_ (invoker_ (mailbox_after mixed_queued (run 5 mixed_queued)))
     = Some [new_Hello "a"; new_Hello "b"].
Proof.
  eassert (H : run 5 mixed_queued = Some (Returned tt, _, _))
    by (vm_compute; reflexivity).
  rewrite H.
  destruct (drain_delivers_in_order _ _ _ _ _ H) as (Hcalls & _ & _ & _ & _ & _ & Hret).
  split; [exact (proj1 (Hret eq_refl))|].
  destruct (Hcalls _ eq_refl) as (Hi & _).
  cbn [mailbox_after]. rewrite Hi. vm_compute. reflexivity.
Defined.

(** X2. When [throughput()] of the dispatcher is not positive, a pass of
    [process_messages] pops nothing and returns.  [run] then stores [Idle]
    and, when something can be delivered, calls [schedule] again, which
    runs it again: with a dispatcher that runs inline the run does not
    come to an end, whatever the fuel.  So a post of a system message to
    an idle mailbox does not return, nor does a post of a user message
    unless the mailbox is suspended.  When nothing can be delivered, the
    run returns at once. *)
Theorem nonpositive_throughput_never_returns {I : Type} `{!IMessageInvoker I}
    (mb : DefaultMailbox I) d :
  dispatcher_ mb = Some d -> throughput d <= 0 ->
  process_messages mb = Some (Returned true, mb, [])
  /\ (work_pending mb = true -> forall fuel, run fuel mb = None)
  /\ (work_pending mb = false ->
      forall fuel,
        run (S fuel) mb
        = Some (Returned tt, set_status Idle mb,
                EvRun :: EvIdle :: map EvMailboxEmpty (stats_ mb)))
  /\ (status_ mb = Idle -> forall fuel m, post_system_message fuel m mb = None)
  /\ (status_ mb = Idle -> suspended_ mb = false ->
      forall fuel m, post_user_message fuel m mb = None).
Proof.
  intros Hd Hle.
  pose proof (process_messages_nonpositive mb d Hd Hle) as Hpm.
  split; [exact Hpm|]. split; [|split; [|split]].
  - intros Hw fuel. exact (run_nonpositive fuel mb d Hd Hle Hw).
  - intros Hw fuel. simpl. rewrite Hpm. simpl.
    rewrite work_pending_set_status, Hw. reflexivity.
  - intros Hst fuel m.
    unfold post_system_message, schedule, schedule_with. simpl. rewrite Hst, Hd.
    rewrite (run_nonpositive fuel _ d); auto.
    unfold work_pending, push. simpl. destruct (system_messages_ mb); reflexivity.
  - intros Hst Hsusp fuel m.
    unfold post_user_message, schedule, schedule_with. simpl. rewrite Hst, Hd.
    rewrite (run_nonpositive fuel _ d); auto.
    unfold work_pending, push. simpl. rewrite Hsusp.
    destruct (user_mailbox_ mb); simpl; apply orb_true_r.
Qed.

(** The theorem at a new mailbox on a dispatcher with throughput 0: the
    post of a message has no result with fuel 1000. *)
Lemma nonpositive_throughput_never_returns_witness :
  post_user_message 1000 (new_Hello "a") (recorder_mailbox [] dispatcher0) = None.
Proof.
  exact (proj2 (proj2 (proj2 (proj2
           (nonpositive_throughput_never_returns
              (recorder_mailbox [] dispatcher0) dispatcher0
              eq_refl ltac:(vm_compute; discriminate)))))
           eq_refl eq_refl 1000%nat (new_Hello "a")).
Defined.

(** X3. [schedule] starts the drain only when it can change the status from
    [Idle] to [Busy].  However many posts are made to a busy mailbox, each
    of them leaves its message at the back of its queue and returns:
    nothing is popped, the invoker is not called, and the dispatcher is not
    needed.  A mailbox is left busy by a post that an exception leaves; so
    once the invoker has thrown something that is not a [std::exception],
    no message is delivered any more. *)
Theorem busy_mailbox_only_enqueues {I : Type} `{!IMessageInvoker I} :
  (forall fuel posts (mb : DefaultMailbox I),
      status_ mb = Busy ->
      exists mb' evs,
        post_all fuel posts mb = Some (Returned tt, mb', evs)
        /\ invoked evs = [] /\ popped evs = []
        /\ status_ mb' = Busy
        /\ invoker_ mb' = invoker_ mb
        /\ suspended_ mb' = suspended_ mb
        /\ system_messages_ mb' = system_messages_ mb ++ system_posts posts
        /\ user_mailbox_ mb' = user_mailbox_ mb ++ user_posts posts)
  /\ (forall fuel p (mb : DefaultMailbox I) e mb' evs,
        post fuel p mb = Some (Threw e, mb', evs) ->
        status_ mb' = Busy /\ is_std_exception e = false).
Proof.
  split.
  - intros fuel posts mb Hst. exact (post_all_busy fuel posts mb Hst).
  - intros fuel p mb e mb' evs H. exact (post_threw _ _ _ _ _ _ H).
Qed.

(** X4. Over any sequence of posts nothing is lost and nothing is
    delivered twice: the messages that were queued, followed by the
    messages pushed, are the messages handed to the invoker, followed by
    the messages still queued, for the system queue and for the user queue;
    so each queue is served in the order of its posts.  Every message that
    is popped is handed to the invoker, by a call of the bound invoker: the
    invoker is afterwards what the calls, made in this order, have made of
    it, and an exception leaves a post exactly when one of the calls throws
    something that is not a [std::exception].  When no exception has left a
    post, every post has pushed its message. *)
Theorem posts_are_conserved {I : Type} `{!IMessageInvoker I} fuel posts
    (mb : DefaultMailbox I) r mb' evs :
  post_all fuel posts mb = Some (r, mb', evs) ->
  system_messages_ mb ++ pushed_system evs
  = invoked_system evs ++ system_messages_ mb'
  /\ user_mailbox_ mb ++ pushed_user evs = invoked_user evs ++ user_mailbox_ mb'
  /\ omap id (popped evs) = invoked evs
  /\ (r = Returned tt ->
      pushed_system evs = system_posts posts /\ pushed_user evs = user_posts posts)
  /\ (forall i, invoker_ mb = Some i ->
                invoker_ mb' = Some (replay evs i) /\ escaping i evs = thrown r).
Proof.
  intros H. destruct (post_all_conservation _ _ _ _ _ _ H) as (Hs & Hu & Hr).
  pose proof (post_all_popped _ _ _ _ _ _ H).
  do 4 (split; [assumption|]).
  intros i Hi. split; [exact (post_all_replay _ _ _ _ _ _ _ H Hi)|].
  exact (post_all_escaping _ _ _ _ _ _ _ H Hi).
Qed.

(** The theorem at four posts to a new mailbox, the last of a user message
    to the mailbox when it is suspended: the message stays queued. *)
Lemma posts_are_conserved_witness :
  pushed_user (events_of (post_all 3 some_posts (recorder_mailbox [7; 8]%nat dispatcher3)))
  = [new_Fail; new_Hello "a"]
  /\ user_mailbox_
       (mailbox_after (recorder_mailbox [7; 8]%nat dispatcher3)
          (post_all 3 some_posts (recorder_mailbox [7; 8]%nat dispatcher3)))
     = [new_Hello "a"].
Proof.
  eassert (H : post_all 3 some_posts (recorder_mailbox [7; 8]%nat dispatcher3)
               = Some (Returned tt, _, _)) by (vm_compute; reflexivity).
  rewrite H. split; [|reflexivity].
  exact (proj1 (proj2 (posts_are_conserved _ _ _ _ _ _ H))).
Defined.

Lemma post_all_final {I : Type} `{!IMessageInvoker I} fuel posts
    (mb : DefaultMailbox I) r mb' evs :
  status_ mb = Idle ->
  post_all fuel posts mb = Some (r, mb', evs) ->
  match r with
  | Returned _ => status_ mb' = Idle
  | Threw e => status_ mb' = Busy /\ is_std_exception e = false
  end.
Proof.
  revert mb r mb' evs. induction posts as [|p posts IH]; intros mb r mb' evs Hst H;
    simpl in H.
  - inversion H; subst. exact Hst.
  - destruct (post fuel p mb) as [[[[[]|e] mb1] evs1]|] eqn:Hp; [| |discriminate H].
    + destruct (post_all fuel posts mb1) as [[[r2 mb2] evs2]|] eqn:Hrec;
        [|discriminate H].
      inversion H; subst; clear H.
      destruct (post_idle_again _ _ _ _ _ Hst Hp) as (Hst1 & _).
      exact (IH _ _ _ _ Hst1 Hrec).
    + inversion H; subst; clear H. exact (post_threw _ _ _ _ _ _ Hp).
Qed.

(** X5. With a positive throughput, any sequence of posts to an idle
    mailbox that has an invoker comes to an end, when the fuel exceeds the
    number of messages queued and posted: the runs that a post starts are
    no more than the messages there are to deliver.  The mailbox is idle
    again afterwards, unless an exception has left a post: that exception
    is not a [std::exception], and the mailbox is busy. *)
Theorem posts_come_to_an_end {I : Type} `{!IMessageInvoker I} fuel posts
    (mb : DefaultMailbox I) d :
  status_ mb = Idle -> dispatcher_ mb = Some d -> 0 < throughput d ->
  is_Some (invoker_ mb) ->
  (length (system_messages_ mb) + length (user_mailbox_ mb) + length posts < fuel)%nat ->
  exists r mb' evs,
    post_all fuel posts mb = Some (r, mb', evs)
    /\ match r with
       | Returned _ => status_ mb' = Idle
       | Threw e => status_ mb' = Busy /\ is_std_exception e = false
       end.
Proof.
  intros Hst Hd Hpos Hi Hlen.
  destruct (post_all_returns fuel posts mb d Hst Hd Hpos Hi Hlen)
    as [[[r mb'] evs] H].
  exists r, mb', evs. split; [exact H|].
  exact (post_all_final _ _ _ _ _ _ Hst H).
Qed.

(** The theorem at four posts to a new mailbox on [dispatcher3], with
    fuel 5. *)
Lemma posts_come_to_an_end_witness :
  exists r mb' evs,
    post_all 5 some_posts (recorder_mailbox [7; 8]%nat dispatcher3) = Some (r, mb', evs)
    /\ match r with
       | Returned _ => status_ mb' = Idle
       | Threw e => status_ mb' = Busy /\ is_std_exception e = false
       end.
Proof.
  apply (posts_come_to_an_end 5 some_posts (recorder_mailbox [7; 8]%nat dispatcher3)
           dispatcher3); [reflexivity|reflexivity|reflexivity|simpl; eauto|simpl; lia].
Defined.

(** X6. The observers are told that the mailbox is empty at the end of a
    run that returns, once each and after [Idle] has been stored, and at no
    other time: not between the runs that a run reschedules, and not when
    an exception leaves the run.  At that time the system queue is empty,
    and the user queue is empty unless the mailbox is suspended: the
    observers of a suspended mailbox are told that it is empty while user
    messages are queued. *)
Theorem mailbox_empty_is_notified_last {I : Type} `{!IMessageInvoker I} fuel
    (mb : DefaultMailbox I) r mb' evs :
  run fuel mb = Some (r, mb', evs) ->
  match r with
  | Returned _ =>
      (exists pre, evs = pre ++ EvIdle :: map EvMailboxEmpty (stats_ mb)
                   /\ mailbox_empty_calls pre = [])
      /\ mailbox_empty_calls evs = stats_ mb
      /\ system_messages_ mb' = []
      /\ (suspended_ mb' = true \/ user_mailbox_ mb' = [])
  | Threw _ => mailbox_empty_calls evs = []
  end.
Proof.
  intros H. pose proof (run_mailbox_empty _ _ _ _ _ H) as He.
  destruct r as [[]|e]; [|exact He].
  destruct He as (pre & -> & Hpre). split; [eauto|].
  split.
  { rewrite mailbox_empty_calls_app, Hpre. simpl. apply mailbox_empty_calls_map. }
  apply run_final in H as (_ & Hw). unfold work_pending in Hw.
  apply orb_false_elim in Hw as (Hw1 & Hw2).
  split; [destruct (system_messages_ mb'); [reflexivity|discriminate]|].
  destruct (suspended_ mb'); [left; reflexivity|right].
  destruct (user_mailbox_ mb'); [reflexivity|discriminate].
Qed.

(** The theorem at a suspended mailbox with two observers and a user
    message queued: both are told that the mailbox is empty, and the
    message is still queued. *)
Lemma mailbox_empty_is_notified_last_witness :
  mailbox_empty_calls (events_of (run 2 observed_suspended)) = [7; 8]%nat
  /\ user_mailbox_ (mailbox_after observed_suspended (run 2 observed_suspended))
     = [new_Hello "a"].
Proof.
  eassert (H : run 2 observed_suspended = Some (Returned tt, _, _))
    by (vm_compute; reflexivity).
  rewrite H. split; [|reflexivity].
  exact (proj1 (proj2 (mailbox_empty_is_notified_last _ _ _ _ _ H))).
Defined.

(** X7. [message_received] is called on the observers for the messages
    whose invocation has returned, in the order of the invocations: on each
    observer in turn, before the next message is popped.  It is not called
    for an invocation that throws, whether the exception is escalated or
    leaves the drain. *)
Theorem message_received_follows_completion {I : Type} `{!IMessageInvoker I}
    fuel posts (mb : DefaultMailbox I) r mb' evs :
  post_all fuel posts mb = Some (r, mb', evs) ->
  message_received_calls evs = notifications (stats_ mb) (completed evs)
  /\ stats_ mb' = stats_ mb.
Proof.
  intros H. split; [apply (post_all_receipts _ _ _ _ _ _ H)|].
  revert mb r mb' evs H. induction posts as [|p posts IH]; intros mb r mb' evs H;
    simpl in H.
  - inversion H; subst. reflexivity.
  - destruct (post fuel p mb) as [[[[[]|e] mb1] evs1]|] eqn:Hp; [| |discriminate H].
    + destruct (post_all fuel posts mb1) as [[[r2 mb2] evs2]|] eqn:Hrec;
        [|discriminate H].
      inversion H; subst; clear H.
      apply post_frame in Hp as (_ & <-). eauto.
    + inversion H; subst; clear H. apply post_frame in Hp as (_ & <-). reflexivity.
Qed.

(** The theorem at four posts to a new mailbox with the observers 7 and 8,
    whose actor throws on the second message. *)
Lemma message_received_follows_completion_witness :
  message_received_calls
    (events_of (post_all 3 some_posts (recorder_mailbox [7; 8]%nat dispatcher3)))
  = [(7, StartedMessage_instance); (8, StartedMessage_instance);
     (7, new_SuspendMailboxMessage); (8, new_SuspendMailboxMessage)]%nat.
Proof.
  eassert (H : post_all 3 some_posts (recorder_mailbox [7; 8]%nat dispatcher3)
               = Some (Returned tt, _, _)) by (vm_compute; reflexivity).
  rewrite H.
  pose proof (proj1 (message_received_follows_completion _ _ _ _ _ _ H)) as Hw.
  vm_compute in Hw. exact Hw.
Defined.

(* ===================================================================== *)
(** ** Ownership: the destructor of the queue *)
(* ===================================================================== *)

Lemma deletable_Permutation (l l' : list Message) :
  Permutation l l' ->
  Permutation (List.filter deletable l) (List.filter deletable l').
Proof.
  induction 1 as [|x l l' Hp IH|x y l|l l' l'' H1 IH1 H2 IH2]; simpl.
  - reflexivity.
  - destruct (deletable x); [constructor|]; exact IH.
  - destruct (deletable x), (deletable y); try reflexivity. constructor.
  - etransitivity; eassumption.
Qed.

(** X8. The destructor of a queue pops the messages that are left, oldest
    first, and the [Deleter] destroys each of them that was not built with
    [do_not_delete = true]: those messages are destroyed, in the order of
    the queue, and no other message is.  A [StartedMessage::instance()]
    left in a queue outlives the queue. *)
Theorem queue_destructor_deletes_pending q destroyed :
  UnboundedMailboxQueue_dtor q destroyed
  = rev (List.filter deletable q) ++ destroyed
  /\ (forall m, In m q -> do_not_delete_ m = false ->
                In m (UnboundedMailboxQueue_dtor q destroyed))
  /\ (forall m, do_not_delete_ m = true -> ~ In m destroyed ->
                ~ In m (UnboundedMailboxQueue_dtor q destroyed))
  /\ (forall n, UnboundedMailboxQueue_dtor (repeat StartedMessage_instance n) destroyed
                = destroyed).
Proof.
  pose proof (UnboundedMailboxQueue_dtor_spec q destroyed) as Hspec.
  split; [exact Hspec|]. rewrite Hspec. split; [|split].
  - intros m Hin Hm. apply in_or_app. left. rewrite <- in_rev.
    apply filter_In. split; [exact Hin|]. unfold deletable. rewrite Hm. reflexivity.
  - intros m Hm Hnot Hin. apply in_app_or in Hin as [Hin|Hin]; [|auto].
    rewrite <- in_rev in Hin. apply filter_In in Hin as (_ & Hd).
    unfold deletable in Hd. rewrite Hm in Hd. discriminate.
  - intros n. rewrite UnboundedMailboxQueue_dtor_spec.
    induction n as [|n IH]; [reflexivity|exact IH].
Qed.

(** X9. Every message is destroyed once.  After any sequence of posts,
    destroy the owning pointers that the drain has made and then the two
    queues, the user queue first as the members of the mailbox are
    destroyed: the messages destroyed are, up to their order, the messages
    that were queued or were pushed and were not built with
    [do_not_delete = true], each as many times as it was queued or
    pushed. *)
Theorem messages_are_destroyed_once {I : Type} `{!IMessageInvoker I} fuel posts
    (mb : DefaultMailbox I) r mb' evs :
  post_all fuel posts mb = Some (r, mb', evs) ->
  Permutation
    (UnboundedMailboxQueue_dtor (system_messages_ mb')
       (UnboundedMailboxQueue_dtor (user_mailbox_ mb')
          (destroy_owners (popped evs) [])))
    (List.filter deletable
       ((system_messages_ mb ++ pushed_system evs)
        ++ (user_mailbox_ mb ++ pushed_user evs))).
Proof.
  intros H. destruct (post_all_conservation _ _ _ _ _ _ H) as (Hs & Hu & _).
  pose proof (post_all_popped _ _ _ _ _ _ H) as Hp.
  rewrite !UnboundedMailboxQueue_dtor_spec, destroy_owners_spec, Hp, Hs, Hu,
    app_nil_r.
  rewrite <- !Permutation_rev, !List.filter_app.
  rewrite (deletable_Permutation _ _ (invoked_interleaves evs)).
  rewrite List.filter_app.
  set (a := List.filter deletable (invoked_system evs)).
  set (b := List.filter deletable (invoked_user evs)).
  set (c := List.filter deletable (system_messages_ mb')).
  set (d := List.filter deletable (user_mailbox_ mb')).
  clearbody a b c d. solve_Permutation.
Qed.

(** The theorem at four posts to a new mailbox: the message on which the
    actor threw, the suspend and the user message left in the queue are
    destroyed, and [Started] is not. *)
Lemma messages_are_destroyed_once_witness :
  Permutation
    (UnboundedMailboxQueue_dtor
       (system_messages_
          (mailbox_after (recorder_mailbox [7; 8]%nat dispatcher3)
             (post_all 3 some_posts (recorder_mailbox [7; 8]%nat dispatcher3))))
       (UnboundedMailboxQueue_dtor
          (user_mailbox_
             (mailbox_after (recorder_mailbox [7; 8]%nat dispatcher3)
                (post_all 3 some_posts (recorder_mailbox [7; 8]%nat dispatcher3))))
          (destroy_owners
             (popped (events_of
                        (post_all 3 some_posts
                           (recorder_mailbox [7; 8]%nat dispatcher3)))) [])))
    [new_SuspendMailboxMessage; new_Fail; new_Hello "a"].
Proof.
  eassert (H : post_all 3 some_posts (recorder_mailbox [7; 8]%nat dispatcher3)
               = Some (Returned tt, _, _)) by (vm_compute; reflexivity).
  rewrite H.
  pose proof (messages_are_destroyed_once _ _ _ _ _ _ H) as Hw.
  vm_compute in Hw. vm_compute. exact Hw.
Defined.

(* ===================================================================== *)
(** ** The registry, generated names and PIDs *)
(* ===================================================================== *)

(** X10. The PID that [try_add] returns resolves to the process that was
    added: [get] finds the id and answers with the registered process, where
    it answered with the [DeadLetterProcess] before.  The answer of [get]
    for a PID with another id is as it was, and the id is taken from then
    on: a second [try_add] under it throws and changes nothing. *)
Theorem get_after_try_add reg id process pid reg' :
  ProcessRegistry_try_add id process reg = (Returned pid, reg') ->
  pid = PID_ctor (address_ reg) id
  /\ ProcessRegistry_get reg pid = DeadLetterProcess_instance
  /\ ProcessRegistry_get reg' pid = registered id
  /\ local_actor_refs_ reg' !! id = Some process
  /\ (forall pid2, pid_id_ pid2 <> id ->
        ProcessRegistry_get reg' pid2 = ProcessRegistry_get reg pid2)
  /\ (forall process2,
        ProcessRegistry_try_add id process2 reg'
        = (Threw (ProcessNameExistException id), reg')).
Proof.
  intros H.
  destruct (local_actor_refs_ reg !! id) as [p|] eqn:Hid.
  { rewrite (try_add_present _ _ _ _ Hid) in H. discriminate. }
  rewrite (try_add_absent _ _ _ Hid) in H. injection H as <- <-.
  unfold ProcessRegistry_get. simpl. rewrite Hid, lookup_insert_eq.
  do 4 (split; [reflexivity|]). split.
  - intros pid2 Hne. rewrite lookup_insert_ne by congruence. reflexivity.
  - intros process2. apply (try_add_present _ _ _ process). simpl.
    apply lookup_insert_eq.
Qed.

(** The theorem at the first [try_add] of a program. *)
Lemma get_after_try_add_witness :
  ProcessRegistry_get
    (snd (ProcessRegistry_try_add "a" (LocalProcess 0 false) ProcessRegistry_initial))
    (PID_ctor "nonhost" "a")
  = registered "a".
Proof.
  exact (proj1 (proj2 (proj2
           (get_after_try_add ProcessRegistry_initial "a" (LocalProcess 0 false)
              _ _ eq_refl)))).
Defined.

(** X11. [next_id] increments the counter and returns ["$"] followed by its
    decimal digits.  While the counter stays below [INT_MAX] the names are
    ["$1"], ["$2"], ...; at [INT_MAX] the counter wraps around and the name
    is ["$-2147483648"].  Two calls return the same name exactly when they
    leave the counter at the same value, so that the names of successive
    calls differ, and [next_id] changes nothing of the registry but the
    counter. *)
Theorem next_id_names_are_distinct :
  (forall reg,
      -2147483648 <= sequence_id_ reg + 1 < 2147483648 ->
      ProcessRegistry_next_id reg
      = ("$" +:+ pretty (sequence_id_ reg + 1),
         {| address_ := address_ reg; local_actor_refs_ := local_actor_refs_ reg;
            sequence_id_ := sequence_id_ reg + 1 |}))
  /\ fst (ProcessRegistry_next_id ProcessRegistry_initial) = "$1"
  /\ (forall reg,
        sequence_id_ reg = 2147483647 ->
        fst (ProcessRegistry_next_id reg) = "$-2147483648"
        /\ sequence_id_ (snd (ProcessRegistry_next_id reg)) = -2147483648)
  /\ (forall reg1 reg2,
        fst (ProcessRegistry_next_id reg1) = fst (ProcessRegistry_next_id reg2)
        <-> sequence_id_ (snd (ProcessRegistry_next_id reg1))
            = sequence_id_ (snd (ProcessRegistry_next_id reg2)))
  /\ (forall reg,
        fst (ProcessRegistry_next_id reg)
        <> fst (ProcessRegistry_next_id (snd (ProcessRegistry_next_id reg))))
  /\ (forall reg,
        address_ (snd (ProcessRegistry_next_id reg)) = address_ reg
        /\ local_actor_refs_ (snd (ProcessRegistry_next_id reg))
           = local_actor_refs_ reg).
Proof.
  split; [exact next_id_no_wrap|]. split; [reflexivity|]. split; [|split; [|split]].
  - intros reg Hmax. unfold ProcessRegistry_next_id. rewrite Hmax. split; reflexivity.
  - intros reg1 reg2. unfold ProcessRegistry_next_id. simpl. split.
    + intros [= H]. exact (pretty_Z_inj _ _ H).
    + intros ->. reflexivity.
  - intros reg. unfold ProcessRegistry_next_id. simpl. intros [= H].
    apply pretty_Z_inj in H.
    pose proof (wrap_int_range (sequence_id_ reg + 1)) as Hr.
    set (t := wrap_int (sequence_id_ reg + 1)) in *.
    destruct (decide (t = 2147483647)) as [Ht|Ht].
    + rewrite Ht in H. vm_compute in H. discriminate.
    + rewrite (wrap_int_id (t + 1)) in H by lia. lia.
  - intros reg. split; reflexivity.
Qed.

(** X12. [Actor::spawn] names the actor with [next_id].  As long as no
    process has been registered under a name that [next_id] has yet to
    generate, and the counter is below [INT_MAX], the name is free:
    [try_add] accepts it, the process is registered under ["$"] and the
    next number with a new mailbox, and the same holds for the next spawn.
    An exception that leaves the spawn is the one that the producer threw,
    or one that is not a [std::exception], thrown by the actor when it
    receives [Started]; the process is registered all the same. *)
Theorem spawn_generates_fresh_names {A : Type} `{!IActor A} fuel props
    (sys : System A) r sys' evs :
  generated_ids_fresh (registry sys) ->
  sequence_id_ (registry sys) < 2147483647 ->
  Actor_spawn fuel props sys = Some (r, sys', evs) ->
  match r with
  | Returned pid =>
      pid = PID_ctor (address_ (registry sys))
              ("$" +:+ pretty (sequence_id_ (registry sys) + 1))
  | Threw e => props_producer_ props tt = Threw e \/ is_std_exception e = false
  end
  /\ local_actor_refs_ (registry sys)
       !! ("$" +:+ pretty (sequence_id_ (registry sys) + 1)) = None
  /\ local_actor_refs_ (registry sys')
     = <["$" +:+ pretty (sequence_id_ (registry sys) + 1)
         := LocalProcess (length (mailboxes sys)) false]>
         (local_actor_refs_ (registry sys))
  /\ sequence_id_ (registry sys') = sequence_id_ (registry sys) + 1
  /\ generated_ids_fresh (registry sys').
Proof.
  intros (Hnn & Hfresh) Hmax H. unfold Actor_spawn in H.
  rewrite next_id_no_wrap in H by lia.
  set (name := "$" +:+ pretty (sequence_id_ (registry sys) + 1)) in *.
  assert (Hfree : local_actor_refs_ (registry sys) !! name = None).
  { destruct (local_actor_refs_ (registry sys) !! name) eqn:Hn; [|reflexivity].
    assert (Hs : is_Some (local_actor_refs_ (registry sys) !! name)) by eauto.
    apply Hfresh in Hs. lia. }
  unfold Actor_spawn_named, Props_spawn in H.
  apply spawn_free_result in H as (Hr & Hseq & Hrefs); [|exact Hfree].
  simpl in Hr, Hseq, Hrefs.
  split; [exact Hr|]. split; [exact Hfree|]. split; [exact Hrefs|].
  split; [exact Hseq|]. split; [lia|].
  intros k Hk. rewrite Hseq, Hrefs in *.
  destruct (decide ("$" +:+ pretty k = name)) as [Heq|Hne].
  - apply dollar_name_inj in Heq. lia.
  - rewrite lookup_insert_ne in Hk by congruence. apply Hfresh in Hk. lia.
Qed.

(** The theorem at the first spawn of a program: the actor is named
    ["$1"]. *)
Lemma spawn_generates_fresh_names_witness :
  local_actor_refs_
    (registry (system_after (Actor_spawn 2 recorder_props System_initial)))
  = <["$1" := LocalProcess 0 false]> ∅.
Proof.
  eassert (H : Actor_spawn 2 recorder_props System_initial = Some (_, _, _))
    by (vm_compute; reflexivity).
  rewrite H.
  refine (proj1 (proj2 (proj2
            (spawn_generates_fresh_names 2 recorder_props System_initial _ _ _
               _ _ H)))).
  - split; [simpl; lia|]. intros k [p Hp]. simpl in Hp.
    rewrite lookup_empty in Hp. discriminate.
  - simpl. lia.
Defined.

(** X13. When a process is registered under the name that [next_id]
    generates, [Actor::spawn] throws [ProcessNameExistException] with that
    name.  The counter has advanced all the same, and nothing else has
    changed: no mailbox is made, and the next spawn tries the next name. *)
Theorem spawn_throws_when_name_is_taken {A : Type} `{!IActor A} fuel props
    (sys : System A) p :
  local_actor_refs_ (registry sys) !! fst (ProcessRegistry_next_id (registry sys))
  = Some p ->
  Actor_spawn fuel props sys
  = Some (Threw (ProcessNameExistException
                   (fst (ProcessRegistry_next_id (registry sys)))),
          set_registry (snd (ProcessRegistry_next_id (registry sys))) sys, []).
Proof.
  intros Hp. unfold Actor_spawn.
  destruct (ProcessRegistry_next_id (registry sys)) as [name reg] eqn:Hnext.
  assert (Hrefs : local_actor_refs_ reg = local_actor_refs_ (registry sys))
    by (unfold ProcessRegistry_next_id in Hnext; injection Hnext as _ <-; reflexivity).
  simpl in Hp. unfold Actor_spawn_named, Props_spawn, Props_default_spawner. simpl.
  rewrite (try_add_present name _ reg p) by (rewrite Hrefs; exact Hp).
  reflexivity.
Qed.

(** The theorem at a program that has named an actor ["$1"] itself: the
    first [Actor::spawn] throws. *)
Lemma spawn_throws_when_name_is_taken_witness :
  Actor_spawn 2 recorder_props
    (system_after (Actor_spawn_named 2 recorder_props "$1" System_initial))
  = Some (Threw (ProcessNameExistException "$1"),
          set_registry
            (snd (ProcessRegistry_next_id
                    (registry (system_after
                                 (Actor_spawn_named 2 recorder_props "$1"
                                    System_initial)))))
            (system_after (Actor_spawn_named 2 recorder_props "$1" System_initial)),
          []).
Proof.
  assert (Hreg : local_actor_refs_
                   (registry (system_after
                                (Actor_spawn_named 2 recorder_props "$1" System_initial)))
                   !! fst (ProcessRegistry_next_id
                             (registry (system_after
                                          (Actor_spawn_named 2 recorder_props "$1"
                                             System_initial))))
                 = Some (LocalProcess 0 false)) by (vm_compute; reflexivity).
  pose proof (spawn_throws_when_name_is_taken 2 recorder_props
                (system_after (Actor_spawn_named 2 recorder_props "$1" System_initial))
                (LocalProcess 0 false) Hreg) as Hw.
  assert (Hname : fst (ProcessRegistry_next_id
                         (registry (system_after
                                      (Actor_spawn_named 2 recorder_props "$1"
                                         System_initial))))
                  = "$1") by (vm_compute; reflexivity).
  rewrite Hname in Hw. exact Hw.
Defined.

(** X14. The registry never lets go of a process.  Whatever is spawned,
    told or stopped, every process that was registered is still registered
    under its name and holds the mailbox it held, and a process that was
    stopped stays stopped; every registered [LocalProcess] holds a mailbox
    that exists, and no two hold the same one.  So the name of a stopped
    actor is not free again: a spawn under it throws. *)
Theorem registered_processes_are_kept {A : Type} `{!IActor A} :
  mailboxes_owned (System_initial (A := A))
  /\ (forall fuel props name (sys : System A) r sys' evs,
        Actor_spawn_named fuel props name sys = Some (r, sys', evs) ->
        processes_kept sys sys' /\ (mailboxes_owned sys -> mailboxes_owned sys'))
  /\ (forall fuel props (sys : System A) r sys' evs,
        Actor_spawn fuel props sys = Some (r, sys', evs) ->
        processes_kept sys sys' /\ (mailboxes_owned sys -> mailboxes_owned sys'))
  /\ (forall fuel message pid (sys : System A) r pid' sys' evs,
        PID_tell fuel message pid sys = Some (r, pid', sys', evs) ->
        processes_kept sys sys' /\ (mailboxes_owned sys -> mailboxes_owned sys'))
  /\ (forall fuel reff (sys : System A) r sys' evs,
        Process_stop fuel reff sys = Some (r, sys', evs) ->
        processes_kept sys sys' /\ (mailboxes_owned sys -> mailboxes_owned sys'))
  /\ (forall fuel fuel' props key (sys : System A) addr dead r sys' evs,
        local_actor_refs_ (registry sys) !! key = Some (LocalProcess addr dead) ->
        Process_stop fuel (registered key) sys = Some (r, sys', evs) ->
        Actor_spawn_named fuel' props key sys'
        = Some (Threw (ProcessNameExistException key), sys', [])).
Proof.
  split.
  { split; simpl; intros *; rewrite lookup_empty; discriminate. }
  split.
  { intros fuel props name sys r sys' evs H. exact (spawn_keeps _ _ _ _ _ _ _ _ H). }
  split.
  { intros fuel props sys r sys' evs H. unfold Actor_spawn in H.
    destruct (ProcessRegistry_next_id (registry sys)) as [name reg] eqn:Hnext.
    assert (Hrefs : local_actor_refs_ reg = local_actor_refs_ (registry sys))
      by (unfold ProcessRegistry_next_id in Hnext; injection Hnext as _ <-; reflexivity).
    apply spawn_keeps in H as (Hk & Ho).
    unfold processes_kept, mailboxes_owned in *. simpl in *.
    rewrite Hrefs in *. auto. }
  split.
  { intros fuel message pid sys r pid' sys' evs H.
    exact (tell_keeps _ _ _ _ _ _ _ _ H). }
  split.
  { intros fuel reff sys r sys' evs H. exact (stop_keeps _ _ _ _ _ _ H). }
  intros fuel fuel' props key sys addr dead r sys' evs Hkey H.
  apply stop_keeps in H as ((_ & Hk) & _). specialize (Hk key).
  rewrite Hkey in Hk. destruct Hk as (dead' & Hk' & _).
  unfold Actor_spawn_named, Props_spawn, Props_default_spawner.
  rewrite (try_add_present _ _ _ _ Hk'). destruct sys'. reflexivity.
Qed.

(** X15. A [tell] through a PID whose id is not registered goes to the
    [DeadLetterProcess]: it returns, and neither the system nor the PID has
    changed; the message is dropped without a trace.  So does [stop] on
    what the registry resolves the PID to.  The PID does not hold on to the
    [DeadLetterProcess]: once a live process is registered under the id, a
    [tell] through the same PID posts the message to the mailbox of that
    process. *)
Theorem tell_unregistered_is_dropped {A : Type} `{!IActor A} fuel message
    address id (sys : System A) :
  local_actor_refs_ (registry sys) !! id = None ->
  ProcessRegistry_get (registry sys) (PID_ctor address id) = DeadLetterProcess_instance
  /\ PID_ref (PID_ctor address id) sys = Some (None, PID_ctor address id)
  /\ PID_tell fuel message (PID_ctor address id) sys
     = Some (Returned tt, PID_ctor address id, sys, [])
  /\ Process_stop fuel (ProcessRegistry_get (registry sys) (PID_ctor address id)) sys
     = Some (Returned tt, sys, [])
  /\ (forall (sys' : System A) addr,
        local_actor_refs_ (registry sys') !! id = Some (LocalProcess addr false) ->
        PID_tell fuel message (PID_ctor address id) sys'
        = match mailboxes sys' !! addr with
          | Some mb =>
              match post_user_message fuel message mb with
              | Some (r, mb', evs) =>
                  Some (r, set_process (Some (registered id)) (PID_ctor address id),
                        set_mailbox addr mb' sys', evs)
              | None => None
              end
          | None => None
          end).
Proof.
  intros Hid.
  assert (Hget : ProcessRegistry_get (registry sys) (PID_ctor address id)
                 = DeadLetterProcess_instance)
    by (unfold ProcessRegistry_get; simpl; rewrite Hid; reflexivity).
  assert (Href : PID_ref (PID_ctor address id) sys = Some (None, PID_ctor address id))
    by (unfold PID_ref; simpl; rewrite Hget; reflexivity).
  split; [exact Hget|]. split; [exact Href|]. split; [|split].
  - unfold PID_tell. rewrite Href, Hget. reflexivity.
  - rewrite Hget. reflexivity.
  - intros sys' addr Hreg.
    apply (tell_live_posts fuel message (PID_ctor address id) sys' addr Hreg).
    left. reflexivity.
Qed.

(** The theorem at a program that tells before it spawns: the message is
    dropped. *)
Lemma tell_unregistered_is_dropped_witness :
  PID_tell 2 (new_Hello "a") (PID_ctor "nonhost" "a") (System_initial (A := Recorder))
  = Some (Returned tt, PID_ctor "nonhost" "a", System_initial, []).
Proof.
  exact (proj1 (proj2 (proj2
           (tell_unregistered_is_dropped 2 (new_Hello "a") "nonhost" "a"
              System_initial eq_refl)))).
Defined.

(** X16. A [tell] through a PID whose id is registered to a live
    [LocalProcess] posts the message to the mailbox of that process, and
    the PID holds the process afterwards.  It makes no difference whether
    the PID held the process before: [ref()] answers from the registry the
    first time and from the PID from then on, with the same process. *)
Theorem live_process_is_cached {A : Type} `{!IActor A} fuel message pid
    (sys : System A) addr :
  local_actor_refs_ (registry sys) !! pid_id_ pid = Some (LocalProcess addr false) ->
  process_ pid = None \/ process_ pid = Some (registered (pid_id_ pid)) ->
  PID_ref pid sys
  = Some (Some (registered (pid_id_ pid)),
          set_process (Some (registered (pid_id_ pid))) pid)
  /\ PID_ref (set_process (Some (registered (pid_id_ pid))) pid) sys = PID_ref pid sys
  /\ PID_tell fuel message (set_process (Some (registered (pid_id_ pid))) pid) sys
     = PID_tell fuel message pid sys
  /\ PID_tell fuel message pid sys
     = match mailboxes sys !! addr with
       | Some mb =>
           match post_user_message fuel message mb with
           | Some (r, mb', evs) =>
               Some (r, set_process (Some (registered (pid_id_ pid))) pid,
                     set_mailbox addr mb' sys, evs)
           | None => None
           end
       | None => None
       end.
Proof.
  intros Hreg Hcache.
  destruct (tell_live_posts fuel message pid sys addr Hreg Hcache) as (Href & Htell).
  destruct (tell_live_posts fuel message
              (set_process (Some (registered (pid_id_ pid))) pid) sys addr Hreg)
    as (Href' & Htell'); [right; reflexivity|].
  split; [exact Href|]. split; [rewrite Href', Href; reflexivity|].
  split; [rewrite Htell', Htell; reflexivity|exact Htell].
Qed.

(** The theorem at the PID that a spawn has returned, which holds no
    process yet. *)
Lemma live_process_is_cached_witness :
  PID_ref (PID_ctor "nonhost" "a")
    (system_after (Actor_spawn_named 2 recorder_props "a" System_initial))
  = Some (Some (registered "a"),
          set_process (Some (registered "a")) (PID_ctor "nonhost" "a")).
Proof.
  assert (Hreg : local_actor_refs_
                   (registry (system_after
                                (Actor_spawn_named 2 recorder_props "a" System_initial)))
                   !! pid_id_ (PID_ctor "nonhost" "a")
                 = Some (LocalProcess 0 false)) by (vm_compute; reflexivity).
  pose proof (live_process_is_cached 2 (new_Hello "a") (PID_ctor "nonhost" "a")
                (system_after (Actor_spawn_named 2 recorder_props "a" System_initial))
                0%nat Hreg (or_introl eq_refl)) as Hw.
  exact (proj1 Hw).
Defined.

(* ===================================================================== *)
(** ** Actors: what is received, and what is thrown *)
(* ===================================================================== *)

(** X17. Over any sequence of posts to a mailbox bound to a context,
    [receive] is called once for every user message handed to the context
    and once for every [StartedMessage] among the system messages handed to
    it, in that order, and for nothing else: a [Stop], a suspend or a
    resume does not reach the actor.  During each call [message()] returns
    the message, never a null pointer.  The actor is what these calls have
    made of it, and [state_] is as it was. *)
Theorem actor_receives_what_is_invoked {A : Type} `{!IActor A} fuel posts
    (mb : DefaultMailbox (LocalContext A)) ctx r mb' evs :
  invoker_ mb = Some ctx ->
  post_all fuel posts mb = Some (r, mb', evs) ->
  exists ctx',
    invoker_ mb' = Some ctx'
    /\ receive_calls_ ctx' = receive_calls_ ctx ++ map Some (received_by_actor evs)
    /\ actor_ ctx' = receive_all (received_by_actor evs) (actor_ ctx)
    /\ state_ ctx' = state_ ctx
    /\ (Forall is_Some (receive_calls_ ctx) -> Forall is_Some (receive_calls_ ctx')).
Proof.
  intros Hi H. exists (replay evs ctx).
  split; [exact (post_all_replay _ _ _ _ _ _ _ H Hi)|].
  destruct (context_replay evs ctx) as (Hc & Ha & Hs).
  split; [exact Hc|]. split; [exact Ha|]. split; [exact Hs|].
  intros Hall. rewrite Hc. apply Forall_app. split; [exact Hall|].
  apply Forall_forall. intros x Hx. apply list_elem_of_In in Hx.
  apply in_map_iff in Hx as (m & <- & _). eauto.
Qed.

(** The theorem at four posts to a new mailbox: the actor has received
    [Started] and the message on which it threw, and it has not received
    the suspend or the message that is held back. *)
Lemma actor_receives_what_is_invoked_witness :
  exists ctx',
    invoker_ (mailbox_after (recorder_mailbox [7; 8]%nat dispatcher3)
                (post_all 3 some_posts (recorder_mailbox [7; 8]%nat dispatcher3)))
    = Some ctx'
    /\ receive_calls_ ctx' = [Some StartedMessage_instance; Some new_Fail].
Proof.
  eassert (H : post_all 3 some_posts (recorder_mailbox [7; 8]%nat dispatcher3)
               = Some (Returned tt, _, _)) by (vm_compute; reflexivity).
  rewrite H.
  assert (Hi0 : invoker_ (recorder_mailbox [7; 8]%nat dispatcher3)
                = Some (LocalContext_incarnated Recorder_producer None []))
    by reflexivity.
  destruct (actor_receives_what_is_invoked _ _ _ _ _ _ _ Hi0 H)
    as (ctx' & Hi & Hc & _).
  exists ctx'. split; [exact Hi|exact Hc].
Defined.

(** X18. When [receive] throws nothing but exceptions derived from
    [std::exception], no exception of the actor reaches a sender.  A post
    to a mailbox bound to its context and a [tell] do not throw, and they
    return: a post when the throughput is positive and the fuel covers the
    queued messages, a sequence of [tell]s to an actor whose mailbox is at
    rest with every message delivered.  A spawn with the default [Props]
    ends as [try_add] and the producer allow: it throws
    [ProcessNameExistException] when the name is taken, before anything is
    made; when the name is free the process is registered, and the spawn
    throws what the producer throws, leaving the mailbox without handlers,
    or returns the PID. *)
Theorem std_exceptions_stay_in_the_mailbox {A : Type} `{!IActor A} :
  (forall slot (actor : A) e,
      fst (receive slot actor) = Threw e -> is_std_exception e = true) ->
  (forall fuel p (mb : DefaultMailbox (LocalContext A)) r mb' evs,
      post fuel p mb = Some (r, mb', evs) -> r = Returned tt /\ status_ mb' = status_ mb)
  /\ (forall fuel p (mb : DefaultMailbox (LocalContext A)) d,
        dispatcher_ mb = Some d -> 0 < throughput d -> is_Some (invoker_ mb) ->
        (length (system_messages_ mb) + length (user_mailbox_ mb) + 1 < fuel)%nat ->
        exists mb' evs,
          post fuel p mb = Some (Returned tt, mb', evs) /\ status_ mb' = status_ mb)
  /\ (forall fuel message pid (sys : System A) r pid' sys' evs,
        PID_tell fuel message pid sys = Some (r, pid', sys', evs) -> r = Returned tt)
  /\ (forall fuel messages pid (sys : System A) addr mb d ctx,
        local_actor_refs_ (registry sys) !! pid_id_ pid = Some (LocalProcess addr false) ->
        process_ pid = None \/ process_ pid = Some (registered (pid_id_ pid)) ->
        mailboxes sys !! addr = Some mb -> settled mb ->
        dispatcher_ mb = Some d -> 0 < throughput d -> invoker_ mb = Some ctx ->
        (2 <= fuel)%nat ->
        exists pid' sys' evs mb',
          tell_all fuel messages pid sys = Some (Returned tt, pid', sys', evs)
          /\ mailboxes sys' !! addr = Some mb'
          /\ settled mb'
          /\ invoked evs = messages
          /\ invoker_ mb' = Some (replay evs ctx))
  /\ (forall fuel producer name (sys : System A),
        (2 <= fuel)%nat ->
        exists r sys' evs,
          Actor_spawn_named fuel (Actor_from_producer producer) name sys
          = Some (r, sys', evs)
          /\ match local_actor_refs_ (registry sys) !! name with
             | Some _ =>
                 r = Threw (ProcessNameExistException name) /\ sys' = sys /\ evs = []
             | None =>
                 local_actor_refs_ (registry sys') !! name
                 = Some (LocalProcess (length (mailboxes sys)) false)
                 /\ match producer tt with
                    | Threw e =>
                        r = Threw e /\ evs = []
                        /\ mailboxes sys' = mailboxes sys ++ [UnboundedMailbox_create []]
                    | Returned _ =>
                        r = Returned (PID_ctor (address_ (registry sys)) name)
                    end
             end).
Proof.
  intros Hstd. split; [|split; [|split; [|split]]].
  - intros fuel p mb r mb' evs H.
    pose proof (context_post_std Hstd _ _ _ _ _ _ H) as ->. split; [reflexivity|].
    destruct (status_ mb) eqn:Hst.
    + apply (post_delivers _ _ _ _ _ Hst) in H. apply H.
    + destruct (post_busy fuel p mb Hst) as (evs0 & Hp & _).
      rewrite Hp in H. injection H as <- _. destruct p; exact Hst.
  - intros fuel p mb d Hd Hpos Hi Hlen.
    exact (context_post_returns Hstd fuel p mb d Hd Hpos Hi Hlen).
  - intros fuel message pid sys r pid' sys' evs H. exact (tell_std Hstd _ _ _ _ _ _ _ _ H).
  - intros fuel messages pid sys addr mb d ctx Hreg Hcache Hmb Hset Hd Hpos Hi Hfuel.
    destruct (tell_all_settled fuel messages pid sys addr mb d ctx
                Hreg Hcache Hmb Hset Hd Hpos Hi Hfuel)
      as (r & pid' & sys' & evs & mb' & Htell & _ & Hmbs & Hi' & _ & Hinv & _ & Hret & _).
    pose proof (tell_all_std Hstd _ _ _ _ _ _ _ _ Htell) as ->.
    destruct (delivered_to_std messages (actor_ ctx) Hstd) as (Hdel & _).
    exists pid', sys', evs, mb'. split; [exact Htell|].
    split; [rewrite Hmbs; apply list_lookup_insert_eq; eapply lookup_lt_Some; exact Hmb|].
    split; [exact (Hret eq_refl)|]. split; [congruence|exact Hi'].
  - intros fuel producer name sys Hfuel.
    unfold Actor_spawn_named, Props_spawn.
    destruct (local_actor_refs_ (registry sys) !! name) as [p|] eqn:Hname.
    { unfold Props_default_spawner. rewrite (try_add_present _ _ _ _ Hname).
      eexists _, _, _. split; [reflexivity|]. destruct sys. auto. }
    destruct (producer tt) as [actor|e] eqn:Hprod.
    + destruct (spawn_then_tell_all fuel producer actor name [] sys Hname Hfuel Hprod)
        as (r1 & sys1 & evs1 & Hspawn & _).
      unfold Actor_spawn_named, Props_spawn in Hspawn.
      exists r1, sys1, evs1. split; [exact Hspawn|].
      pose proof (spawn_std Hstd _ _ _ _ _ _ _ _ Hspawn) as Hr.
      destruct (spawn_free_result _ _ _ _ _ _ _ _ Hname Hspawn) as (_ & _ & Hrefs).
      rewrite Hname in Hr. simpl in Hr. rewrite Hprod in Hr.
      split; [rewrite Hrefs; apply lookup_insert_eq|exact Hr].
    + rewrite (spawn_free_threw fuel name (Actor_from_producer producer) None sys e
                 Hname Hprod).
      eexists _, _, _. split; [reflexivity|]. simpl.
      split; [apply lookup_insert_eq|auto].
Qed.

(** The theorem at [HelloActor], which throws nothing: the first spawn
    under the name ["a"] in a new program returns the PID. *)
Lemma std_exceptions_stay_in_the_mailbox_witness :
  exists r sys' evs,
    Actor_spawn_named 2 (Actor_from_producer HelloActor_producer) "a" System_initial
    = Some (r, sys', evs)
    /\ match local_actor_refs_ (registry (System_initial (A := HelloActor))) !! "a" with
       | Some _ =>
           r = Threw (ProcessNameExistException "a") /\ sys' = System_initial
           /\ evs = []
       | None =>
           local_actor_refs_ (registry sys') !! "a"
           = Some (LocalProcess (length (mailboxes (System_initial (A := HelloActor))))
                     false)
           /\ match HelloActor_producer tt with
              | Threw e =>
                  r = Threw e /\ evs = []
                  /\ mailboxes sys'
                     = mailboxes (System_initial (A := HelloActor))
                       ++ [UnboundedMailbox_create []]
              | Returned _ =>
                  r = Returned (PID_ctor
                                  (address_ (registry (System_initial (A := HelloActor))))
                                  "a")
              end
       end.
Proof.
  apply (proj2 (proj2 (proj2 (proj2
           (std_exceptions_stay_in_the_mailbox HelloActor_never_throws))))
           2%nat HelloActor_producer "a" System_initial).
  lia.
Defined.

(** X19. Spawn an actor with the default [Props] under a free name, with a
    producer that returns, and tell it any number of messages through the
    PID that the spawn returns, with fuel for two nested runs.  The spawn
    has a result, and so has the sequence of [tell]s.  The actor receives
    [Started] during the spawn and then each message during its [tell], in
    the order of the [tell]s, up to and including the first message on
    which [receive] throws something that is not a [std::exception]: that
    exception leaves the spawn or the [tell], no message is handed over
    after it, and the mailbox stays busy.  When there is no such message
    the spawn and the [tell]s return, every message has been received and
    the mailbox is at rest. *)
Theorem told_messages_are_received_in_order {A : Type} `{!IActor A} fuel
    (producer : Producer A) actor name messages (sys : System A) :
  local_actor_refs_ (registry sys) !! name = None ->
  (2 <= fuel)%nat ->
  producer tt = Returned actor ->
  exists r1 sys1 evs1,
    Actor_spawn_named fuel (Actor_from_producer producer) name sys
    = Some (r1, sys1, evs1)
    /\ thrown r1 = escape_of [StartedMessage_instance] actor
    /\ invoked evs1 = [StartedMessage_instance]
    /\ (forall pid, r1 = Returned pid ->
        pid = PID_ctor (address_ (registry sys)) name
        /\ exists r pid' sys2 evs2 mb ctx,
             tell_all fuel messages pid sys1 = Some (r, pid', sys2, evs2)
             /\ thrown r = escape_of (StartedMessage_instance :: messages) actor
             /\ invoked (evs1 ++ evs2)
                = delivered_to (StartedMessage_instance :: messages) actor
             /\ mailboxes sys2 !! length (mailboxes sys) = Some mb
             /\ invoker_ mb = Some ctx
             /\ receive_calls_ ctx
                = map Some (delivered_to (StartedMessage_instance :: messages) actor)
             /\ actor_ ctx
                = receive_all (delivered_to (StartedMessage_instance :: messages) actor)
                    actor
             /\ (r = Returned tt ->
                 delivered_to (StartedMessage_instance :: messages) actor
                 = StartedMessage_instance :: messages
                 /\ settled mb)
             /\ (forall e, r = Threw e -> status_ mb = Busy))
    /\ (forall e, r1 = Threw e ->
        exists mb ctx,
          mailboxes sys1 !! length (mailboxes sys) = Some mb
          /\ status_ mb = Busy
          /\ invoker_ mb = Some ctx
          /\ receive_calls_ ctx = [Some StartedMessage_instance]).
Proof.
  intros Hfree Hfuel Hprod.
  destruct (spawn_then_tell_all fuel producer actor name messages sys Hfree Hfuel Hprod)
    as (r1 & sys1 & evs1 & Hspawn & Hthrown1 & Hinv1 & Hrecv1 & Hret1 & Hthrew1).
  exists r1, sys1, evs1. split; [exact Hspawn|]. split; [exact Hthrown1|].
  split; [exact Hinv1|].
  split.
  2: { intros e He. destruct (Hthrew1 e He) as (mb & Hmb & Hb & Hi).
       exists mb, (replay evs1 (LocalContext_incarnated producer None actor)).
       do 3 (split; [assumption|]).
       destruct (context_replay evs1 (LocalContext_incarnated producer None actor))
         as (-> & _). rewrite Hrecv1. reflexivity. }
  intros pid Hr1.
  destruct (Hret1 pid Hr1)
    as (Hpid & r & pid' & sys2 & evs2 & mb & Htell & Hthrown & Hmb & Hi & Hrecv
        & Hdel & Hret & Hthrew).
  split; [exact Hpid|].
  exists r, pid', sys2, evs2, mb,
    (replay (evs1 ++ evs2) (LocalContext_incarnated producer None actor)).
  destruct (context_replay (evs1 ++ evs2) (LocalContext_incarnated producer None actor))
    as (Hc & Ha & _).
  rewrite Hrecv, Hdel in Hc, Ha.
  split; [exact Htell|]. split; [exact Hthrown|]. split; [exact Hdel|].
  split; [exact Hmb|]. split; [exact Hi|]. split; [exact Hc|]. split; [exact Ha|].
  split; [|exact Hthrew].
  intros Hr. split; [|exact (Hret Hr)].
  apply delivered_to_all. rewrite <- Hthrown, Hr. reflexivity.
Qed.

(** The theorem at a [Recorder] named ["a"] in a new program that is told
    three messages, on the second of which it throws an [int]: the third
    is not handed over. *)
Lemma told_messages_are_received_in_order_witness :
  (exists sys1 evs1 pid' sys2 evs2 mb ctx,
      Actor_spawn_named 2 (Actor_from_producer Recorder_producer) "a" System_initial
      = Some (Returned (PID_ctor "nonhost" "a"), sys1, evs1)
      /\ tell_all 2 [new_Hello "a"; new_ThrowInt; new_Hello "b"]
           (PID_ctor "nonhost" "a") sys1
         = Some (Threw (non_std_throw "42"), pid', sys2, evs2)
      /\ invoked (evs1 ++ evs2)
         = [StartedMessage_instance; new_Hello "a"; new_ThrowInt]
      /\ mailboxes sys2 !! 0%nat = Some mb
      /\ invoker_ mb = Some ctx
      /\ actor_ ctx = [StartedMessage_instance; new_Hello "a"; new_ThrowInt]
      /\ status_ mb = Busy).
Proof.
  destruct (told_messages_are_received_in_order 2 Recorder_producer [] "a"
              [new_Hello "a"; new_ThrowInt; new_Hello "b"] System_initial
              eq_refl ltac:(lia) eq_refl)
    as (r1 & sys1 & evs1 & Hspawn & Hthrown1 & _ & Hret1 & _).
  destruct r1 as [pid|e]; [|discriminate Hthrown1].
  destruct (Hret1 pid eq_refl)
    as (-> & r & pid' & sys2 & evs2 & mb & ctx & Htell & Hthrown & Hinv & Hmb & Hi
        & _ & Ha & _ & Hthrew).
  destruct r as [[]|e]; [discriminate Hthrown|].
  injection Hthrown as ->.
  exists sys1, evs1, pid', sys2, evs2, mb, ctx.
  split; [exact Hspawn|]. split; [exact Htell|]. split; [exact Hinv|].
  split; [exact Hmb|]. split; [exact Hi|]. split; [exact Ha|].
  exact (Hthrew _ eq_refl).
Defined.

(** X20. The example program.  [main] spawns a [HelloActor], which is named
    ["$1"], and tells it a [Hello]; the actor writes a line for each [Hello]
    it receives and nothing for [Started].  Whatever the names told, the
    lines written are ["Hello "] followed by each name, in the order of the
    [tell]s, each written before its [tell] returns; [main] returns having
    written ["Hello ProtoActor"]. *)
Theorem hello_world_greets fuel :
  (2 <= fuel)%nat ->
  (forall whos,
      exists sys1 evs1 pid' sys2 evs2,
        Actor_spawn fuel (Actor_from_producer HelloActor_producer) System_initial
        = Some (Returned (PID_ctor "nonhost" "$1"), sys1, evs1)
        /\ tell_all fuel (map new_Hello whos) (PID_ctor "nonhost" "$1") sys1
           = Some (Returned tt, pid', sys2, evs2)
        /\ written sys1 = []
        /\ written sys2 = map (fun who => "Hello " +:+ who) whos)
  /\ exists sys, main fuel = Some (Returned tt, sys)
                 /\ written sys = ["Hello ProtoActor"].
Proof.
  intros Hfuel.
  assert (Hall : forall whos,
    exists sys1 evs1 pid' sys2 evs2,
      Actor_spawn fuel (Actor_from_producer HelloActor_producer) System_initial
      = Some (Returned (PID_ctor "nonhost" "$1"), sys1, evs1)
      /\ tell_all fuel (map new_Hello whos) (PID_ctor "nonhost" "$1") sys1
         = Some (Returned tt, pid', sys2, evs2)
      /\ written sys1 = []
      /\ written sys2 = map (fun who => "Hello " +:+ who) whos).
  { intros whos. unfold Actor_spawn.
    change (ProcessRegistry_next_id (registry (System_initial (A := HelloActor))))
      with ("$1", {| address_ := "nonhost"; local_actor_refs_ := ∅; sequence_id_ := 1 |}).
    cbv beta iota.
    set (sys0 := set_registry _ (System_initial (A := HelloActor))).
    destruct (spawn_then_tell_all fuel HelloActor_producer [] "$1"
                (map new_Hello whos) sys0 (lookup_empty _) Hfuel eq_refl)
      as (r1 & sys1 & evs1 & Hspawn & Hthrown1 & _ & _ & Hret1 & _).
    destruct (delivered_to_std [StartedMessage_instance] ([] : HelloActor)
                HelloActor_never_throws) as (_ & Hesc1).
    destruct r1 as [pid|e]; [|rewrite Hesc1 in Hthrown1; discriminate].
    destruct (Hret1 _ eq_refl)
      as (-> & r & pid' & sys2 & evs2 & mb & Htell & _ & Hmb & Hi & Hrecv & Hdel & _).
    pose proof (tell_all_std HelloActor_never_throws _ _ _ _ _ _ _ _ Htell) as ->.
    exists sys1, evs1, pid', sys2, evs2.
    split; [exact Hspawn|]. split; [exact Htell|].
    destruct (spawn_then_tell_all fuel HelloActor_producer [] "$1"
                [] sys0 (lookup_empty _) Hfuel eq_refl)
      as (r1' & sys1' & evs1' & Hspawn' & _ & _ & _ & Hret1' & _).
    rewrite Hspawn in Hspawn'. injection Hspawn' as <- <- <-.
    destruct (Hret1' _ eq_refl)
      as (_ & r' & pid0 & sys2' & evs2' & mb' & Htell' & _ & Hmb' & Hi' & Hrecv' & Hdel'
          & _).
    simpl in Htell'. injection Htell' as <- <- <- <-.
    change (length (mailboxes sys0)) with 0%nat in Hmb, Hmb'.
    split.
    - rewrite (written_actor _ _ _ Hmb' Hi').
      destruct (context_replay (evs1 ++ [])
                  (LocalContext_incarnated HelloActor_producer None []))
        as (_ & Ha & _).
      etransitivity; [exact Ha|]. rewrite Hrecv', Hdel'. reflexivity.
    - rewrite (written_actor _ _ _ Hmb Hi).
      destruct (context_replay (evs1 ++ evs2)
                  (LocalContext_incarnated HelloActor_producer None []))
        as (_ & Ha & _).
      etransitivity; [exact Ha|]. rewrite Hrecv, Hdel.
      destruct (delivered_to_std (StartedMessage_instance :: map new_Hello whos)
                  ([] : HelloActor) HelloActor_never_throws) as (-> & _).
      exact (HelloActor_receive_all whos []). }
  split; [exact Hall|].
  destruct (Hall ["ProtoActor"]) as (sys1 & evs1 & pid' & sys2 & evs2 & Hspawn & Htell & _ & Hw).
  exists sys2. split; [|exact Hw].
  unfold main. rewrite Hspawn. simpl in Htell.
  destruct (PID_tell fuel (new_Hello "ProtoActor") (PID_ctor "nonhost" "$1") sys1)
    as [[[[[[]|e] pid1] sys1'] evs1']|]; [|discriminate|discriminate].
  injection Htell as _ <- _. reflexivity.
Qed.

(** The theorem with fuel for two nested runs: what [main] writes. *)
Lemma hello_world_greets_witness :
  exists sys, main 2 = Some (Returned tt, sys) /\ written sys = ["Hello ProtoActor"].
Proof. exact (proj2 (hello_world_greets 2 ltac:(lia))). Defined.

(* ===================================================================== *)
(** ** Suspend and resume: the messages held back *)
(* ===================================================================== *)

(** The posts of a suspend, of user messages and of a resume that have
    returned. *)
Lemma held_messages_released {I : Type} `{!IMessageInvoker I} fuel
    suspend users resume (mb : DefaultMailbox I) mb' evs :
  settled mb ->
  is_SuspendMailboxMessage suspend = true ->
  is_ResumeMailboxMessage resume = true ->
  post_all fuel (PostSystem suspend :: map PostUser users ++ [PostSystem resume]) mb
  = Some (Returned tt, mb', evs) ->
  invoked evs = suspend :: resume :: users
  /\ invoked_user evs = users
  /\ settled mb'.
Proof.
  intros (Hst & Hsys & Husr & Hsusp) Hsus Hres H.
  assert (Hnot : is_SuspendMailboxMessage resume = false)
    by (destruct resume as [[] ?]; cbn in *; congruence).
  simpl in H.
  destruct (post_system_message fuel suspend mb) as [[[[[]|e] mb1] evs1]|] eqn:Hp1;
    [| |discriminate H].
  2: { inversion H. }
  pose proof (post_conservation fuel (PostSystem suspend) _ _ _ _ Hp1)
    as (_ & Hcu1 & _ & Hpu1).
  rewrite Hpu1, Husr in Hcu1. simpl in Hcu1. symmetry in Hcu1.
  apply app_eq_nil in Hcu1 as (Hu1 & _).
  apply (post_delivers fuel (PostSystem suspend) _ _ _ Hst) in Hp1.
  simpl in Hp1. rewrite Hsys, Husr, Hsusp in Hp1. cbn in Hp1.
  unfold suspended_after_system in Hp1. rewrite Hsus in Hp1.
  destruct Hp1 as (Hi1 & Hst1 & Hsys1 & Husr1 & Hsusp1).
  rewrite post_all_app in H.
  destruct (post_all fuel (map PostUser users) mb1) as [[[r2 mb2] evs2]|] eqn:Hp2;
    [|discriminate H].
  destruct (post_all_users_suspended _ _ _ _ _ _ Hst1 Hsusp1 Hsys1 Hp2)
    as (-> & Hi2 & Hst2 & Hsusp2 & Hsys2 & Husr2).
  rewrite Husr1 in Husr2. simpl in Husr2.
  simpl in H.
  destruct (post_system_message fuel resume mb2) as [[[[[]|e] mb3] evs3]|] eqn:Hp3;
    [| |discriminate H].
  2: { inversion H. }
  injection H as <- <-.
  pose proof (post_conservation fuel (PostSystem resume) _ _ _ _ Hp3)
    as (_ & Hcu & _ & Hpu).
  apply (post_delivers fuel (PostSystem resume) _ _ _ Hst2) in Hp3.
  simpl in Hp3. rewrite Hsys2, Husr2, Hsusp2 in Hp3. cbn in Hp3.
  unfold suspended_after_system in Hp3. rewrite Hnot, Hres in Hp3.
  destruct Hp3 as (Hi3 & Hst3 & Hsys3 & Husr3 & Hsusp3).
  rewrite !invoked_app, !invoked_user_app, Hi1, Hi2, Hi3.
  rewrite (invoked_nil_user _ Hi2).
  rewrite Hpu, Husr2, Husr3 in Hcu. simpl in Hcu. rewrite !app_nil_r in Hcu.
  rewrite Hu1, <- Hcu. simpl. rewrite !app_nil_r. unfold settled. auto 10.
Qed.

(** X21. Send a mailbox at rest, bound to an invoker and to a dispatcher
    with a positive throughput, a [SuspendMailboxMessage], then any number
    of user messages, then a [ResumeMailboxMessage].  The posts come to an
    end when the fuel exceeds their number.  The invoker is afterwards what
    the calls recorded have made of it, and an exception leaves a post
    exactly when one of the calls throws something that is not a
    [std::exception]; an invoker that throws nothing else makes every post
    return.  When the posts have returned, the invoker has been handed the
    suspend, then the resume, and then the user messages in the order of
    their posts: every user message was held back in the queue until the
    resume had been handled, and was then delivered by the runs that the
    post of the resume started.  The mailbox is at rest again. *)
Theorem resume_releases_held_messages {I : Type} `{!IMessageInvoker I} fuel
    suspend users resume (mb : DefaultMailbox I) d i :
  settled mb ->
  dispatcher_ mb = Some d -> 0 < throughput d -> invoker_ mb = Some i ->
  is_SuspendMailboxMessage suspend = true ->
  is_ResumeMailboxMessage resume = true ->
  (length users + 2 < fuel)%nat ->
  exists r mb' evs,
    post_all fuel (PostSystem suspend :: map PostUser users ++ [PostSystem resume]) mb
    = Some (r, mb', evs)
    /\ invoker_ mb' = Some (replay evs i)
    /\ escaping i evs = thrown r
    /\ (r = Returned tt ->
        invoked evs = suspend :: resume :: users
        /\ invoked_user evs = users
        /\ settled mb')
    /\ (forall e, r = Threw e -> is_std_exception e = false /\ status_ mb' = Busy)
    /\ ((forall m j e,
            fst (invoke_system_message m j) = Threw e -> is_std_exception e = true) ->
        (forall m j e,
            fst (invoke_user_message m j) = Threw e -> is_std_exception e = true) ->
        r = Returned tt).
Proof.
  intros Hset Hd Hpos Hi Hsus Hres Hfuel.
  pose proof Hset as (Hst & Hsys & Husr & Hsusp).
  destruct (post_all_returns fuel
              (PostSystem suspend :: map PostUser users ++ [PostSystem resume]) mb d
              Hst Hd Hpos)
    as [[[r mb'] evs] H].
  { eauto. }
  { rewrite Hsys, Husr. simpl. rewrite length_app, length_map. simpl. lia. }
  exists r, mb', evs. split; [exact H|].
  pose proof (post_all_escaping _ _ _ _ _ _ _ H Hi) as Hesc.
  split; [exact (post_all_replay _ _ _ _ _ _ _ H Hi)|]. split; [exact Hesc|].
  split; [|split].
  - intros ->. exact (held_messages_released _ _ _ _ _ _ _ Hset Hsus Hres H).
  - intros e ->. destruct (post_all_final _ _ _ _ _ _ Hst H). auto.
  - intros Hs Hu. rewrite (escaping_std Hs Hu) in Hesc.
    destruct r as [[]|e]; [reflexivity|discriminate].
Qed.

(** The theorem at a new mailbox on [dispatcher3] that is sent a suspend,
    four user messages and a resume: the four messages are delivered after
    the resume, by two runs, and the actor has received them. *)
Lemma resume_releases_held_messages_witness :
  invoked
    (events_of
       (post_all 7
          (PostSystem new_SuspendMailboxMessage
           :: map PostUser (map numbered [1; 2; 3; 4]%nat)
              ++ [PostSystem new_ResumeMailboxMessage])
          (recorder_mailbox [] dispatcher3)))
  = new_SuspendMailboxMessage :: new_ResumeMailboxMessage
    :: map numbered [1; 2; 3; 4]%nat
  /\ option_map actor_
       (invoker_
          (mailbox_after (recorder_mailbox [] dispatcher3)
             (post_all 7
                (PostSystem new_SuspendMailboxMessage
                 :: map PostUser (map numbered [1; 2; 3; 4]%nat)
                    ++ [PostSystem new_ResumeMailboxMessage])
                (recorder_mailbox [] dispatcher3))))
     = Some (map numbered [1; 2; 3; 4]%nat).
Proof.
  assert (Hs : settled (recorder_mailbox [] dispatcher3)) by (repeat split).
  assert (Hpos : 0 < throughput dispatcher3) by reflexivity.
  assert (Hfuel : (length (map numbered [1; 2; 3; 4]%nat) + 2 < 7)%nat)
    by (simpl; lia).
  destruct (resume_releases_held_messages 7 new_SuspendMailboxMessage
              (map numbered [1; 2; 3; 4]%nat) new_ResumeMailboxMessage
              (recorder_mailbox [] dispatcher3) dispatcher3
              (LocalContext_incarnated Recorder_producer None [])
              Hs eq_refl Hpos eq_refl eq_refl eq_refl Hfuel)
    as (r & mb' & evs & H & Hi & _ & Hret & _).
  eassert (H0 : post_all 7
                  (PostSystem new_SuspendMailboxMessage
                   :: map PostUser (map numbered [1; 2; 3; 4]%nat)
                      ++ [PostSystem new_ResumeMailboxMessage])
                  (recorder_mailbox [] dispatcher3)
                = Some (Returned tt, _, _)) by (vm_compute; reflexivity).
  rewrite H0 in H. injection H as <- <- <-.
  rewrite H0. cbn [events_of mailbox_after].
  destruct (Hret eq_refl) as (Hinv & _).
  split; [exact Hinv|]. vm_compute. reflexivity.
Defined.
